(** * codeceptjs-pixelmatchhelper: the comparison and masking engine

    A shallow embedding of [src/index.js] (class [PixelmatchHelper]):
    the pixel mask engine [_clearRect], the bounds/ignore applicator
    [_applyBounds], the option sanitation of [_setupTest] and of the
    constructor, the variation label and the candidate loop of
    [getVisualDifferences].

    Conventions of the embedding
    - a decoded raster (pngjs [PNG]) is a record of [width], [height] and
      the RGBA buffer [data], one [Z] per byte, four bytes per pixel,
      row-major; the in-place mutation of the buffer is explicit state
      passing: every operation returns the new raster;
    - JavaScript integers (pixel counts, coordinates) are [Z];
    - JavaScript numbers that carry a percentage are [jsnum]: a binary64
      value, given by the rational it denotes, [NaN], or a signed
      infinity; their arithmetic rounds to the nearest binary64 value,
      ties to even ([fl]);
    - a JavaScript string is the [string] of its UTF-8 bytes: the engine
      looks in a string only for ASCII characters and for line
      terminators, and both can be told from the bytes;
    - a thrown [Error] is the [Err] constructor of [outcome];
    - the file system is outside the model: the candidate list is the list
      of resolved paths with their decoded rasters;
    - the third-party differ [pixelmatch] is a parameter. *)

From Stdlib Require Import ZArith QArith Qround Qabs Qpower Lqa String Ascii Bool Lia.
From stdpp Require Import base tactics option list.

Open Scope Z_scope.

(** ** Rasters *)

Record PNG := mkPNG { width : Z; height : Z; data : list Z }.

(** A raster as the decoder produces it: four bytes per pixel. *)
Definition wf_png (png : PNG) : Prop :=
  0 <= width png /\ 0 <= height png /\
  Z.of_nat (length (data png)) = 4 * (width png * height png).

(** [buf[k]]: [None] stands for [undefined]. *)
Definition byte_at (d : list Z) (k : Z) : option Z :=
  if k <? 0 then None else d !! Z.to_nat k.

(** [buf[k] > 0], false on [undefined]. *)
Definition gt0 (o : option Z) : bool :=
  match o with
  | Some a => 0 <? a
  | None => false
  end.

(** [buf.fill(v, s, e)] for [0 <= s]: the bytes [s .. e-1] become [v].
    On a decoded raster every index the mask engine passes is in range
    (see [wf_png]); positions past the end are left alone. *)
Definition buffer_fill (v s e : Z) (d : list Z) : list Z :=
  foldl (fun d i => <[Z.to_nat i := v]> d) d (seqZ s (e - s)).

(** ** 4.1 Pixel mask engine: [_clearRect] *)

(** Body of the inner loop at column [x] of row [y]. *)
Definition clear_pixel (w y : Z) (acc : list Z * Z) (x : Z) : list Z * Z :=
  let k := 4 * (x + w * y) in
  let count := if gt0 (byte_at (fst acc) (k + 3)) then snd acc + 1 else snd acc in
  (buffer_fill 0 k (k + 4) (fst acc), count).

(** The two nested [for] loops over [y0 <= y < y1], [x0 <= x < x1]. *)
Definition clear_loop (w x0 y0 x1 y1 : Z) (acc : list Z * Z) : list Z * Z :=
  foldl (fun acc y => foldl (clear_pixel w y) acc (seqZ x0 (x1 - x0)))
        acc (seqZ y0 (y1 - y0)).

Definition _clearRect (png : PNG) (x0 y0 x1 y1 : Z) : PNG * Z :=
  let x0 := Z.min (width png) (Z.max 0 x0) in
  let x1 := Z.min (width png) (Z.max 0 x1) in
  let y0 := Z.min (height png) (Z.max 0 y0) in
  let y1 := Z.min (height png) (Z.max 0 y1) in
  if (x0 =? x1) || (y0 =? y1) then (png, 0)
  else
    let '(x0, x1) := if x1 <? x0 then (x1, x0) else (x0, x1) in
    let '(y0, y1) := if y1 <? y0 then (y1, y0) else (y0, y1) in
    let '(d, count) := clear_loop (width png) x0 y0 x1 y1 (data png, 0) in
    (mkPNG (width png) (height png) d, count).

(** ** 4.2 Bounds/ignore applicator: [_applyBounds] *)

Record rect := mkRect { r_left : Z; r_top : Z; r_width : Z; r_height : Z }.

(** [left || top || width || height] on integers. *)
Definition useBounds (b : rect) : bool :=
  negb (r_left b =? 0) || negb (r_top b =? 0)
  || negb (r_width b =? 0) || negb (r_height b =? 0).

(** The four border rectangles, as corner pairs [(xa, ya, xb, yb)], in the
    order in which [_applyBounds] clears them. *)
Definition border_rects (b : rect) (png : PNG) : list (Z * Z * Z * Z) :=
  let x0 := 0 in
  let x1 := r_left b in
  let x2 := r_left b + r_width b in
  let x3 := width png in
  let y0 := 0 in
  let y1 := r_top b in
  let y2 := r_top b + r_height b in
  let y3 := height png in
  [ (x0, y0, x1, y3); (x1, y0, x3, y1); (x1, y2, x3, y3); (x2, y1, x3, y2) ].

(** The corner pair cleared for one ignore entry. *)
Definition ignore_rect (r : rect) : Z * Z * Z * Z :=
  (r_left r, r_top r, r_left r + r_width r, r_top r + r_height r).

(** [cleared += this._clearRect(png, ...)]. *)
Definition clear_acc (acc : PNG * Z) (c : Z * Z * Z * Z) : PNG * Z :=
  let '(xa, ya, xb, yb) := c in
  let '(png', n) := _clearRect (fst acc) xa ya xb yb in
  (png', snd acc + n).

Definition _applyBounds (bounds : rect) (ignore : list rect) (png : PNG) : PNG * Z :=
  let acc := (png, 0) in
  let acc :=
    if useBounds bounds then foldl clear_acc acc (border_rects bounds png)
    else acc in
  foldl clear_acc acc (ignore_rect <$> ignore).

(** ** JavaScript numbers *)

(** A number: a binary64 value, given by the rational it denotes, [NaN]
    or a signed infinity.  The sign of a zero is not kept: no comparison
    tells [-0] from [0], and the engine divides only by a difference of
    two counts, which is never [-0]. *)
Inductive jsnum := NaN | PosInf | NegInf | Num (q : Q).

(** The integer nearest to [q], the even one of two. *)
Definition round_even (q : Q) : Z :=
  let f := Qfloor q in
  match (q - inject_Z f ?= 1 # 2)%Q with
  | Lt => f
  | Gt => f + 1
  | Eq => if Z.even f then f else f + 1
  end.

(** [floor (log2 q)] for [0 < q]. *)
Definition ilog2 (q : Q) : Z :=
  let k := Z.log2 (Qnum q) - Z.log2 (Zpos (Qden q)) in
  if Qle_bool (2 ^ k) q then k else k - 1.

(** The binary64 value nearest to [a], for [0 < a]: 53 significant bits,
    ties to even, and the fixed unit [2^-1074] below [2^-1022]. *)
Definition fl_abs (a : Q) : Q :=
  let u := Z.max (ilog2 a - 52) (-1074) in
  (inject_Z (round_even (a / 2 ^ u)) * 2 ^ u)%Q.

Definition signed_inf (negative : bool) : jsnum :=
  if negative then NegInf else PosInf.

(** The number a real result [q] is stored as: the nearest binary64
    value, an infinity once that is [2^1024] or more. *)
Definition fl (q : Q) : jsnum :=
  if Qeq_bool q 0 then Num 0
  else
    let r := fl_abs (Qabs q) in
    if Qle_bool (2 ^ 1024) r then signed_inf (negb (Qle_bool 0 q))
    else Num (if Qle_bool 0 q then r else - r)%Q.

(** An integer count as a number; counts are far below [2^53]. *)
Definition js_int (z : Z) : jsnum := Num (inject_Z z).

Definition is_zero (a : jsnum) : bool :=
  match a with
  | Num q => Qeq_bool q 0
  | _ => false
  end.

Definition is_negative (a : jsnum) : bool :=
  match a with
  | NegInf => true
  | Num q => negb (Qle_bool 0 q)
  | _ => false
  end.

(** [a * b]. *)
Definition js_mul (a b : jsnum) : jsnum :=
  match a, b with
  | NaN, _ | _, NaN => NaN
  | Num p, Num q => fl (p * q)
  | _, _ =>
      if is_zero a || is_zero b then NaN
      else signed_inf (xorb (is_negative a) (is_negative b))
  end.

(** [a / b]. *)
Definition js_div (a b : jsnum) : jsnum :=
  match a, b with
  | NaN, _ | _, NaN => NaN
  | Num p, Num q =>
      if Qeq_bool q 0 then
        (if Qeq_bool p 0 then NaN else signed_inf (is_negative a))
      else fl (p / q)
  | Num _, _ => Num 0
  | _, Num _ => signed_inf (xorb (is_negative a) (is_negative b))
  | _, _ => NaN
  end.

(** [Number.prototype.toFixed(4)] on a finite value below [10^21], as a
    count of ten-thousandths: the integer [n] for which [n / 10^4 - x] is
    as close to zero as possible, the larger one of two; a negative value
    is rounded as its absolute value and keeps its sign. *)
Definition fixed4 (q : Q) : Z :=
  if Qle_bool 0 q then Qfloor (q * 10000 + (1 # 2))%Q
  else - Qfloor ((- q) * 10000 + (1 # 2))%Q.

(** [parseFloat(x.toFixed(4))]: the decimal [n / 10^4] that [toFixed]
    prints is read back as the nearest binary64 value.  From [10^21] on,
    [toFixed] prints the number itself; ["NaN"] and ["Infinity"] parse
    back to themselves. *)
Definition toFixed4 (x : jsnum) : jsnum :=
  match x with
  | Num q =>
      if Qle_bool (10 ^ 21) (Qabs q) then Num q
      else fl (inject_Z (fixed4 q) / 10000)
  | _ => x
  end.

(** [a <= b]: false as soon as one side is [NaN]. *)
Definition js_le (a b : jsnum) : bool :=
  match a, b with
  | NaN, _ | _, NaN => false
  | NegInf, _ => true
  | _, PosInf => true
  | PosInf, _ => false
  | _, NegInf => false
  | Num p, Num q => Qle_bool p q
  end.

(** [a == b] on numbers: [NaN] equals nothing. *)
Definition js_eq (a b : jsnum) : bool :=
  match a, b with
  | PosInf, PosInf | NegInf, NegInf => true
  | Num p, Num q => Qeq_bool p q
  | _, _ => false
  end.

(** [a + b]. *)
Definition js_add (a b : jsnum) : jsnum :=
  match a, b with
  | NaN, _ | _, NaN => NaN
  | PosInf, NegInf | NegInf, PosInf => NaN
  | PosInf, _ | _, PosInf => PosInf
  | NegInf, _ | _, NegInf => NegInf
  | Num p, Num q => fl (p + q)
  end.

(** [Math.max(a, b)] and [Math.min(a, b)]: [NaN] if one argument is. *)
Definition js_max (a b : jsnum) : jsnum :=
  match a, b with
  | NaN, _ | _, NaN => NaN
  | _, _ => if js_le a b then b else a
  end.

Definition js_min (a b : jsnum) : jsnum :=
  match a, b with
  | NaN, _ | _, NaN => NaN
  | _, _ => if js_le a b then a else b
  end.

(** ** 4.6 Options: the constructor and [_setupTest] *)

(** The constructor's [globalTolerance]; [config_tolerance] is
    [parseFloat(config.tolerance)], [None] when the key is undefined. *)
Definition constructor_globalTolerance (config_tolerance : option jsnum) : jsnum :=
  match config_tolerance with
  | None => Num 0
  | Some t => js_min (Num 100) (js_max (Num 0) t)
  end.

(** The caller's [options] object, as far as the engine reads it: every
    numeric field is given as parsed by [parseFloat] / [parseInt];
    [o_element] is the bounding box the driver resolved for
    [options.element]; [o_ignore] lists the well-formed ignore entries;
    [o_args] is the default differ options with the keys of
    [options.args] written over them. *)
Record raw_options (args_t : Type) := mkRaw {
  o_tolerance : option jsnum;
  o_element : option rect;
  o_bounds : option rect;
  o_ignore : list rect;
  o_args : option args_t
}.
Arguments mkRaw {args_t}.
Arguments o_tolerance {args_t}.
Arguments o_element {args_t}.
Arguments o_bounds {args_t}.
Arguments o_ignore {args_t}.
Arguments o_args {args_t}.

(** [this.options] after [_setupTest]. *)
Record options (args_t : Type) := mkOptions {
  tolerance : jsnum;
  bounds : rect;
  ignore : list rect;
  args : args_t
}.
Arguments mkOptions {args_t}.
Arguments tolerance {args_t}.
Arguments bounds {args_t}.
Arguments ignore {args_t}.
Arguments args {args_t}.

Definition _setupTest {args_t : Type} (globalTolerance : jsnum)
    (defaultArgs : args_t) (opts : option (raw_options args_t)) : options args_t :=
  let newValues := mkOptions globalTolerance (mkRect 0 0 0 0) [] defaultArgs in
  match opts with
  | None => newValues
  | Some o =>
      let tol := match o_tolerance o with
                 | Some t => js_max (Num 0) t
                 | None => tolerance newValues
                 end in
      let bnd := match o_element o with
                 | Some b => b
                 | None => match o_bounds o with
                           | Some b => b
                           | None => bounds newValues
                           end
                 end in
      let ar := match o_args o with
                | Some a => a
                | None => args newValues
                end in
      mkOptions tol bnd (o_ignore o) ar
  end.

(** ** 4.3 Variation label *)

Local Open Scope string_scope.

(** [s.indexOf(c) !== -1]. *)
Fixpoint contains (c : ascii) (s : string) : bool :=
  match s with
  | EmptyString => false
  | String a s' => Ascii.eqb a c || contains c s'
  end.

(** The line terminators of one byte: LF and CR. *)
Definition is_line_terminator (c : ascii) : bool :=
  Ascii.eqb c "010"%char || Ascii.eqb c "013"%char.

(** A line terminator, which [.] does not match, starts [s]: LF, CR, or
    one of U+2028 and U+2029, whose UTF-8 bytes are [E2 80 A8] and
    [E2 80 A9]. *)
Definition line_terminator_at (s : string) : bool :=
  match s with
  | EmptyString => false
  | String a r =>
      is_line_terminator a
      || (Ascii.eqb a "226"%char
          && match r with
             | String b (String c _) =>
                 Ascii.eqb b "128"%char
                 && (Ascii.eqb c "168"%char || Ascii.eqb c "169"%char)
             | _ => false
             end)
  end.

(** The match of [/^.*~/] at the start of [s]: the longest run of
    non-terminator characters that ends in ['~'].  The result is what is
    left of [s] after the match, [None] when there is no match. *)
Fixpoint drop_through_tilde (s : string) : option string :=
  match s with
  | EmptyString => None
  | String a s' =>
      if line_terminator_at s then None
      else match drop_through_tilde s' with
           | Some r => Some r
           | None => if Ascii.eqb a "~"%char then Some s' else None
           end
  end.

(** The match of [/\.png$/]: a final [".png"] is removed. *)
Fixpoint drop_png (s : string) : string :=
  match s with
  | EmptyString => EmptyString
  | String a s' => if String.eqb s ".png" then EmptyString else String a (drop_png s')
  end.

(** [s.replace(/\.png$|^.*~/g, '')]. *)
Definition replace_png_or_prefix (s : string) : string :=
  drop_png (match drop_through_tilde s with
            | Some r => r
            | None => s
            end).

(** No line terminator starts anywhere in [s]. *)
Fixpoint one_line (s : string) : bool :=
  match s with
  | EmptyString => true
  | String a s' => negb (line_terminator_at s) && one_line s'
  end.

(** [results[i].variation] for the candidate path [imgPath]. *)
Definition variation_of (imgPath : string) : string :=
  if contains "~"%char imgPath then replace_png_or_prefix imgPath else "".

(** ** 4.5 Multi-candidate comparator: [getVisualDifferences] *)

Inductive outcome (A : Type) :=
| Ok (a : A)
| Err (msg : string).
Arguments Ok {A}.
Arguments Err {A}.

(** One element of [results]. *)
Record entry := mkEntry {
  diffPixels : Z;
  totalPixels : Z;
  relevantPixels : Z;
  difference : jsnum;
  match_ : bool;
  variation : string;
  diffImage : string
}.

(** The variables of the candidate loop.  [bestImgDiff] is the serialized
    snapshot [PNG.sync.write(imgDiff)], [None] while it is [undefined];
    [imgDiff] is the one diff raster every call of the differ writes to. *)
Record loop_state := mkLoop {
  results : list entry;
  bestIndex : nat;
  bestDifference : Z;
  bestImgDiff : option PNG;
  imgDiff : PNG
}.

(** What [getVisualDifferences] leaves behind: the scalar fields of
    [this.result], its [variations], and the diff image written to
    storage, if one was, with the suffix it was saved under. *)
Record comparison := mkComparison {
  scalars : entry;
  variations : list entry;
  savedDiff : option (string * PNG)
}.

Section Comparator.

(** The differ's options object. *)
Variable args_t : Type.

(** [pixelmatch(img1, img2, output, width, height, options)]: the number
    of mismatched pixels and the new content of [output]. *)
Variable pixelmatch :
  list Z -> list Z -> list Z -> Z -> Z -> args_t -> Z * list Z.

(** [this._getFileName('diff', i)]. *)
Variable diffFileName : nat -> string.

(** [this.options], and whether [this.globalDir.diff] is set. *)
Variable opts : options args_t.
Variable diffEnabled : bool.

(** [PNG.sync.write]: the snapshot is a copy of the raster. *)
Definition PNG_sync_write (png : PNG) : PNG := png.

(** [new PNG({width, height})]: a zero-filled buffer. *)
Definition new_PNG (w h : Z) : PNG :=
  mkPNG w h (replicate (Z.to_nat (4 * (w * h))) 0).

(** The body of the candidate loop at index [i]. *)
Definition compare_candidate (imgActual : PNG) (totalPixels ignoredPixels : Z)
    (st : loop_state) (i : nat) (cand : string * PNG) : outcome loop_state :=
  let '(imgPath, imgExpected) := cand in
  if negb (width imgExpected =? width imgActual)%Z
     || negb (height imgExpected =? height imgActual)%Z
  then Err "Image sizes do not match"
  else
    let imgExpected := fst (_applyBounds (bounds opts) (ignore opts) imgExpected) in
    let '(n, out) :=
      pixelmatch (data imgExpected) (data imgActual) (data (imgDiff st))
                 (width imgActual) (height imgActual) (args opts) in
    let imgDiff' := mkPNG (width (imgDiff st)) (height (imgDiff st)) out in
    let relevant := totalPixels - ignoredPixels in
    let diff := toFixed4 (js_div (js_mul (Num 100) (js_int n)) (js_int relevant)) in
    let m := js_le diff (tolerance opts) in
    let e := {| diffPixels := n;
                totalPixels := totalPixels;
                relevantPixels := relevant;
                difference := diff;
                match_ := m;
                variation := variation_of imgPath;
                diffImage := if negb m && diffEnabled then diffFileName i else "" |} in
    if (n <? bestDifference st)%Z then
      Ok {| results := results st ++ [e];
            bestIndex := i;
            bestDifference := n;
            bestImgDiff := Some (PNG_sync_write imgDiff');
            imgDiff := imgDiff' |}
    else
      Ok {| results := results st ++ [e];
            bestIndex := bestIndex st;
            bestDifference := bestDifference st;
            bestImgDiff := bestImgDiff st;
            imgDiff := imgDiff' |}.

(** [for (let i = 0; i < expectedImages.length; i++)], from index [i]. *)
Fixpoint candidate_loop (imgActual : PNG) (totalPixels ignoredPixels : Z)
    (cands : list (string * PNG)) (i : nat) (st : loop_state)
    : outcome loop_state :=
  match cands with
  | [] => Ok st
  | cand :: rest =>
      match compare_candidate imgActual totalPixels ignoredPixels st i cand with
      | Err msg => Err msg
      | Ok st' => candidate_loop imgActual totalPixels ignoredPixels rest (S i) st'
      end
  end.

(** [getVisualDifferences], after the images are resolved and decoded:
    [expectedImages] pairs every path of [_getExpectedImagePaths] with
    its raster, [imgActual] is the decoded actual image.  Capturing
    screenshots, reading files and dumping the intermediate images are
    input and output outside the model. *)
Definition getVisualDifferences (expectedImages : list (string * PNG))
    (imgActual : PNG) : outcome comparison :=
  if (length expectedImages =? 0)%nat then Err "No expected base image found"
  else if (height imgActual =? 0)%Z then Err "Current screenshot is empty (zero height)"
  else
    let width := width imgActual in
    let height := height imgActual in
    let totalPixels := width * height in
    let '(imgActual, ignoredPixels) :=
      _applyBounds (bounds opts) (ignore opts) imgActual in
    let st := {| results := [];
                 bestIndex := 0;
                 bestDifference := totalPixels;
                 bestImgDiff := None;
                 imgDiff := new_PNG width height |} in
    match candidate_loop imgActual totalPixels ignoredPixels expectedImages 0 st with
    | Err msg => Err msg
    | Ok st =>
        match results st !! bestIndex st with
        | None => Err "TypeError: Cannot read properties of undefined"
        | Some best =>
            Ok {| scalars := best;
                  variations := results st;
                  savedDiff :=
                    if negb (match_ best) && diffEnabled then
                      match bestImgDiff st with
                      | Some snapshot => Some (variation best, snapshot)
                      | None => None
                      end
                    else None |}
        end
    end.

End Comparator.

Local Close Scope string_scope.

(** ** Vocabulary for statements about rasters *)

(** Channel [c] (0..3 for R, G, B, A) of the pixel at column [x], row [y]. *)
Definition channel (png : PNG) (x y c : Z) : option Z :=
  byte_at (data png) (4 * (x + width png * y) + c).

(** The pixel's alpha channel is [> 0]. *)
Definition opaque (png : PNG) (x y : Z) : bool := gt0 (channel png x y 3).

(** [(x, y)] lies in the half-open rectangle [[x0,x1) x [y0,y1)]. *)
Definition inside (x0 y0 x1 y1 x y : Z) : bool :=
  (x0 <=? x) && (x <? x1) && (y0 <=? y) && (y <? y1).

(** The pixels of [[x0,x1) x [y0,y1)], row by row. *)
Definition cells (x0 y0 x1 y1 : Z) : list (Z * Z) :=
  seqZ y0 (y1 - y0) ≫= fun y => (fun x => (x, y)) <$> seqZ x0 (x1 - x0).

(** Number of elements of [l] that satisfy [f]. *)
Definition countb {A} (f : A -> bool) (l : list A) : Z :=
  Z.of_nat (length (List.filter f l)).

(** Number of pixels of [l] whose alpha is [> 0] in [png]. *)
Definition count_opaque (png : PNG) (l : list (Z * Z)) : Z :=
  countb (fun c => opaque png (fst c) (snd c)) l.

(** Number of pixels of the whole raster whose alpha is [> 0]. *)
Definition opaque_total (png : PNG) : Z :=
  count_opaque png (cells 0 0 (width png) (height png)).

(** The loop body seen at the linear pixel index [p = x + w * y]. *)
Definition clear_lin (acc : list Z * Z) (p : Z) : list Z * Z :=
  let k := 4 * p in
  let count := if gt0 (byte_at (fst acc) (k + 3)) then snd acc + 1 else snd acc in
  (buffer_fill 0 k (k + 4) (fst acc), count).

Definition linear (w : Z) (c : Z * Z) : Z := fst c + w * snd c.

(** Alpha test of the pixel with linear index [p]. *)
Definition alpha_lin (d : list Z) (p : Z) : bool := gt0 (byte_at d (4 * p + 3)).

(** [Math.min(size, Math.max(0, v))]. *)
Definition clamp (size v : Z) : Z := Z.min size (Z.max 0 v).

(** The rectangle [_clearRect] works on: both corners clamped into the
    raster, then ordered. *)
Definition norm_rect (png : PNG) (x0 y0 x1 y1 : Z) : Z * Z * Z * Z :=
  (Z.min (clamp (width png) x0) (clamp (width png) x1),
   Z.min (clamp (height png) y0) (clamp (height png) y1),
   Z.max (clamp (width png) x0) (clamp (width png) x1),
   Z.max (clamp (height png) y0) (clamp (height png) y1)).

(** Membership in a corner-pair rectangle. *)
Definition inside_rect (r : Z * Z * Z * Z) (x y : Z) : bool :=
  let '(xa, ya, xb, yb) := r in inside xa ya xb yb x y.

Definition cells_rect (r : Z * Z * Z * Z) : list (Z * Z) :=
  let '(xa, ya, xb, yb) := r in cells xa ya xb yb.

(** The normalised rectangle of a corner pair. *)
Definition norm_corners (png : PNG) (c : Z * Z * Z * Z) : Z * Z * Z * Z :=
  let '(xa, ya, xb, yb) := c in norm_rect png xa ya xb yb.

(** [(x, y)] is covered by one of the rectangles cleared for [rs]. *)
Definition covered (png : PNG) (rs : list (Z * Z * Z * Z)) (x y : Z) : bool :=
  existsb (fun c => inside_rect (norm_corners png c) x y) rs.

(** The corner pairs [_applyBounds] clears, in order. *)
Definition mask_rects (bounds : rect) (ignore : list rect) (png : PNG)
  : list (Z * Z * Z * Z) :=
  (if useBounds bounds then border_rects bounds png else [])
  ++ (ignore_rect <$> ignore).

(** ** Vocabulary for statements about the comparator *)

(** The candidate has the size of the actual image. *)
Definition same_size (imgActual : PNG) (cand : string * PNG) : Prop :=
  width (snd cand) = width imgActual /\ height (snd cand) = height imgActual.

(** What the loop has established about the best match after any number
    of candidates: no recorded mismatch count is below [bestDifference];
    either nothing has beaten the initial value yet, and then there is no
    snapshot and [bestIndex] is still 0, or [bestIndex] is the first
    candidate that has [bestDifference] mismatches, and a snapshot is
    kept. *)
Definition best_inv (total : Z) (st : loop_state) : Prop :=
  (forall j e, results st !! j = Some e -> bestDifference st <= diffPixels e) /\
  ((bestDifference st = total /\ bestIndex st = 0%nat /\ bestImgDiff st = None) \/
   (bestDifference st < total /\ is_Some (bestImgDiff st) /\
    exists e, results st !! bestIndex st = Some e /\
      diffPixels e = bestDifference st /\
      forall j e', (j < bestIndex st)%nat -> results st !! j = Some e' ->
                   bestDifference st < diffPixels e')).

(** The fields of a record that follow from its mismatch count. *)
Definition entry_ok (tol : jsnum) (total ignored : Z) (e : entry) : Prop :=
  totalPixels e = total /\
  relevantPixels e = total - ignored /\
  difference e
  = toFixed4 (js_div (js_mul (Num 100) (js_int (diffPixels e)))
                     (js_int (relevantPixels e))) /\
  match_ e = js_le (difference e) tol.

(** The mismatch count of the record is what the differ returned for the
    masked candidate against the (masked) actual image, and its label is
    the one of the candidate's path. *)
Definition from_differ {args_t : Type}
    (pixelmatch : list Z -> list Z -> list Z -> Z -> Z -> args_t -> Z * list Z)
    (opts : options args_t) (imgActual : PNG) (cand : string * PNG) (e : entry) : Prop :=
  variation e = variation_of (fst cand) /\
  exists out,
    diffPixels e
    = fst (pixelmatch (data (fst (_applyBounds (bounds opts) (ignore opts) (snd cand))))
                      (data imgActual) out (width imgActual) (height imgActual)
                      (args opts)).

(** ** A reference differ for running examples *)

(** The pixel with linear index [p] differs in one of its four channels. *)
Definition pixel_differs (img1 img2 : list Z) (p : Z) : bool :=
  negb (forallb (fun c => bool_decide (byte_at img1 (4 * p + c) = byte_at img2 (4 * p + c)))
                [0; 1; 2; 3]).

(** Counts the pixels that are not byte-for-byte equal and leaves the
    output raster alone: the mismatch count of a differ without colour
    tolerance and without anti-aliasing detection. *)
Definition byte_differ {args_t : Type} (img1 img2 output : list Z) (w h : Z)
    (_ : args_t) : Z * list Z :=
  (countb (pixel_differs img1 img2) (seqZ 0 (w * h)), output).

(** The pixels that are not byte-for-byte equal, counted in one pass
    over both buffers, four bytes at a time, for larger rasters: the
    first [n] pixels are compared, as far as both buffers reach. *)
Fixpoint scan_pixels (n : nat) (img1 img2 : list Z) : Z :=
  match n with
  | O => 0
  | S n' =>
      match img1, img2 with
      | r1 :: g1 :: b1 :: a1 :: rest1, r2 :: g2 :: b2 :: a2 :: rest2 =>
          (if (r1 =? r2) && (g1 =? g2) && (b1 =? b2) && (a1 =? a2) then 0 else 1)
          + scan_pixels n' rest1 rest2
      | _, _ => 0
      end
  end.

Definition scan_differ {args_t : Type} (img1 img2 output : list Z) (w h : Z)
    (_ : args_t) : Z * list Z :=
  (scan_pixels (Z.to_nat (w * h)) img1 img2, output).

(** ** Example inputs *)

(** [n] copies of one RGBA pixel. *)
Definition pixels (n : nat) (r g b a : Z) : list Z :=
  concat (replicate n [r; g; b; a]).

(** A 3 x 2 raster whose first [k] pixels are white and whose other
    pixels are grey, all opaque. *)
Definition strip (k : nat) : PNG :=
  mkPNG 3 2 (pixels k 255 255 255 255 ++ pixels (6 - k) 9 9 9 255).

(** One opaque pixel, black and white. *)
Definition black : PNG := mkPNG 1 1 [0; 0; 0; 255].
Definition white : PNG := mkPNG 1 1 [255; 255; 255; 255].

(** Options without mask and with tolerance 0, for a differ without
    options of its own. *)
Definition plain_options : options unit :=
  mkOptions (Num 0) (mkRect 0 0 0 0) [] tt.

(** A row of 16002 opaque pixels: the first [k] are white, the others
    grey. *)
Definition row (k : nat) : PNG :=
  mkPNG 16002 1
    (pixels k 255 255 255 255 ++ pixels (Z.to_nat 16002 - k) 9 9 9 255).

(** Options that ignore the first two pixels of a row, with the
    tolerance [0.0187]. *)
Definition row_options : options unit :=
  mkOptions (fl (187 # 10000)) (mkRect 0 0 0 0) [mkRect 0 0 2 1] tt.

(** Options that restrict the comparison to the middle column of a
    3 x 2 raster. *)
Definition column_options : options unit :=
  mkOptions (Num 0) (mkRect 1 0 1 2) [] tt.

(** Options that ignore all of a 3 x 2 raster, with the most generous
    tolerance. *)
Definition ignore_all_options : options unit :=
  mkOptions PosInf (mkRect 0 0 0 0) [mkRect 0 0 2 2; mkRect 1 0 2 2] tt.

(** Options that ignore all of a 3 x 2 raster but its last pixel. *)
Definition corner_options : options unit :=
  mkOptions (Num 0) (mkRect 0 0 0 0) [mkRect 0 0 3 1; mkRect 0 1 2 1] tt.

(** The diff file names of an image called ["shot"]. *)
Definition shot_diff_name (i : nat) : string :=
  match i with
  | 0%nat => "Diff_shot.png"
  | 1%nat => "Diff_shot.1.png"
  | 2%nat => "Diff_shot.2.png"
  | _ => "Diff_shot.3.png"
  end.

(** ** Vocabulary for further statements about the comparator *)

(** The snapshot [s] is the diff raster the differ wrote for the
    candidate, in the very call that gave the record its mismatch
    count. *)
Definition snapshot_of {args_t : Type}
    (pixelmatch : list Z -> list Z -> list Z -> Z -> Z -> args_t -> Z * list Z)
    (opts : options args_t) (imgActual : PNG) (cand : string * PNG)
    (e : entry) (s : PNG) : Prop :=
  exists out,
    diffPixels e
    = fst (pixelmatch (data (fst (_applyBounds (bounds opts) (ignore opts) (snd cand))))
                      (data imgActual) out (width imgActual) (height imgActual)
                      (args opts)) /\
    s = mkPNG (width imgActual) (height imgActual)
          (snd (pixelmatch
                  (data (fst (_applyBounds (bounds opts) (ignore opts) (snd cand))))
                  (data imgActual) out (width imgActual) (height imgActual)
                  (args opts))).

(** What the loop keeps about positions, after the candidates [seen]:
    one record per candidate, in order; the diff raster has the size of
    the actual image; the record at position [j] carries the label of the
    [j]-th candidate and, when it does not match and diff images are
    enabled, the diff file name of index [j]; a snapshot, if there is one,
    belongs to the candidate at [bestIndex]. *)
Definition loop_inv {args_t : Type}
    (pixelmatch : list Z -> list Z -> list Z -> Z -> Z -> args_t -> Z * list Z)
    (diffFileName : nat -> string) (opts : options args_t) (diffEnabled : bool)
    (imgActual : PNG) (seen : list (string * PNG)) (st : loop_state) : Prop :=
  length (results st) = length seen /\
  width (imgDiff st) = width imgActual /\
  height (imgDiff st) = height imgActual /\
  (forall j e, results st !! j = Some e ->
     diffImage e = (if negb (match_ e) && diffEnabled
                    then diffFileName j else EmptyString) /\
     exists c, seen !! j = Some c /\ variation e = variation_of (fst c)) /\
  (forall s, bestImgDiff st = Some s ->
     exists c e, seen !! bestIndex st = Some c /\
                 results st !! bestIndex st = Some e /\
                 snapshot_of pixelmatch opts imgActual c e s).

(** ** The constructor's threshold *)

(** The constructor's [globalThreshold]; [config_threshold] is
    [parseFloat(config.threshold)], [None] when the key is undefined. *)
Definition constructor_globalThreshold (config_threshold : option jsnum) : jsnum :=
  match config_threshold with
  | None => Num (5 # 100)
  | Some t => js_min (Num 1) (js_max (Num 0) t)
  end.

(** ** Image and file names: [_setupTest] and [_getFileName] *)

Local Open Scope string_scope.

(** [r] is one or more characters of one line followed by a final
    [".png"]: what [.+\.png$] matches in full. *)
Fixpoint variant_tail (r : string) : bool :=
  match r with
  | EmptyString => false
  | String b r' =>
      negb (line_terminator_at r) && (String.eqb r' ".png" || variant_tail r')
  end.

(** [/(~.+)?\.png$/] matches at the start of [s] (and then to its end). *)
Definition name_match_here (s : string) : bool :=
  match s with
  | EmptyString => false
  | String a r =>
      (Ascii.eqb a "~"%char && variant_tail r) || String.eqb s ".png"
  end.

(** [this.imageName = image.replace(/(~.+)?\.png$/, '')]: the text before
    the leftmost match. *)
Fixpoint imageName_of (image : string) : string :=
  match image with
  | EmptyString => EmptyString
  | String a r =>
      if name_match_here image then EmptyString else String a (imageName_of r)
  end.

(** [s.substr(-4)]. *)
Definition last4 (s : string) : string :=
  substring (String.length s - 4) 4 s.

(** A character of [/[\/\\]/]. *)
Definition is_path_sep (a : ascii) : bool :=
  Ascii.eqb a "/"%char || Ascii.eqb a "\"%char.

(** [s.split(/[\/\\]/)]. *)
Fixpoint split_seps (s : string) : list string :=
  match s with
  | EmptyString => [EmptyString]
  | String a r =>
      if is_path_sep a then EmptyString :: split_seps r
      else match split_seps r with
           | h :: t => String a h :: t
           | [] => [String a EmptyString]
           end
  end.

(** [parts[parts.length - 1] = p + parts[parts.length - 1]]. *)
Fixpoint prefix_last (p : string) (parts : list string) : list string :=
  match parts with
  | [] => []
  | [x] => [String.append p x]
  | x :: rest => x :: prefix_last p rest
  end.

(** [parts.join(sep)]. *)
Fixpoint join (sep : string) (parts : list string) : string :=
  match parts with
  | [] => EmptyString
  | [x] => x
  | x :: rest => String.append x (String.append sep (join sep rest))
  end.

(** [s.replace(/(^\.+|\.+$)/g, '')]: the dots at the start and the dots
    at the end are removed. *)
Fixpoint drop_leading_dots (s : string) : string :=
  match s with
  | String a r => if Ascii.eqb a "."%char then drop_leading_dots r else s
  | EmptyString => EmptyString
  end.

Fixpoint drop_trailing_dots (s : string) : string :=
  match s with
  | EmptyString => EmptyString
  | String a r =>
      let r' := drop_trailing_dots r in
      if Ascii.eqb a "."%char && String.eqb r' "" then EmptyString else String a r'
  end.

Definition strip_dots (s : string) : string :=
  drop_trailing_dots (drop_leading_dots s).

(** What [_getFileName] reads from the helper: [this.options.compareWith],
    [this.imageName], [this.globalDiffPrefix] and [path.sep]. *)
Record naming := mkNaming {
  compareWith : string;
  imageName : string;
  globalDiffPrefix : string;
  path_sep : string
}.

(** [_getFileName(which, suffix)].  [suffix] is the text of the suffix,
    [suffix.toString()]; the empty string stands for every suffix that is
    not truthy (undefined, [''], [0]). *)
Definition _getFileName (env : naming) (which suffix : string) : string :=
  let filename :=
    if String.eqb "expected" which && negb (String.eqb (compareWith env) "")
    then compareWith env else imageName env in
  let filename :=
    if negb (String.eqb ".png" (last4 filename))
    then String.append filename ".png" else filename in
  let filename :=
    if String.eqb "diff" which
    then join (path_sep env)
              (prefix_last (globalDiffPrefix env) (split_seps filename))
    else filename in
  if negb (String.eqb suffix "") then
    String.append (substring 0 (String.length filename - 4) filename)
      (String.append "." (String.append (strip_dots suffix) ".png"))
  else filename.

(** No character of [s] is ['/'] or ['\']. *)
Fixpoint no_sep (s : string) : bool :=
  match s with
  | EmptyString => true
  | String a r => negb (is_path_sep a) && no_sep r
  end.

(** ** [_toBool] *)

(** The values [_toBool] tells apart.  Objects carry an identity, which
    is all [indexOf] compares. *)
Inductive jsval :=
| VUndefined
| VNull
| VBool (b : bool)
| VNum (x : jsnum)
| VStr (s : string)
| VObj (id : nat).

(** [!!v]. *)
Definition truthy (v : jsval) : bool :=
  match v with
  | VUndefined | VNull => false
  | VBool b => b
  | VNum NaN => false
  | VNum (Num q) => negb (Qeq_bool q 0)
  | VNum _ => true
  | VStr s => negb (String.eqb s "")
  | VObj _ => true
  end.

(** [a === b]. *)
Definition strict_eq (a b : jsval) : bool :=
  match a, b with
  | VUndefined, VUndefined | VNull, VNull => true
  | VBool x, VBool y => Bool.eqb x y
  | VNum x, VNum y => js_eq x y
  | VStr x, VStr y => String.eqb x y
  | VObj x, VObj y => Nat.eqb x y
  | _, _ => false
  end.

(** [-1 !== l.indexOf(v)]. *)
Definition found (l : list jsval) (v : jsval) : bool :=
  existsb (fun t => strict_eq t v) l.

(** [toLowerCase] on the letters of ASCII; other characters are kept. *)
Definition lower_ascii (a : ascii) : ascii :=
  let n := nat_of_ascii a in
  if (65 <=? n)%nat && (n <=? 90)%nat then ascii_of_nat (n + 32) else a.

Fixpoint toLowerCase (s : string) : string :=
  match s with
  | EmptyString => EmptyString
  | String a r => String (lower_ascii a) (toLowerCase r)
  end.

(** [-1 !== ['1', 'on', 'y', 'yes', 'true', 'always'].indexOf(s)]. *)
Definition affirmative (s : string) : bool :=
  existsb (String.eqb s) ["1"; "on"; "y"; "yes"; "true"; "always"].

(** [validTerms && Array.isArray(validTerms) && -1 !== validTerms.indexOf(value)]:
    [None] stands for a [validTerms] that is missing or not an array. *)
Definition in_valid_terms (validTerms : option (list jsval)) (value : jsval) : bool :=
  match validTerms with
  | Some l => found l value
  | None => false
  end.

(** [_toBool] of [index.js]. *)
Definition _toBool (value : jsval) (validTerms : option (list jsval)) : jsval :=
  match value with
  | VBool b => value
  | VStr s =>
      if truthy value then VBool (affirmative (toLowerCase s))
      else if in_valid_terms validTerms value then value
      else VBool (truthy value)
  | _ =>
      if in_valid_terms validTerms value then value
      else VBool (truthy value)
  end.

(** [_toBool] of [utils/common.ts], which looks at [validTerms] first. *)
Definition _toBool_common (value : jsval) (validTerms : option (list jsval)) : jsval :=
  if in_valid_terms validTerms value then value
  else
    match value with
    | VBool b => value
    | VStr s =>
        if truthy value then VBool (affirmative (toLowerCase s))
        else VBool (truthy value)
    | _ => VBool (truthy value)
    end.

(** ** [checkVisualDifferences] *)

(** How the promise is settled. *)
Inductive settlement :=
| Resolved (res : comparison)
| Rejected (reason : string).

(** A call of [resolve] or [reject]: only the first one settles the
    promise. *)
Definition settle (p : option settlement) (s : settlement) : option settlement :=
  match p with
  | Some _ => p
  | None => Some s
  end.

(** [this.result] as [_setupTest] resets it. *)
Definition reset_result : comparison :=
  {| scalars := {| diffPixels := 0; totalPixels := 0; relevantPixels := 0;
                   difference := Num 0; match_ := true;
                   variation := ""; diffImage := "" |};
     variations := [];
     savedDiff := None |}.

Section Check.

Variable args_t : Type.
Variable pixelmatch : list Z -> list Z -> list Z -> Z -> Z -> args_t -> Z * list Z.
Variable diffFileName : nat -> string.
Variable opts : options args_t.
Variable diffEnabled : bool.

(** The text of a number in a template literal. *)
Variable show : jsnum -> string.

(** [checkVisualDifferences], from the point where [getVisualDifferences]
    has set up the test: an error of the comparison rejects the promise
    with its message, and the code then goes on with [this.result], which
    is still the reset record. *)
Definition checkVisualDifferences (expectedImages : list (string * PNG))
    (imgActual : PNG) : option settlement :=
  let run := getVisualDifferences args_t pixelmatch diffFileName opts diffEnabled
               expectedImages imgActual in
  let p := match run with
           | Err err => settle None (Rejected err)
           | Ok _ => None
           end in
  let res := match run with
             | Ok res => res
             | Err _ => reset_result
             end in
  if match_ (scalars res) then settle p (Resolved res)
  else
    let msg :=
      String.append "Images are different by "
        (String.append (show (difference (scalars res))) "%")
      :: (if negb (String.eqb (diffImage (scalars res)) "")
          then [String.append "differences are displayed in '"
                  (String.append (diffImage (scalars res)) "'")]
          else []) in
    settle p (Rejected (join " - " msg)).

End Check.

Local Close Scope string_scope.

(** * Proofs *)

(** ** Buffer facts *)

Lemma buffer_fill_four (v k : Z) (d : list Z) :
  0 <= k ->
  buffer_fill v k (k + 4) d =
  <[S (S (S (Z.to_nat k))) := v]>
    (<[S (S (Z.to_nat k)) := v]> (<[S (Z.to_nat k) := v]> (<[Z.to_nat k := v]> d))).
Proof.
  intros Hk. unfold buffer_fill.
  replace (k + 4 - k) with 4 by lia.
  unfold seqZ. change (Z.to_nat 4) with 4%nat. simpl.
  replace (Z.to_nat (Z.of_nat 0 + k)) with (Z.to_nat k) by lia.
  replace (Z.to_nat (Z.of_nat 1 + k)) with (S (Z.to_nat k)) by lia.
  replace (Z.to_nat (Z.of_nat 2 + k)) with (S (S (Z.to_nat k))) by lia.
  replace (Z.to_nat (Z.of_nat 3 + k)) with (S (S (S (Z.to_nat k)))) by lia.
  reflexivity.
Qed.

Lemma length_buffer_fill (v s e : Z) (d : list Z) :
  length (buffer_fill v s e d) = length d.
Proof.
  unfold buffer_fill. generalize (seqZ s (e - s)) as l. intros l. revert d.
  induction l as [|i l IH]; intros d; simpl; [done|].
  rewrite IH. apply length_insert.
Qed.

Lemma byte_at_fill_in (k i : Z) (d : list Z) :
  0 <= k -> k <= i < k + 4 -> i < Z.of_nat (length d) ->
  byte_at (buffer_fill 0 k (k + 4) d) i = Some 0.
Proof.
  intros Hk Hi Hlen. rewrite buffer_fill_four by done. unfold byte_at.
  destruct (Z.ltb_spec i 0); [lia|].
  assert (Z.to_nat i = Z.to_nat k \/ Z.to_nat i = S (Z.to_nat k)
          \/ Z.to_nat i = S (S (Z.to_nat k))
          \/ Z.to_nat i = S (S (S (Z.to_nat k)))) as Hcase by lia.
  assert (Z.to_nat i < length d)%nat by lia.
  destruct Hcase as [E| [E| [E| E]]]; rewrite E.
  - rewrite !list_lookup_insert_ne by lia.
    apply list_lookup_insert_eq. lia.
  - rewrite !list_lookup_insert_ne by lia.
    apply list_lookup_insert_eq. rewrite !length_insert. lia.
  - rewrite !list_lookup_insert_ne by lia.
    apply list_lookup_insert_eq. rewrite !length_insert. lia.
  - apply list_lookup_insert_eq. rewrite !length_insert. lia.
Qed.

Lemma byte_at_fill_out (k i : Z) (d : list Z) :
  0 <= k -> ~ (k <= i < k + 4) ->
  byte_at (buffer_fill 0 k (k + 4) d) i = byte_at d i.
Proof.
  intros Hk Hi. rewrite buffer_fill_four by done. unfold byte_at.
  destruct (Z.ltb_spec i 0); [done|].
  rewrite !list_lookup_insert_ne by lia. done.
Qed.

Lemma byte_at_lt_length (d : list Z) (i : Z) (a : Z) :
  byte_at d i = Some a -> 0 <= i < Z.of_nat (length d).
Proof.
  unfold byte_at. destruct (Z.ltb_spec i 0); [done|].
  intros H'%lookup_lt_Some. lia.
Qed.

Lemma byte_at_in_range (d : list Z) (i : Z) :
  0 <= i < Z.of_nat (length d) -> exists a, byte_at d i = Some a.
Proof.
  intros Hi. unfold byte_at. destruct (Z.ltb_spec i 0); [lia|].
  destruct (lookup_lt_is_Some_2 d (Z.to_nat i)) as [a Ha]; [lia|]. eauto.
Qed.

Lemma byte_at_fill_out_of_range (d : list Z) (i : Z) :
  0 <= i -> Z.of_nat (length d) <= i -> byte_at d i = None.
Proof.
  intros H0 Hi. unfold byte_at. destruct (Z.ltb_spec i 0); [done|].
  apply lookup_ge_None. lia.
Qed.

(** A byte that is zero stays zero under any fill with zero. *)
Lemma byte_at_fill_zero (k i : Z) (d : list Z) :
  0 <= k -> byte_at d i = Some 0 ->
  byte_at (buffer_fill 0 k (k + 4) d) i = Some 0.
Proof.
  intros Hk Hz. destruct (decide (k <= i < k + 4)) as [Hin|Hout].
  - apply byte_at_lt_length in Hz. apply byte_at_fill_in; lia.
  - by rewrite byte_at_fill_out.
Qed.

(** ** Counting *)

Lemma countb_nil {A} (f : A -> bool) : countb f [] = 0.
Proof. reflexivity. Qed.

Lemma countb_cons {A} (f : A -> bool) (a : A) (l : list A) :
  countb f (a :: l) = (if f a then 1 else 0) + countb f l.
Proof. unfold countb. simpl. destruct (f a); simpl; lia. Qed.

Lemma countb_app {A} (f : A -> bool) (l k : list A) :
  countb f (l ++ k) = countb f l + countb f k.
Proof.
  induction l as [|a l IH]; [rewrite countb_nil; simpl; lia|].
  simpl. rewrite !countb_cons, IH. lia.
Qed.

Lemma countb_ext_in {A} (f g : A -> bool) (l : list A) :
  (forall a, a ∈ l -> f a = g a) -> countb f l = countb g l.
Proof.
  induction l as [|a l IH]; intros Hfg; [done|].
  rewrite !countb_cons, IH, (Hfg a); [done|by left|].
  intros b Hb. apply Hfg. by right.
Qed.

Lemma countb_fmap {A B} (f : B -> bool) (g : A -> B) (l : list A) :
  countb f (g <$> l) = countb (fun a => f (g a)) l.
Proof.
  induction l as [|a l IH]; [done|].
  rewrite fmap_cons, !countb_cons, IH. done.
Qed.

Lemma countb_all {A} (f : A -> bool) (l : list A) :
  (forall a, a ∈ l -> f a = true) -> countb f l = Z.of_nat (length l).
Proof.
  induction l as [|a l IH]; intros Hf; [done|].
  rewrite countb_cons, IH, (Hf a); [simpl; lia|by left|].
  intros b Hb. apply Hf. by right.
Qed.

Lemma countb_none {A} (f : A -> bool) (l : list A) :
  (forall a, a ∈ l -> f a = false) -> countb f l = 0.
Proof.
  induction l as [|a l IH]; intros Hf; [done|].
  rewrite countb_cons, IH, (Hf a); [done|by left|].
  intros b Hb. apply Hf. by right.
Qed.

Lemma countb_nonneg {A} (f : A -> bool) (l : list A) : 0 <= countb f l.
Proof. unfold countb. lia. Qed.

(** ** Rectangles as lists of pixels *)

Lemma elem_of_cells (x0 y0 x1 y1 x y : Z) :
  (x, y) ∈ cells x0 y0 x1 y1 <-> x0 <= x < x1 /\ y0 <= y < y1.
Proof.
  unfold cells. rewrite list_elem_of_bind. split.
  - intros (y' & Hx & Hy). apply list_elem_of_fmap in Hx as (x' & Heq & Hx).
    inversion Heq; subst. apply elem_of_seqZ in Hx, Hy. lia.
  - intros [Hx Hy]. exists y. split.
    + apply list_elem_of_fmap. exists x. split; [done|]. apply elem_of_seqZ. lia.
    + apply elem_of_seqZ. lia.
Qed.

Lemma inside_true (x0 y0 x1 y1 x y : Z) :
  inside x0 y0 x1 y1 x y = true <-> x0 <= x < x1 /\ y0 <= y < y1.
Proof. unfold inside. rewrite !andb_true_iff. lia. Qed.

Lemma inside_cells (x0 y0 x1 y1 x y : Z) :
  inside x0 y0 x1 y1 x y = true <-> (x, y) ∈ cells x0 y0 x1 y1.
Proof. by rewrite inside_true, elem_of_cells. Qed.

Lemma NoDup_cells (x0 y0 x1 y1 : Z) : NoDup (cells x0 y0 x1 y1).
Proof.
  unfold cells. apply NoDup_bind.
  - intros ya yb [x y] _ _ Ha Hb.
    apply list_elem_of_fmap in Ha as (? & Ha & _).
    apply list_elem_of_fmap in Hb as (? & Hb & _). congruence.
  - intros y _. apply NoDup_fmap_2; [|apply NoDup_seqZ].
    intros ? ? ?. congruence.
  - apply NoDup_seqZ.
Qed.

Lemma length_cells (x0 y0 x1 y1 : Z) :
  x0 <= x1 -> y0 <= y1 ->
  Z.of_nat (length (cells x0 y0 x1 y1)) = (x1 - x0) * (y1 - y0).
Proof.
  intros Hx Hy. unfold cells.
  assert (forall l : list Z,
    Z.of_nat (length (l ≫= fun y => (fun x => (x, y)) <$> seqZ x0 (x1 - x0)))
    = (x1 - x0) * Z.of_nat (length l)) as Hl.
  { induction l as [|a l IH]; [simpl; lia|].
    rewrite bind_cons, length_app, length_fmap, length_seqZ.
    rewrite Nat2Z.inj_add, IH, Z2Nat.id by lia. simpl length. nia. }
  rewrite Hl, length_seqZ, Z2Nat.id by lia. done.
Qed.

(** The linear pixel index is injective on the columns of the raster. *)
Lemma linear_inj (w x y x' y' : Z) :
  0 <= x < w -> 0 <= x' < w -> x + w * y = x' + w * y' -> x = x' /\ y = y'.
Proof.
  intros Hx Hx' Heq. assert (y = y') by nia. subst. lia.
Qed.

(** ** The clearing loop over linear pixel indices *)

Lemma clear_loop_cells (w x0 y0 x1 y1 : Z) (acc : list Z * Z) :
  clear_loop w x0 y0 x1 y1 acc
  = foldl clear_lin acc (linear w <$> cells x0 y0 x1 y1).
Proof.
  unfold clear_loop, cells. generalize (seqZ y0 (y1 - y0)) as ys.
  intros ys. revert acc. induction ys as [|y ys IH]; intros acc; [done|].
  rewrite bind_cons, fmap_app, foldl_app, <- IH. simpl foldl at 1.
  f_equal. rewrite <- list_fmap_compose, foldl_fmap. reflexivity.
Qed.

Lemma alpha_lin_cleared (d : list Z) (p : Z) :
  0 <= p -> alpha_lin (buffer_fill 0 (4 * p) (4 * p + 4) d) p = false.
Proof.
  intros Hp. unfold alpha_lin.
  destruct (decide (4 * p + 3 < Z.of_nat (length d))) as [Hin|Hout].
  - rewrite byte_at_fill_in by lia. done.
  - rewrite byte_at_fill_out_of_range; [done|lia|].
    rewrite length_buffer_fill. lia.
Qed.

Lemma alpha_lin_other (d : list Z) (p q : Z) :
  0 <= p -> q <> p ->
  alpha_lin (buffer_fill 0 (4 * p) (4 * p + 4) d) q = alpha_lin d q.
Proof.
  intros Hp Hq. unfold alpha_lin. rewrite byte_at_fill_out by lia. done.
Qed.

Lemma clear_lin_fold (ps : list Z) (d : list Z) (c : Z) :
  (forall p, p ∈ ps -> 0 <= p) ->
  let r := foldl clear_lin (d, c) ps in
  length (fst r) = length d /\
  (forall i, (forall p, p ∈ ps -> ~ (4 * p <= i < 4 * p + 4)) ->
             byte_at (fst r) i = byte_at d i) /\
  (forall i, byte_at d i = Some 0 -> byte_at (fst r) i = Some 0) /\
  (forall p i, p ∈ ps -> 4 * p <= i < 4 * p + 4 -> i < Z.of_nat (length d) ->
               byte_at (fst r) i = Some 0) /\
  (NoDup ps -> snd r = c + countb (alpha_lin d) ps).
Proof.
  revert d c. induction ps as [|p ps IH]; intros d c Hpos; simpl.
  { repeat split; try done.
    - intros p i Hp. by apply not_elem_of_nil in Hp.
    - intros _. rewrite countb_nil. lia. }
  assert (0 <= p) as Hp by (apply Hpos; left).
  assert (forall q, q ∈ ps -> 0 <= q) as Hpos' by (intros q Hq; apply Hpos; by right).
  pose (d1 := buffer_fill 0 (4 * p) (4 * p + 4) d).
  pose (c1 := if gt0 (byte_at d (4 * p + 3)) then c + 1 else c).
  change (clear_lin (d, c) p) with (d1, c1).
  destruct (IH d1 c1 Hpos') as (Hlen & Hout & Hzero & Hin & Hcount).
  assert (length d1 = length d) as Hlen1 by apply length_buffer_fill.
  repeat split.
  - congruence.
  - intros i Hi. rewrite Hout.
    + apply byte_at_fill_out; [lia|]. apply Hi. left.
    + intros q Hq. apply Hi. by right.
  - intros i Hi. apply Hzero. apply byte_at_fill_zero; [lia|done].
  - intros q i Hq Hi Hi'. apply elem_of_cons in Hq as [->|Hq].
    + apply Hzero. apply byte_at_fill_in; lia.
    + apply (Hin q); [done..|]. rewrite Hlen1. done.
  - intros [Hnotin Hnd]%NoDup_cons. rewrite Hcount by done.
    rewrite countb_cons. fold (alpha_lin d p). subst c1.
    rewrite (countb_ext_in (alpha_lin d1) (alpha_lin d)).
    + fold (alpha_lin d p). destruct (alpha_lin d p); lia.
    + intros q Hq. apply alpha_lin_other; [done|]. intros ->. done.
Qed.

(** Clearing pixels never counts a pixel twice: over any duplicate-free
    set [L] of pixels that contains the cleared ones, the number of opaque
    pixels that disappear is the number counted. *)
Lemma clear_lin_conserve (L : list Z) (d : list Z) (p : Z) :
  0 <= p -> NoDup L -> p ∈ L ->
  countb (alpha_lin (buffer_fill 0 (4 * p) (4 * p + 4) d)) L
  + (if alpha_lin d p then 1 else 0) = countb (alpha_lin d) L.
Proof.
  intros Hp Hnd Hin. induction L as [|q L IH]; [by apply not_elem_of_nil in Hin|].
  apply NoDup_cons in Hnd as [Hq Hnd]. rewrite !countb_cons.
  destruct (decide (q = p)) as [->|Hne].
  - rewrite alpha_lin_cleared by done.
    rewrite (countb_ext_in _ (alpha_lin d)); [lia|].
    intros r Hr. apply alpha_lin_other; [done|]. intros ->. done.
  - rewrite alpha_lin_other by done.
    apply elem_of_cons in Hin as [->|Hin]; [done|].
    specialize (IH Hnd Hin). lia.
Qed.

Lemma clear_fold_conserve (L ps : list Z) (d : list Z) (c : Z) :
  NoDup L -> (forall p, p ∈ ps -> 0 <= p /\ p ∈ L) ->
  let r := foldl clear_lin (d, c) ps in
  countb (alpha_lin (fst r)) L + snd r = countb (alpha_lin d) L + c.
Proof.
  intros Hnd. revert d c. induction ps as [|p ps IH]; intros d c Hps; simpl; [done|].
  destruct (Hps p) as [Hp HpL]; [by left|].
  change (clear_lin (d, c) p)
    with (buffer_fill 0 (4 * p) (4 * p + 4) d, if alpha_lin d p then c + 1 else c).
  rewrite IH.
  - pose proof (clear_lin_conserve L d p Hp Hnd HpL) as Hc.
    fold (alpha_lin d p). destruct (alpha_lin d p); lia.
  - intros q Hq. apply Hps. by right.
Qed.

(** ** [_clearRect] on a decoded raster *)

Lemma clearRect_norm (png : PNG) (x0 y0 x1 y1 : Z) :
  _clearRect png x0 y0 x1 y1 =
  let '(xa, ya, xb, yb) := norm_rect png x0 y0 x1 y1 in
  if (xa =? xb) || (ya =? yb) then (png, 0)
  else let '(d, count) := clear_loop (width png) xa ya xb yb (data png, 0) in
       (mkPNG (width png) (height png) d, count).
Proof.
  unfold _clearRect, norm_rect, clamp.
  set (a := Z.min (width png) (Z.max 0 x0)).
  set (b := Z.min (width png) (Z.max 0 x1)).
  set (c := Z.min (height png) (Z.max 0 y0)).
  set (e := Z.min (height png) (Z.max 0 y1)).
  destruct (Z.eqb_spec a b) as [Hab|Hab], (Z.eqb_spec c e) as [Hce|Hce]; simpl.
  - destruct (Z.eqb_spec (Z.min a b) (Z.max a b)); [done|lia].
  - destruct (Z.eqb_spec (Z.min a b) (Z.max a b)); [done|lia].
  - destruct (Z.eqb_spec (Z.min a b) (Z.max a b)); [lia|].
    destruct (Z.eqb_spec (Z.min c e) (Z.max c e)); [done|lia].
  - destruct (Z.eqb_spec (Z.min a b) (Z.max a b)); [lia|].
    destruct (Z.eqb_spec (Z.min c e) (Z.max c e)); [lia|]. simpl.
    destruct (Z.ltb_spec b a), (Z.ltb_spec e c);
      rewrite ?(Z.min_l a b), ?(Z.min_r a b), ?(Z.max_l a b), ?(Z.max_r a b),
        ?(Z.min_l c e), ?(Z.min_r c e), ?(Z.max_l c e), ?(Z.max_r c e) by lia;
      reflexivity.
Qed.

Lemma norm_rect_bounds (png : PNG) (x0 y0 x1 y1 xa ya xb yb : Z) :
  wf_png png -> norm_rect png x0 y0 x1 y1 = (xa, ya, xb, yb) ->
  0 <= xa <= xb /\ xb <= width png /\ 0 <= ya <= yb /\ yb <= height png.
Proof.
  intros (Hw & Hh & _). unfold norm_rect, clamp. intros [= <- <- <- <-]. lia.
Qed.

Lemma linear_nonneg (w xa ya xb yb : Z) (p : Z) :
  0 <= w -> 0 <= xa -> 0 <= ya -> p ∈ linear w <$> cells xa ya xb yb -> 0 <= p.
Proof.
  intros Hw Hxa Hya ([x y] & -> & Hc%elem_of_cells)%list_elem_of_fmap.
  unfold linear; simpl. nia.
Qed.

Lemma NoDup_linear_cells (w xa ya xb yb : Z) :
  0 <= xa -> xb <= w -> NoDup (linear w <$> cells xa ya xb yb).
Proof.
  intros Hxa Hxb. apply NoDup_fmap_2_strong; [|apply NoDup_cells].
  intros [x y] [x' y'] Hc%elem_of_cells Hc'%elem_of_cells Heq.
  unfold linear in Heq; simpl in Heq.
  destruct (linear_inj w x y x' y') as [-> ->]; [lia..|done].
Qed.

Lemma linear_cells_sub (w h xa ya xb yb : Z) (p : Z) :
  0 <= xa -> xb <= w -> 0 <= ya -> yb <= h ->
  p ∈ linear w <$> cells xa ya xb yb -> p ∈ linear w <$> cells 0 0 w h.
Proof.
  intros Hxa Hxb Hya Hyb ([x y] & -> & Hc%elem_of_cells)%list_elem_of_fmap.
  apply list_elem_of_fmap. exists (x, y). split; [done|].
  apply elem_of_cells. lia.
Qed.

Lemma opaque_total_linear (png : PNG) :
  opaque_total png
  = countb (alpha_lin (data png))
           (linear (width png) <$> cells 0 0 (width png) (height png)).
Proof. unfold opaque_total, count_opaque. rewrite countb_fmap. reflexivity. Qed.

(** Everything [_clearRect] does to a decoded raster. *)
Lemma clearRect_spec (png : PNG) (x0 y0 x1 y1 : Z) :
  wf_png png ->
  let nr := norm_rect png x0 y0 x1 y1 in
  let r := _clearRect png x0 y0 x1 y1 in
  width (fst r) = width png /\
  height (fst r) = height png /\
  length (data (fst r)) = length (data png) /\
  (forall x y c, 0 <= x < width png -> 0 <= y < height png -> 0 <= c < 4 ->
     channel (fst r) x y c
     = if inside_rect nr x y then Some 0 else channel png x y c) /\
  snd r = count_opaque png (cells_rect nr) /\
  opaque_total png = opaque_total (fst r) + snd r.
Proof.
  intros Hwf nr r. subst r. rewrite clearRect_norm. fold nr.
  destruct nr as [[[xa ya] xb] yb] eqn:Hnr.
  pose proof (norm_rect_bounds png _ _ _ _ _ _ _ _ Hwf Hnr) as (Hxa & Hxb & Hya & Hyb).
  destruct Hwf as (Hw & Hh & Hlen).
  destruct ((xa =? xb) || (ya =? yb)) eqn:Hdeg.
  - (* empty rectangle: nothing happens *)
    assert (cells xa ya xb yb = []) as Hnil.
    { apply elem_of_nil_inv. intros [x y] Hc%elem_of_cells.
      apply orb_true_iff in Hdeg as [Hd|Hd]; apply Z.eqb_eq in Hd; lia. }
    simpl. repeat split; try done.
    + intros x y c Hx Hy Hc. destruct (inside xa ya xb yb x y) eqn:Hin; [|done].
      apply inside_cells in Hin. rewrite Hnil in Hin. by apply elem_of_nil in Hin.
    + by rewrite Hnil.
    + lia.
  - rewrite clear_loop_cells.
    set (ps := linear (width png) <$> cells xa ya xb yb).
    assert (forall p, p ∈ ps -> 0 <= p) as Hpos.
    { intros p Hp. eapply linear_nonneg; [| | |exact Hp]; lia. }
    assert (NoDup ps) as Hnd by (apply NoDup_linear_cells; lia).
    destruct (clear_lin_fold ps (data png) 0 Hpos) as (Hl & Hout & _ & Hin & Hcount).
    pose proof (clear_fold_conserve
                  (linear (width png) <$> cells 0 0 (width png) (height png))
                  ps (data png) 0) as Hcons.
    destruct (foldl clear_lin (data png, 0) ps) as [d c] eqn:Hfold.
    simpl in *. repeat split; try done.
    + intros x y ch Hx Hy Hch. unfold channel; simpl.
      destruct (inside xa ya xb yb x y) eqn:Hi.
      * apply (Hin (x + width png * y)).
        -- apply list_elem_of_fmap. exists (x, y). split; [done|].
           by apply inside_cells.
        -- lia.
        -- nia.
      * apply Hout. intros p ([x' y'] & -> & Hc)%list_elem_of_fmap Hrange.
        unfold linear in Hrange; simpl in Hrange.
        pose proof Hc as Hc'. apply elem_of_cells in Hc'.
        destruct (linear_inj (width png) x y x' y') as [-> ->]; [lia..|].
        apply inside_cells in Hc. congruence.
    + rewrite Hcount by done. unfold count_opaque. subst ps.
      rewrite countb_fmap. simpl. reflexivity.
    + rewrite !opaque_total_linear. simpl.
      enough (countb (alpha_lin d)
                (linear (width png) <$> cells 0 0 (width png) (height png)) + c
              = countb (alpha_lin (data png))
                  (linear (width png) <$> cells 0 0 (width png) (height png)) + 0)
        by lia.
      apply Hcons.
      * apply NoDup_linear_cells; lia.
      * intros p Hp. split; [by apply Hpos|].
        eapply linear_cells_sub; [| | | |exact Hp]; lia.
Qed.

Lemma clearRect_wf (png : PNG) (x0 y0 x1 y1 : Z) :
  wf_png png -> wf_png (fst (_clearRect png x0 y0 x1 y1)).
Proof.
  intros Hwf. destruct (clearRect_spec png x0 y0 x1 y1 Hwf) as (Hw & Hh & Hl & _).
  destruct Hwf as (? & ? & ?). unfold wf_png. rewrite Hw, Hh, Hl. done.
Qed.

Lemma norm_rect_dims (png png' : PNG) (x0 y0 x1 y1 : Z) :
  width png' = width png -> height png' = height png ->
  norm_rect png' x0 y0 x1 y1 = norm_rect png x0 y0 x1 y1.
Proof. unfold norm_rect. by intros -> ->. Qed.

Lemma covered_dims (png png' : PNG) rs (x y : Z) :
  width png' = width png -> height png' = height png ->
  covered png' rs x y = covered png rs x y.
Proof.
  intros Hw Hh. unfold covered. induction rs as [|[[[xa ya] xb] yb] rs IH]; [done|].
  cbn [existsb]. rewrite IH. unfold norm_corners.
  by rewrite (norm_rect_dims png png').
Qed.

Lemma inside_rect_cells (r : Z * Z * Z * Z) (x y : Z) :
  inside_rect r x y = true <-> (x, y) ∈ cells_rect r.
Proof. destruct r as [[[xa ya] xb] yb]. apply inside_cells. Qed.

(** ** [_applyBounds] on a decoded raster *)

Lemma clear_acc_fold (rs : list (Z * Z * Z * Z)) (png : PNG) (c0 : Z) :
  wf_png png ->
  let r := foldl clear_acc (png, c0) rs in
  wf_png (fst r) /\
  width (fst r) = width png /\
  height (fst r) = height png /\
  (forall x y c, 0 <= x < width png -> 0 <= y < height png -> 0 <= c < 4 ->
     channel (fst r) x y c
     = if covered png rs x y then Some 0 else channel png x y c) /\
  opaque_total png + c0 = opaque_total (fst r) + snd r.
Proof.
  revert png c0. induction rs as [|[[[xa ya] xb] yb] rs IH]; intros png c0 Hwf.
  { simpl. split_and!; done. }
  cbn zeta.
  change (foldl clear_acc (png, c0) ((xa, ya, xb, yb) :: rs))
    with (foldl clear_acc (clear_acc (png, c0) (xa, ya, xb, yb)) rs).
  pose proof (clearRect_wf png xa ya xb yb Hwf) as Hwf1.
  destruct (clearRect_spec png xa ya xb yb Hwf) as (Hw & Hh & _ & Hch & _ & Htot).
  unfold clear_acc at 2 4 6 8 10 12. cbn [fst snd].
  destruct (_clearRect png xa ya xb yb) as [png1 n]. cbn [fst snd] in *.
  destruct (IH png1 (c0 + n) Hwf1) as (Hwf' & Hw' & Hh' & Hch' & Htot').
  cbn zeta in *. split_and!; try done; try congruence.
  - intros x y c Hx Hy Hc. rewrite Hch' by congruence.
    rewrite (covered_dims png png1) by done.
    unfold covered. cbn [existsb]. unfold norm_corners at 2.
    rewrite Hch by done.
    destruct (inside_rect (norm_rect png xa ya xb yb) x y); simpl; [|done].
    by destruct (existsb _ rs).
  - lia.
Qed.

Lemma applyBounds_fold (bounds : rect) (ignore : list rect) (png : PNG) :
  _applyBounds bounds ignore png = foldl clear_acc (png, 0) (mask_rects bounds ignore png).
Proof.
  unfold _applyBounds, mask_rects. rewrite foldl_app.
  by destruct (useBounds bounds).
Qed.

Lemma applyBounds_spec (bounds : rect) (ignore : list rect) (png : PNG) :
  wf_png png ->
  let r := _applyBounds bounds ignore png in
  wf_png (fst r) /\
  width (fst r) = width png /\
  height (fst r) = height png /\
  (forall x y c, 0 <= x < width png -> 0 <= y < height png -> 0 <= c < 4 ->
     channel (fst r) x y c
     = if covered png (mask_rects bounds ignore png) x y
       then Some 0 else channel png x y c) /\
  opaque_total png = opaque_total (fst r) + snd r.
Proof.
  intros Hwf. rewrite applyBounds_fold.
  destruct (clear_acc_fold (mask_rects bounds ignore png) png 0 Hwf)
    as (? & ? & ? & ? & Htot).
  split_and!; try done. cbn zeta in Htot. lia.
Qed.

Lemma countb_split {A} (f g : A -> bool) (l : list A) :
  countb f l = countb (fun a => f a && g a) l + countb (fun a => f a && negb (g a)) l.
Proof.
  induction l as [|a l IH]; [done|].
  rewrite !countb_cons, IH. destruct (f a), (g a); simpl; lia.
Qed.

Lemma opaque_after_mask (png png' : PNG) (rs : list (Z * Z * Z * Z)) (x y : Z) :
  width png' = width png ->
  0 <= x < width png -> 0 <= y < height png ->
  (forall c, 0 <= c < 4 ->
     channel png' x y c = if covered png rs x y then Some 0 else channel png x y c) ->
  opaque png' x y = opaque png x y && negb (covered png rs x y).
Proof.
  intros Hw Hx Hy Hch. unfold opaque. rewrite Hch by lia.
  destruct (covered png rs x y); simpl; [|by rewrite andb_true_r].
  by rewrite andb_false_r.
Qed.

Lemma clearRect_second_count (png : PNG) (x0 y0 x1 y1 xa ya xb yb : Z) :
  wf_png png ->
  snd (_clearRect (fst (_clearRect png x0 y0 x1 y1)) xa ya xb yb)
  = countb (fun c => opaque png (fst c) (snd c)
                     && negb (inside_rect (norm_rect png x0 y0 x1 y1) (fst c) (snd c)))
           (cells_rect (norm_rect png xa ya xb yb)).
Proof.
  intros Hwf.
  destruct (clearRect_spec png x0 y0 x1 y1 Hwf) as (Hw & Hh & _ & Hch & _ & _).
  pose proof (clearRect_wf png x0 y0 x1 y1 Hwf) as Hwf1.
  destruct (clearRect_spec _ xa ya xb yb Hwf1) as (_ & _ & _ & _ & Hc & _).
  rewrite Hc, (norm_rect_dims png) by done.
  unfold count_opaque. apply countb_ext_in. intros [x y] Hin. cbn [fst snd].
  destruct (norm_rect png xa ya xb yb) as [[[xa' ya'] xb'] yb'] eqn:Hn.
  pose proof (norm_rect_bounds png _ _ _ _ _ _ _ _ Hwf Hn) as (? & ? & ? & ?).
  apply elem_of_cells in Hin. unfold opaque. rewrite Hch by lia.
  destruct (inside_rect _ x y); simpl; [by rewrite andb_false_r|by rewrite andb_true_r].
Qed.

Lemma applyBounds_count (b : rect) (ign : list rect) (png : PNG) :
  wf_png png ->
  snd (_applyBounds b ign png)
  = countb (fun c => opaque png (fst c) (snd c)
                     && covered png (mask_rects b ign png) (fst c) (snd c))
           (cells 0 0 (width png) (height png)).
Proof.
  intros Hwf.
  destruct (applyBounds_spec b ign png Hwf) as (_ & Hw' & Hh' & Hch' & Htot).
  set (masked := _applyBounds b ign png) in *.
  enough (opaque_total (fst masked)
          = countb (fun c => opaque png (fst c) (snd c)
                     && negb (covered png (mask_rects b ign png) (fst c) (snd c)))
              (cells 0 0 (width png) (height png))) as Hrest.
  { unfold opaque_total at 1, count_opaque in Htot.
    rewrite (countb_split _
               (fun c => covered png (mask_rects b ign png) (fst c) (snd c))) in Htot.
    lia. }
  unfold opaque_total, count_opaque. rewrite Hw', Hh'.
  apply countb_ext_in. intros [x y] Hin%elem_of_cells. cbn [fst snd].
  apply opaque_after_mask; [done|lia|lia|]. intros c Hc. apply Hch'; lia.
Qed.

(** ** Counting whole rasters *)

Lemma countb_le_length {A} (f : A -> bool) (l : list A) :
  countb f l <= Z.of_nat (length l).
Proof.
  induction l as [|a l IH]; [done|].
  rewrite countb_cons. simpl length. destruct (f a); lia.
Qed.

Lemma countb_full {A} (f : A -> bool) (l : list A) :
  countb f l = Z.of_nat (length l) -> forall a, a ∈ l -> f a = true.
Proof.
  induction l as [|b l IH]; intros Hc a Ha; [by apply elem_of_nil in Ha|].
  rewrite countb_cons in Hc. simpl length in Hc.
  pose proof (countb_le_length f l) as Hle.
  apply elem_of_cons in Ha as [->|Ha].
  - destruct (f b); [done|lia].
  - apply IH; [|done]. destruct (f b); lia.
Qed.

Lemma elem_of_List_filter {A} (f : A -> bool) (l : list A) (a : A) :
  a ∈ List.filter f l <-> a ∈ l /\ f a = true.
Proof. rewrite !list_elem_of_In. apply List.filter_In. Qed.

Lemma NoDup_List_filter {A} (f : A -> bool) (l : list A) :
  NoDup l -> NoDup (List.filter f l).
Proof.
  induction 1 as [|a l Ha Hnd IH]; simpl; [constructor|].
  destruct (f a); [|done]. constructor; [|done].
  rewrite elem_of_List_filter. tauto.
Qed.

(** Counting a duplicate-free list by the duplicate-free list of the
    elements counted. *)
Lemma countb_NoDup {A} (f : A -> bool) (l k : list A) :
  NoDup l -> NoDup k -> (forall a, a ∈ k <-> a ∈ l /\ f a = true) ->
  countb f l = Z.of_nat (length k).
Proof.
  intros Hl Hk Hiff. unfold countb. f_equal. apply Permutation_length.
  apply NoDup_Permutation; [by apply NoDup_List_filter|done|].
  intros a. by rewrite elem_of_List_filter, Hiff.
Qed.

(** The number of pixels of a raster that lie in a rectangle inside it. *)
Lemma countb_inside (w h xa ya xb yb : Z) :
  0 <= xa <= xb -> xb <= w -> 0 <= ya <= yb -> yb <= h ->
  countb (fun c => inside xa ya xb yb (fst c) (snd c)) (cells 0 0 w h)
  = (xb - xa) * (yb - ya).
Proof.
  intros Hx Hxw Hy Hyh. rewrite <- length_cells by lia.
  apply countb_NoDup; [apply NoDup_cells..|].
  intros [x y]. cbn [fst snd]. rewrite inside_true, !elem_of_cells. lia.
Qed.

(** Two decoded rasters of one size with the same channels everywhere
    have the same buffer. *)
Lemma data_ext (png png' : PNG) :
  wf_png png -> wf_png png' ->
  width png' = width png -> height png' = height png ->
  (forall x y c, 0 <= x < width png -> 0 <= y < height png -> 0 <= c < 4 ->
     channel png' x y c = channel png x y c) ->
  data png' = data png.
Proof.
  intros (Hw & Hh & Hlen) (_ & _ & Hlen') Hweq Hheq Hch.
  rewrite Hweq, Hheq in Hlen'.
  apply (list_eq_same_length _ _ (length (data png))); [done|lia|].
  intros i a b Hi Ha Hb.
  set (iz := Z.of_nat i). set (p := iz / 4).
  assert (0 <= iz < 4 * (width png * height png)) as Hiz by lia.
  assert (0 < width png) as Hwpos by nia.
  assert (0 <= p < width png * height png) as Hp
    by (unfold p; split; [apply Z.div_pos; lia|apply Z.div_lt_upper_bound; lia]).
  pose proof (Z.div_mod iz 4 ltac:(lia)) as Hdm4.
  pose proof (Z.mod_pos_bound iz 4 ltac:(lia)) as Hm4.
  pose proof (Z.div_mod p (width png) ltac:(lia)) as Hdmw.
  pose proof (Z.mod_pos_bound p (width png) Hwpos) as Hmw.
  assert (0 <= p / width png < height png) as Hrow
    by (split; [apply Z.div_pos; lia|apply Z.div_lt_upper_bound; lia]).
  specialize (Hch (p mod width png) (p / width png) (iz mod 4) Hmw Hrow Hm4).
  unfold channel in Hch. rewrite Hweq in Hch.
  replace (4 * (p mod width png + width png * (p / width png)) + iz mod 4)
    with iz in Hch by (fold p in Hdm4; lia).
  unfold byte_at in Hch. destruct (Z.ltb_spec iz 0); [lia|].
  unfold iz in Hch. rewrite Nat2Z.id in Hch. congruence.
Qed.

Lemma mask_rects_dims (b : rect) (ign : list rect) (png png' : PNG) :
  width png' = width png -> height png' = height png ->
  mask_rects b ign png' = mask_rects b ign png.
Proof. unfold mask_rects, border_rects. by intros -> ->. Qed.

(** When the mask covers the whole raster, the masked candidate and the
    masked actual image have the same buffer. *)
Lemma fully_covered_same_data (b : rect) (ign : list rect) (img imgActual : PNG) :
  wf_png img -> wf_png imgActual ->
  width img = width imgActual -> height img = height imgActual ->
  (forall x y, 0 <= x < width imgActual -> 0 <= y < height imgActual ->
     covered imgActual (mask_rects b ign imgActual) x y = true) ->
  data (fst (_applyBounds b ign img)) = data (fst (_applyBounds b ign imgActual)).
Proof.
  intros Hwf Hwfa Hw Hh Hcov.
  destruct (applyBounds_spec b ign img Hwf) as (Hwf' & Hw' & Hh' & Hch' & _).
  destruct (applyBounds_spec b ign imgActual Hwfa) as (Hwfa' & Hwa' & Hha' & Hcha' & _).
  apply data_ext; [done|done|congruence|congruence|].
  intros x y c Hx Hy Hc. rewrite Hwa' in Hx. rewrite Hha' in Hy.
  rewrite Hcha' by done. rewrite Hch' by (rewrite ?Hw, ?Hh; done).
  rewrite (mask_rects_dims b ign imgActual img) by done.
  rewrite (covered_dims imgActual img) by done.
  by rewrite Hcov.
Qed.

(** The mask covers every pixel once the cleared count is the number of
    pixels. *)
Lemma all_cleared_all_covered (b : rect) (ign : list rect) (png : PNG) :
  wf_png png ->
  snd (_applyBounds b ign png) = width png * height png ->
  forall x y, 0 <= x < width png -> 0 <= y < height png ->
    covered png (mask_rects b ign png) x y = true.
Proof.
  intros Hwf Hall x y Hx Hy.
  rewrite applyBounds_count in Hall by done.
  destruct Hwf as (Hw & Hh & _).
  rewrite <- (Z.sub_0_r (width png)), <- (Z.sub_0_r (height png)) in Hall at 2.
  rewrite <- length_cells in Hall by lia.
  pose proof (countb_full _ _ Hall (x, y)) as Hxy. cbn [fst snd] in Hxy.
  apply andb_true_iff in Hxy as [_ Hc]; [done|].
  apply elem_of_cells. lia.
Qed.

(** ** The bounding box and its four strips *)

Ltac split_inside :=
  repeat match goal with
  | |- context [inside ?a ?b ?c ?d ?x ?y] =>
      let H := fresh "Hin" in
      destruct (inside a b c d x y) eqn:H;
      [apply inside_true in H
      |apply not_true_iff_false in H; rewrite inside_true in H]
  end.

Lemma border_rects_tile (b : rect) (png : PNG) (x y : Z) :
  0 <= r_left b -> 0 <= r_top b -> 0 <= r_width b -> 0 <= r_height b ->
  r_left b + r_width b <= width png -> r_top b + r_height b <= height png ->
  0 <= x < width png -> 0 <= y < height png ->
  countb (fun rc => inside_rect rc x y) (border_rects b png)
  = if inside (r_left b) (r_top b) (r_left b + r_width b) (r_top b + r_height b) x y
    then 0 else 1.
Proof.
  intros. unfold border_rects. rewrite !countb_cons, countb_nil.
  cbn [inside_rect]. split_inside; lia.
Qed.

Lemma border_rects_norm (b : rect) (png : PNG) :
  0 <= r_left b -> 0 <= r_top b -> 0 <= r_width b -> 0 <= r_height b ->
  r_left b + r_width b <= width png -> r_top b + r_height b <= height png ->
  norm_corners png <$> border_rects b png = border_rects b png.
Proof.
  intros. unfold border_rects. cbn [fmap list_fmap norm_corners].
  unfold norm_rect, clamp.
  repeat (f_equal; try (f_equal; lia)).
Qed.

Lemma covered_norm (png : PNG) (rs : list (Z * Z * Z * Z)) (x y : Z) :
  norm_corners png <$> rs = rs ->
  covered png rs x y = existsb (fun c => inside_rect c x y) rs.
Proof.
  unfold covered. induction rs as [|c rs IH]; [done|].
  rewrite fmap_cons. intros [= Hc Hrs]. cbn [existsb]. by rewrite Hc, IH.
Qed.

Lemma covered_border_rects (b : rect) (png : PNG) (x y : Z) :
  0 <= r_left b -> 0 <= r_top b -> 0 <= r_width b -> 0 <= r_height b ->
  r_left b + r_width b <= width png -> r_top b + r_height b <= height png ->
  0 <= x < width png -> 0 <= y < height png ->
  covered png (border_rects b png) x y
  = negb (inside (r_left b) (r_top b) (r_left b + r_width b) (r_top b + r_height b) x y).
Proof.
  intros. rewrite covered_norm by (by apply border_rects_norm).
  unfold border_rects. cbn [existsb inside_rect]. split_inside; simpl; try done; lia.
Qed.

(** ** The mask engine: claims *)

(** C5. On a decoded raster and for all integer corners, in either order
    and possibly out of range, [_clearRect] works on the rectangle whose
    corners are clamped into [[0, width]] x [[0, height]] and ordered by
    min/max: an empty rectangle leaves the raster alone and returns 0;
    otherwise the four channels of exactly the pixels of
    [[xa,xb) x [ya,yb)] become 0, every other pixel keeps its channels,
    the raster keeps its size, and the result is the number of pixels of
    the rectangle whose alpha was [> 0] before. *)
Theorem clearRect_clamps_clears_counts (png : PNG) (x0 y0 x1 y1 : Z) :
  wf_png png ->
  let cx0 := clamp (width png) x0 in
  let cx1 := clamp (width png) x1 in
  let cy0 := clamp (height png) y0 in
  let cy1 := clamp (height png) y1 in
  let xa := Z.min cx0 cx1 in
  let xb := Z.max cx0 cx1 in
  let ya := Z.min cy0 cy1 in
  let yb := Z.max cy0 cy1 in
  let r := _clearRect png x0 y0 x1 y1 in
  (0 <= cx0 <= width png /\ 0 <= cx1 <= width png /\
   0 <= cy0 <= height png /\ 0 <= cy1 <= height png) /\
  (xa = xb \/ ya = yb -> r = (png, 0)) /\
  width (fst r) = width png /\
  height (fst r) = height png /\
  length (data (fst r)) = length (data png) /\
  (forall x y c, 0 <= x < width png -> 0 <= y < height png -> 0 <= c < 4 ->
     channel (fst r) x y c
     = if inside xa ya xb yb x y then Some 0 else channel png x y c) /\
  snd r = count_opaque png (cells xa ya xb yb).
Proof.
  intros Hwf cx0 cx1 cy0 cy1 xa xb ya yb r.
  destruct (clearRect_spec png x0 y0 x1 y1 Hwf) as (Hw & Hh & Hl & Hch & Hc & _).
  destruct Hwf as (Hw0 & Hh0 & _).
  split; [unfold cx0, cx1, cy0, cy1, clamp; lia|].
  split.
  { intros Hdeg. unfold r. rewrite clearRect_norm. unfold norm_rect.
    fold cx0 cx1 cy0 cy1. fold xa xb ya yb.
    destruct Hdeg as [Hd|Hd]; rewrite Hd, Z.eqb_refl; [done|by rewrite orb_true_r]. }
  split; [exact Hw|]. split; [exact Hh|]. split; [exact Hl|].
  split; [exact Hch|exact Hc].
Qed.

(** C6. Clearing counts every pixel at most once.  On a decoded raster,
    a second clear of the same rectangle returns 0; a clear of any other
    rectangle after a first one counts exactly the pixels that were opaque
    and lie outside the first rectangle; and the total [_applyBounds]
    returns is the number of pixels that were opaque and lie in at least
    one cleared rectangle, however the rectangles overlap, which is the
    number of opaque pixels the raster has lost. *)
Theorem clear_counts_each_pixel_once
    (png : PNG) (x0 y0 x1 y1 x0' y0' x1' y1' : Z) (b : rect) (ign : list rect) :
  wf_png png ->
  let first := _clearRect png x0 y0 x1 y1 in
  let masked := _applyBounds b ign png in
  snd (_clearRect (fst first) x0 y0 x1 y1) = 0 /\
  snd (_clearRect (fst first) x0' y0' x1' y1')
  = countb (fun c => opaque png (fst c) (snd c)
                     && negb (inside_rect (norm_rect png x0 y0 x1 y1) (fst c) (snd c)))
           (cells_rect (norm_rect png x0' y0' x1' y1')) /\
  snd masked
  = countb (fun c => opaque png (fst c) (snd c)
                     && covered png (mask_rects b ign png) (fst c) (snd c))
           (cells 0 0 (width png) (height png)) /\
  opaque_total png = opaque_total (fst masked) + snd masked.
Proof.
  intros Hwf first masked. split_and!.
  - unfold first. rewrite clearRect_second_count by done.
    apply countb_none. intros [x y] Hin. cbn [fst snd].
    apply inside_rect_cells in Hin. rewrite Hin. simpl. apply andb_false_r.
  - by apply clearRect_second_count.
  - by apply applyBounds_count.
  - by destruct (applyBounds_spec b ign png Hwf) as (_ & _ & _ & _ & Htot).
Qed.

Lemma mask_count_range (b : rect) (ign : list rect) (png : PNG) :
  wf_png png ->
  0 <= snd (_applyBounds b ign png) <= width png * height png /\
  ((forall x y, 0 <= x < width png -> 0 <= y < height png -> opaque png x y = true) ->
   width png * height png - snd (_applyBounds b ign png)
   = countb (fun c => negb (covered png (mask_rects b ign png) (fst c) (snd c)))
            (cells 0 0 (width png) (height png))).
Proof.
  intros Hwf. rewrite applyBounds_count by done. destruct Hwf as (Hw & Hh & _).
  pose proof (length_cells 0 0 (width png) (height png) Hw Hh) as Hlen.
  rewrite !Z.sub_0_r in Hlen.
  split.
  - split; [apply countb_nonneg|]. rewrite <- Hlen. apply countb_le_length.
  - intros Hopaque.
    pose proof (countb_split (fun _ : Z * Z => true)
                  (fun c => covered png (mask_rects b ign png) (fst c) (snd c))
                  (cells 0 0 (width png) (height png))) as Hsplit.
    rewrite countb_all, Hlen in Hsplit by done. cbn [andb] in Hsplit.
    rewrite (countb_ext_in _
               (fun c => covered png (mask_rects b ign png) (fst c) (snd c))).
    + lia.
    + intros [x y] Hin%elem_of_cells. cbn [fst snd]. rewrite Hopaque by lia. done.
Qed.

(** ** Rounding and comparing percentages *)

Lemma round_even_near (q : Q) :
  (inject_Z (round_even q) - (1 # 2) <= q /\ q <= inject_Z (round_even q) + (1 # 2))%Q.
Proof.
  unfold round_even.
  pose proof (Qfloor_le q) as H1. pose proof (Qlt_floor q) as H2.
  set (f := Qfloor q) in *.
  rewrite inject_Z_plus in H2. change (inject_Z 1) with 1%Q in H2.
  destruct (Qcompare_spec (q - inject_Z f) (1 # 2)) as [He|Hl|Hg].
  - destruct (Z.even f); rewrite ?inject_Z_plus; change (inject_Z 1) with 1%Q; lra.
  - lra.
  - rewrite inject_Z_plus. change (inject_Z 1) with 1%Q. lra.
Qed.

Lemma round_even_nonneg (q : Q) : (0 <= q)%Q -> 0 <= round_even q.
Proof.
  intros Hq. assert (0 <= Qfloor q) as Hf.
  { change 0 with (Qfloor 0). by apply Qfloor_resp_le. }
  unfold round_even. destruct (_ ?= _)%Q; [destruct (Z.even _)|..]; lia.
Qed.

Lemma round_even_int (q : Q) (z : Z) : (q == inject_Z z)%Q -> round_even q = z.
Proof.
  intros Hq. unfold round_even.
  assert (Qfloor q = z) as -> by (rewrite Hq; apply Qfloor_Z).
  destruct (Qcompare_spec (q - inject_Z z) (1 # 2)) as [He|Hl|Hg]; [lra|done|lra].
Qed.

Lemma two_power_pos (k : Z) : (0 < 2 ^ k)%Q.
Proof. by apply Qpower_0_lt. Qed.

Lemma ilog2_le (q : Q) : (0 < q)%Q -> (2 ^ ilog2 q <= q)%Q.
Proof.
  intros Hq. unfold ilog2.
  set (k := Z.log2 (Qnum q) - Z.log2 (Z.pos (Qden q))).
  destruct (Qle_bool (2 ^ k) q) eqn:Hle; [by apply Qle_bool_iff|].
  destruct q as [n d]. cbn [Qnum Qden] in k.
  assert (0 < n) as Hn by (unfold Qlt in Hq; simpl in Hq; lia).
  destruct (Z.log2_spec n Hn) as [Ha _].
  destruct (Z.log2_spec (Z.pos d) ltac:(lia)) as [_ Hb].
  pose proof (Z.log2_nonneg n) as Ha0. pose proof (Z.log2_nonneg (Z.pos d)) as Hb0.
  set (a := Z.log2 n) in *. set (b := Z.log2 (Z.pos d)) in *.
  replace (k - 1) with (a - Z.succ b) by (unfold k; lia).
  rewrite Qpower_minus by done.
  rewrite <- (Zpower_Qpower 2 a), <- (Zpower_Qpower 2 (Z.succ b)) by lia.
  rewrite (Qmake_Qdiv n d).
  apply Qle_shift_div_l.
  { change 0%Q with (inject_Z 0). rewrite <- Zlt_Qlt. lia. }
  unfold Qdiv. rewrite <- Qmult_assoc, (Qmult_comm (/ _)), Qmult_assoc.
  apply Qle_shift_div_r.
  { change 0%Q with (inject_Z 0). rewrite <- Zlt_Qlt. lia. }
  rewrite <- !inject_Z_mult, <- Zle_Qle. nia.
Qed.

Lemma ilog2_lt (q : Q) : (0 < q)%Q -> (q < 2 ^ (ilog2 q + 1))%Q.
Proof.
  intros Hq. unfold ilog2.
  set (k := Z.log2 (Qnum q) - Z.log2 (Z.pos (Qden q))).
  destruct (Qle_bool (2 ^ k) q) eqn:Hle.
  - destruct q as [n d]. cbn [Qnum Qden] in k.
    assert (0 < n) as Hn by (unfold Qlt in Hq; simpl in Hq; lia).
    destruct (Z.log2_spec n Hn) as [_ Ha].
    destruct (Z.log2_spec (Z.pos d) ltac:(lia)) as [Hb _].
    pose proof (Z.log2_nonneg n) as Ha0. pose proof (Z.log2_nonneg (Z.pos d)) as Hb0.
    set (a := Z.log2 n) in *. set (b := Z.log2 (Z.pos d)) in *.
    replace (k + 1) with (Z.succ a - b) by (unfold k; lia).
    rewrite Qpower_minus by done.
    rewrite <- (Zpower_Qpower 2 (Z.succ a)), <- (Zpower_Qpower 2 b) by lia.
    rewrite (Qmake_Qdiv n d).
    assert (0 < inject_Z (2 ^ b))%Q as Hb'.
    { change 0%Q with (inject_Z 0). rewrite <- Zlt_Qlt. lia. }
    apply Qlt_shift_div_l; [exact Hb'|].
    unfold Qdiv. rewrite <- Qmult_assoc, (Qmult_comm (/ _)), Qmult_assoc.
    apply Qlt_shift_div_r.
    { change 0%Q with (inject_Z 0). rewrite <- Zlt_Qlt. lia. }
    rewrite <- !inject_Z_mult, <- Zlt_Qlt. nia.
  - replace (k - 1 + 1) with k by lia.
    apply Qnot_le_lt. intros H%Qle_bool_iff. congruence.
Qed.

(** Rounding at known values: [0.1] and [1/3] as binary64 has them, the
    tie below the smallest subnormal, and the first integer that is not
    kept. *)
Example fl_known_values :
  js_eq (fl (1 # 10)) (Num (3602879701896397 * 2 ^ (-55))) = true /\
  js_eq (fl (1 # 3)) (Num (6004799503160661 * 2 ^ (-54))) = true /\
  js_eq (fl (2 ^ (-1075))) (Num 0) = true /\
  js_eq (fl 9007199254740993) (Num 9007199254740992) = true /\
  fl (2 ^ 1024 - 2 ^ 970) = PosInf.
Proof. split_and!; vm_compute; reflexivity. Qed.

Lemma fl_pos (q : Q) :
  (0 < q)%Q ->
  fl q = if Qle_bool (2 ^ 1024) (fl_abs q) then PosInf else Num (fl_abs q).
Proof.
  intros Hq. unfold fl.
  destruct (Qeq_bool q 0) eqn:Hz; [apply Qeq_bool_iff in Hz; lra|].
  assert (Qle_bool 0 q = true) as -> by (apply Qle_bool_iff; lra).
  destruct q as [[|p|p] d]; try (by unfold Qlt in Hq; simpl in Hq; lia).
  reflexivity.
Qed.

(** What rounding a positive number does: the result is a multiple
    [m * 2^u] of the unit [2^u] of its binade. *)
Lemma fl_abs_spec (a : Q) :
  (0 < a)%Q ->
  exists u : Z,
    fl_abs a = (inject_Z (round_even (a / 2 ^ u)) * 2 ^ u)%Q /\
    -1074 <= u /\ (u = -1074 \/ (2 ^ (u + 52) <= a)%Q).
Proof.
  intros Ha. exists (Z.max (ilog2 a - 52) (-1074)). split; [done|]. split; [lia|].
  destruct (Z.max_spec (ilog2 a - 52) (-1074)) as [[_ ->]|[_ ->]]; [by left|right].
  replace (ilog2 a - 52 + 52) with (ilog2 a) by lia. by apply ilog2_le.
Qed.

Lemma fl_abs_near (a : Q) :
  (0 < a)%Q ->
  exists u : Z,
    -1074 <= u /\ (u = -1074 \/ (2 ^ u * 2 ^ 52 <= a)%Q) /\
    (0 <= fl_abs a)%Q /\
    (fl_abs a - 2 ^ u * (1 # 2) <= a /\ a <= fl_abs a + 2 ^ u * (1 # 2))%Q /\
    (forall z : Z, u <= 0 -> (a == inject_Z z)%Q -> (fl_abs a == a)%Q).
Proof.
  intros Ha. destruct (fl_abs_spec a Ha) as (u & -> & Hu & Hbin).
  exists u. split; [done|]. split.
  { destruct Hbin as [->|Hbin]; [by left|right]. by rewrite <- Qpower_plus. }
  pose proof (two_power_pos u) as HU. set (U := (2 ^ u)%Q) in *.
  assert (a / U * U == a)%Q as Hy by (field; lra).
  set (y := (a / U)%Q) in *.
  assert (0 <= y)%Q as Hy0.
  { unfold y. apply Qle_shift_div_l; [done|]. lra. }
  pose proof (round_even_near y) as [Hn1 Hn2].
  pose proof (round_even_nonneg y Hy0) as Hm.
  set (m := round_even y) in *.
  assert (0 <= inject_Z m)%Q as Hm' by (change 0%Q with (inject_Z 0); by rewrite <- Zle_Qle).
  assert (inject_Z m * U - U * (1 # 2) <= a)%Q as Hlo.
  { rewrite <- Hy.
    assert (inject_Z m * U - U * (1 # 2) == (inject_Z m - (1 # 2)) * U)%Q as -> by ring.
    apply Qmult_le_compat_r; lra. }
  assert (a <= inject_Z m * U + U * (1 # 2))%Q as Hhi.
  { rewrite <- Hy.
    assert (inject_Z m * U + U * (1 # 2) == (inject_Z m + (1 # 2)) * U)%Q as -> by ring.
    apply Qmult_le_compat_r; lra. }
  split_and!.
  - apply Qmult_le_0_compat; lra.
  - exact Hlo.
  - exact Hhi.
  - intros z Hu0 Hz. subst m.
    assert (y == inject_Z (z * 2 ^ (- u)))%Q as Hyz.
    { unfold y, U. rewrite Hz, inject_Z_mult, Zpower_Qpower by lia.
      rewrite Qpower_opp. change (inject_Z 2) with 2%Q. reflexivity. }
    rewrite (round_even_int y _ Hyz). rewrite <- Hyz. exact Hy.
Qed.

Lemma two_power_le_1 (u : Z) : u <= 0 -> (2 ^ u <= 1)%Q.
Proof.
  intros Hu. change 1%Q with (2 ^ 0)%Q. by apply Qpower_le_compat_l.
Qed.

Lemma two_power_ge_1 (u : Z) : 0 <= u -> (1 <= 2 ^ u)%Q.
Proof.
  intros Hu. change 1%Q with (2 ^ 0)%Q. by apply Qpower_le_compat_l.
Qed.

(** Rounding a positive number that is not huge: the result [y] is
    finite and at most half a unit [2^u] away, where the unit is the
    smallest one, [2^-1074], or at most [a / 2^52]; an integer is kept as
    it is when the unit is at most 1. *)
Lemma fl_pos_spec (a : Q) :
  (0 < a)%Q -> (a <= 2 ^ 1000)%Q ->
  exists (y : Q) (u : Z),
    fl a = Num y /\ (0 <= y)%Q /\
    -1074 <= u /\ (u = -1074 \/ (2 ^ u * 2 ^ 52 <= a)%Q) /\
    (y - 2 ^ u * (1 # 2) <= a /\ a <= y + 2 ^ u * (1 # 2))%Q /\
    (forall z : Z, u <= 0 -> (a == inject_Z z)%Q -> (y == a)%Q).
Proof.
  intros Ha Hbig.
  destruct (fl_abs_near a Ha) as (u & Hu & Hbin & Hy0 & [Hlo Hhi] & Hint).
  exists (fl_abs a), u. split_and!; try done.
  rewrite fl_pos by done.
  destruct (Qle_bool (2 ^ 1024) (fl_abs a)) eqn:Hover; [|done].
  apply Qle_bool_iff in Hover. exfalso.
  pose proof (two_power_pos u) as HU.
  assert (2 ^ u <= 2 ^ 1000)%Q as HU'.
  { destruct Hbin as [->|Hbin]; [by apply Qpower_le_compat_l|].
    pose proof (two_power_ge_1 52 ltac:(lia)) as H52.
    assert (2 ^ u * 1 <= 2 ^ u * 2 ^ 52)%Q by (apply Qmult_le_l; done).
    lra. }
  assert (2 * 2 ^ 1000 < 2 ^ 1024)%Q as Hc by reflexivity.
  set (T := (2 ^ 1000)%Q) in *. set (U := (2 ^ u)%Q) in *. lra.
Qed.

Lemma fl_zero (q : Q) : (q == 0)%Q -> fl q = Num 0.
Proof. intros Hq. unfold fl. by apply Qeq_bool_iff in Hq as ->. Qed.

(** An integer of at most 53 bits is a double. *)
Lemma fl_int (q : Q) (z : Z) :
  0 <= z < 2 ^ 53 -> (q == inject_Z z)%Q -> exists y, fl q = Num y /\ (y == q)%Q.
Proof.
  intros Hz Hq. destruct (Z.eq_dec z 0) as [->|Hnz].
  { exists 0%Q. split; [by apply fl_zero|]. by rewrite Hq. }
  assert (0 < q)%Q as Hq0.
  { rewrite Hq. change 0%Q with (inject_Z 0). rewrite <- Zlt_Qlt. lia. }
  assert (q < 2 ^ 53)%Q as Hq1.
  { rewrite Hq. change 2%Q with (inject_Z 2). rewrite <- Zpower_Qpower by lia.
    rewrite <- Zlt_Qlt. lia. }
  assert (2 ^ 53 <= 2 ^ 1000)%Q as H1 by (by apply Qpower_le_compat_l).
  destruct (fl_pos_spec q Hq0 ltac:(lra)) as (y & u & Hfl & _ & _ & Hbin & _ & Hint).
  exists y. split; [done|]. apply (Hint z); [|done].
  destruct Hbin as [->|Hbin]; [lia|].
  assert (2 ^ (u + 52) < 2 ^ 53)%Q as Hlt by (rewrite Qpower_plus by done; lra).
  apply Qpower_lt_compat_l_inv in Hlt; [lia|reflexivity].
Qed.

Lemma inject_Z_bounds (z lo hi : Z) :
  lo <= z <= hi -> (inject_Z lo <= inject_Z z /\ inject_Z z <= inject_Z hi)%Q.
Proof. intros [H1 H2]. split; by rewrite <- Zle_Qle. Qed.

Lemma inject_Z_sub (x y : Z) : inject_Z (x - y) = (inject_Z x - inject_Z y)%Q.
Proof. unfold Z.sub, Qminus. by rewrite inject_Z_plus, inject_Z_opp. Qed.

(** The percentage of [d] mismatches in [r] relevant pixels, for counts
    below [2^32]: the double quotient [x] is not negative, [toFixed(4)]
    rounds it to [n = fixed4 x] ten-thousandths, and [n / 10^4] is a
    multiple of [0.0001] nearest to the exact quotient [100 * d / r]. *)
Lemma percent_spec (d r : Z) :
  0 <= d < 2 ^ 32 -> 0 < r < 2 ^ 32 ->
  exists x : Q,
    js_div (js_mul (Num 100) (js_int d)) (js_int r) = Num x /\
    (0 <= x)%Q /\
    toFixed4 (Num x) = fl (inject_Z (fixed4 x) / 10000) /\
    0 <= fixed4 x /\
    (2 * fixed4 x - 1) * r <= 2000000 * d <= (2 * fixed4 x + 1) * r.
Proof.
  intros Hd Hr.
  change (2 ^ 32) with 4294967296 in Hd, Hr.
  destruct (inject_Z_bounds d 0 4294967295 ltac:(lia)) as [HD0 HD1].
  destruct (inject_Z_bounds r 1 4294967295 ltac:(lia)) as [HR0 HR1].
  change (inject_Z 0) with 0%Q in HD0. change (inject_Z 1) with 1%Q in HR0.
  change (inject_Z 4294967295) with 4294967295%Q in HD1, HR1.
  unfold js_int, js_mul.
  destruct (fl_int (100 * inject_Z d) (100 * d)) as (p & -> & Hp).
  { change (2 ^ 53) with 9007199254740992. lia. }
  { by rewrite inject_Z_mult. }
  unfold js_div.
  destruct (Qeq_bool (inject_Z r) 0) eqn:Hr0; [apply Qeq_bool_iff in Hr0; lra|].
  clear Hr0. set (D := inject_Z d) in *. set (R := inject_Z r) in *.
  assert (p / R * R == p)%Q as HqR by (field; lra).
  set (q := (p / R)%Q) in *.
  destruct (Z.eq_dec d 0) as [->|Hd0].
  { exists 0%Q. split.
    - apply f_equal with (f := fun x => x). apply fl_zero.
      assert (p == 0)%Q as Hp0 by (rewrite Hp; reflexivity).
      assert (q * R == 0)%Q as H by (by rewrite HqR).
      apply Qmult_integral in H as [H|H]; [done|lra].
    - split; [done|]. split; [reflexivity|]. change (fixed4 0) with 0. lia. }
  assert (1 <= D)%Q as HD2.
  { change 1%Q with (inject_Z 1). unfold D. rewrite <- Zle_Qle. lia. }
  assert (0 < q)%Q as Hq0.
  { unfold q. apply Qlt_shift_div_l; lra. }
  assert (q <= p)%Q as Hqp.
  { rewrite <- HqR. rewrite <- (Qmult_1_r q) at 1. apply Qmult_le_l; lra. }
  assert (429496729600 <= 2 ^ 1000)%Q as Hbig by (by apply Qle_bool_iff).
  destruct (fl_pos_spec q Hq0 ltac:(lra))
    as (x & u & -> & Hx0 & Hu & Hbin & [Hlo Hhi] & _).
  exists x. split; [done|]. split; [done|].
  pose proof (two_power_pos u) as HU. set (U := (2 ^ u)%Q) in *.
  assert (10000 * (U * R) < 1)%Q as Hsmall.
  { destruct Hbin as [->|Hbin].
    - assert (U <= 1 # 1267650600228229401496703205376)%Q as HU'
        by (by apply Qle_bool_iff).
      assert (U * R <= (1 # 1267650600228229401496703205376) * R)%Q
        by (apply Qmult_le_compat_r; lra).
      lra.
    - assert (2 ^ 52 == 4503599627370496)%Q as E52 by reflexivity.
      rewrite E52 in Hbin.
      assert (U * 4503599627370496 * R <= q * R)%Q
        by (apply Qmult_le_compat_r; lra).
      lra. }
  assert (U <= U * R)%Q as HUR.
  { rewrite <- (Qmult_1_r U) at 1. apply Qmult_le_l; lra. }
  assert (Qle_bool 0 x = true) as Hpos by (by apply Qle_bool_iff).
  pose proof (Qfloor_le (x * 10000 + (1 # 2))) as H1.
  pose proof (Qlt_floor (x * 10000 + (1 # 2))) as H2.
  assert (fixed4 x = Qfloor (x * 10000 + (1 # 2))) as Hn
    by (unfold fixed4; by rewrite Hpos).
  rewrite <- Hn in H1, H2. set (n := fixed4 x) in *.
  rewrite inject_Z_plus in H2. change (inject_Z 1) with 1%Q in H2.
  split_and!.
  - unfold toFixed4. fold n.
    destruct (Qle_bool (10 ^ 21) (Qabs x)) eqn:Hover; [|done].
    apply Qle_bool_iff in Hover. rewrite Qabs_pos in Hover by done.
    assert (10 ^ 21 == 1000000000000000000000)%Q as E21 by reflexivity.
    rewrite E21 in Hover. lra.
  - rewrite Hn. change 0 with (Qfloor 0). apply Qfloor_resp_le. lra.
  - assert ((inject_Z n - (1 # 2)) * R <= x * 10000 * R)%Q as A1
      by (apply Qmult_le_compat_r; lra).
    assert ((x - U * (1 # 2)) * R <= q * R)%Q as A3
      by (apply Qmult_le_compat_r; lra).
    assert (inject_Z ((2 * n - 1) * r) < inject_Z (2000000 * d + 1))%Q as Hlt.
    { rewrite inject_Z_plus, !inject_Z_mult, inject_Z_sub, inject_Z_mult.
      fold D R. change (inject_Z 2) with 2%Q. change (inject_Z 1) with 1%Q.
      change (inject_Z 2000000) with 2000000%Q. lra. }
    rewrite <- Zlt_Qlt in Hlt. lia.
  - assert (x * 10000 * R < (inject_Z n + (1 # 2)) * R)%Q as A2
      by (apply Qmult_lt_compat_r; lra).
    assert (q * R <= (x + U * (1 # 2)) * R)%Q as A4
      by (apply Qmult_le_compat_r; lra).
    assert (inject_Z (2000000 * d) < inject_Z ((2 * n + 1) * r + 1))%Q as Hlt.
    { rewrite inject_Z_plus, !inject_Z_mult, inject_Z_plus, inject_Z_mult.
      fold D R. change (inject_Z 2) with 2%Q. change (inject_Z 1) with 1%Q.
      change (inject_Z 2000000) with 2000000%Q. lra. }
    rewrite <- Zlt_Qlt in Hlt. lia.
Qed.

Lemma nearest_ten_thousandth (n d r : Z) :
  0 < r -> (2 * n - 1) * r <= 2000000 * d <= (2 * n + 1) * r ->
  (Qabs (inject_Z n / 10000 - inject_Z (100 * d) / inject_Z r) <= 1 # 20000)%Q.
Proof.
  intros Hr [H1 H2].
  assert (0 < inject_Z r)%Q as HR
    by (change 0%Q with (inject_Z 0); by rewrite <- Zlt_Qlt).
  rewrite Zle_Qle in H1, H2.
  repeat (rewrite inject_Z_mult in H1 || rewrite inject_Z_sub in H1).
  repeat (rewrite inject_Z_mult in H2 || rewrite inject_Z_plus in H2).
  rewrite inject_Z_mult.
  change (inject_Z 2) with 2%Q in *. change (inject_Z 1) with 1%Q in *.
  change (inject_Z 2000000) with 2000000%Q in *. change (inject_Z 100) with 100%Q.
  set (N := inject_Z n) in *. set (D := inject_Z d) in *. set (R := inject_Z r) in *.
  assert (100 * D / R * R == 100 * D)%Q as Hz by (field; lra).
  set (z := (100 * D / R)%Q) in *.
  assert (N / 10000 == N * (1 # 10000))%Q as -> by (unfold Qdiv; reflexivity).
  apply Qabs_Qle_condition. split.
  - apply (Qmult_le_r _ _ R HR). lra.
  - apply (Qmult_le_r _ _ R HR). lra.
Qed.

(** The recorded difference is a double between 0 and [2^39]. *)
Lemma difference_range (n : Z) :
  0 <= n <= 4294967296000000 ->
  exists y : Q,
    fl (inject_Z n / 10000) = Num y /\ (0 <= y)%Q /\ (y <= 549755813888)%Q.
Proof.
  intros Hn. destruct (Z.eq_dec n 0) as [->|Hn0].
  { exists 0%Q. split; [reflexivity|]. split; [done|]. by apply Qle_bool_iff. }
  destruct (inject_Z_bounds n 1 4294967296000000 ltac:(lia)) as [HN0 HN1].
  change (inject_Z 1) with 1%Q in HN0.
  change (inject_Z 4294967296000000) with 4294967296000000%Q in HN1.
  set (N := inject_Z n) in *.
  assert (N / 10000 == N * (1 # 10000))%Q as E by (unfold Qdiv; reflexivity).
  assert (429496729600 <= 2 ^ 1000)%Q as Hbig by (by apply Qle_bool_iff).
  destruct (fl_pos_spec (N / 10000)) as (y & u & Hy & Hy0 & Hu & Hbin & [Hlo Hhi] & _).
  { rewrite E. lra. }
  { rewrite E. lra. }
  exists y. split; [done|]. split; [done|].
  rewrite E in *. pose proof (two_power_pos u) as HU. set (U := (2 ^ u)%Q) in *.
  destruct Hbin as [->|Hbin].
  - assert (U <= 1)%Q by (by apply two_power_le_1). lra.
  - assert (2 ^ 52 == 4503599627370496)%Q as E52 by reflexivity.
    rewrite E52 in Hbin. lra.
Qed.

(** A difference below [2^39] that equals [tolerance + 0.0001] lies
    above the tolerance: the sum is not rounded back onto it. *)
Lemma js_le_above (y : Q) (t : jsnum) :
  (0 <= y)%Q -> (y <= 549755813888)%Q ->
  js_eq (Num y) (js_add t (fl (1 # 10000))) = true -> js_le (Num y) t = false.
Proof.
  intros Hy0 Hy1.
  remember (fl (1 # 10000)) as c eqn:Hc. vm_compute in Hc. subst c.
  destruct t as [| | |t]; try done.
  cbn [js_add js_le].
  set (c := (7378697629483821 # 73786976294838206464)%Q).
  intros Heq. destruct (Qle_bool y t) eqn:Hle; [exfalso|done].
  apply Qle_bool_iff in Hle.
  assert (0 < c)%Q as Hc0 by reflexivity.
  assert (0 < t + c)%Q as Hs by lra.
  rewrite fl_pos in Heq by done.
  destruct (Qle_bool (2 ^ 1024) (fl_abs (t + c))); [done|].
  cbn [js_eq] in Heq. apply Qeq_bool_iff in Heq.
  destruct (fl_abs_near (t + c) Hs) as (u & Hu & Hbin & _ & [Hlo Hhi] & _).
  rewrite <- Heq in *. pose proof (two_power_pos u) as HU.
  set (U := (2 ^ u)%Q) in *.
  assert (U * (1 # 2) < c)%Q as Hhalf.
  { destruct Hbin as [->|Hbin].
    - assert (U <= 1 # 1267650600228229401496703205376)%Q as HU'
        by (by apply Qle_bool_iff).
      unfold c. lra.
    - assert (2 ^ 52 == 4503599627370496)%Q as E52 by reflexivity.
      rewrite E52 in Hbin. unfold c. lra. }
  lra.
Qed.

Lemma js_le_refl_eq (p : Q) (t : jsnum) :
  js_eq (Num p) t = true -> js_le (Num p) t = true.
Proof.
  destruct t as [| | |q]; simpl; try done.
  intros Heq%Qeq_bool_iff. apply Qle_bool_iff. rewrite Heq. apply Qle_refl.
Qed.

Lemma percent_undefined :
  toFixed4 (js_div (js_mul (Num 100) (js_int 0)) (js_int 0)) = NaN.
Proof. reflexivity. Qed.

(** ** The candidate loop *)

Lemma clearRect_dims (png : PNG) (x0 y0 x1 y1 : Z) :
  width (fst (_clearRect png x0 y0 x1 y1)) = width png /\
  height (fst (_clearRect png x0 y0 x1 y1)) = height png.
Proof.
  rewrite clearRect_norm.
  destruct (norm_rect png x0 y0 x1 y1) as [[[xa ya] xb] yb].
  destruct ((xa =? xb) || (ya =? yb)); [done|].
  by destruct (clear_loop (width png) xa ya xb yb (data png, 0)).
Qed.

Lemma applyBounds_dims (b : rect) (ign : list rect) (png : PNG) :
  width (fst (_applyBounds b ign png)) = width png /\
  height (fst (_applyBounds b ign png)) = height png.
Proof.
  rewrite applyBounds_fold. generalize (mask_rects b ign png) as rs.
  generalize 0 as c0. intros c0 rs. revert png c0.
  induction rs as [|[[[xa ya] xb] yb] rs IH]; intros png c0; [done|].
  change (foldl clear_acc (png, c0) ((xa, ya, xb, yb) :: rs))
    with (foldl clear_acc (clear_acc (png, c0) (xa, ya, xb, yb)) rs).
  unfold clear_acc at 2 4. cbn [fst snd].
  destruct (clearRect_dims png xa ya xb yb) as [Hw Hh].
  destruct (_clearRect png xa ya xb yb) as [png1 n]. cbn [fst] in Hw, Hh.
  destruct (IH png1 (c0 + n)) as [Hw' Hh']. split; congruence.
Qed.

Section ComparatorFacts.

Variable args_t : Type.
Variable pixelmatch : list Z -> list Z -> list Z -> Z -> Z -> args_t -> Z * list Z.
Variable diffFileName : nat -> string.
Variable opts : options args_t.
Variable diffEnabled : bool.

Local Abbreviation compare := (compare_candidate args_t pixelmatch diffFileName opts diffEnabled).
Local Abbreviation loop := (candidate_loop args_t pixelmatch diffFileName opts diffEnabled).
Local Abbreviation gvd := (getVisualDifferences args_t pixelmatch diffFileName opts diffEnabled).

Lemma best_inv_le (total : Z) (st : loop_state) :
  best_inv total st -> bestDifference st <= total.
Proof. intros [_ [(-> & _)|(? & _)]]; lia. Qed.

Lemma compare_candidate_ok (imgActual : PNG) (total ignored : Z)
    (st : loop_state) (i : nat) (cand : string * PNG) :
  same_size imgActual cand -> i = length (results st) -> best_inv total st ->
  exists st' e,
    compare imgActual total ignored st i cand = Ok st' /\
    results st' = results st ++ [e] /\
    entry_ok (tolerance opts) total ignored e /\
    from_differ pixelmatch opts imgActual cand e /\
    best_inv total st'.
Proof.
  destruct cand as [path img]. intros [Hw Hh] Hi Hinv. cbn [snd] in Hw, Hh.
  pose proof (best_inv_le _ _ Hinv) as Hle.
  unfold compare_candidate. rewrite Hw, Hh, !Z.eqb_refl. cbn [negb orb].
  destruct (pixelmatch _ _ _ _ _ _) as [n out] eqn:Hpm.
  assert (from_differ pixelmatch opts imgActual (path, img)
            {| diffPixels := n; totalPixels := total;
               relevantPixels := total - ignored;
               difference := toFixed4 (js_div (js_mul (Num 100) (js_int n))
                                               (js_int (total - ignored)));
               match_ := js_le (toFixed4 (js_div (js_mul (Num 100) (js_int n))
                                                  (js_int (total - ignored))))
                               (tolerance opts);
               variation := variation_of path;
               diffImage :=
                 if negb (js_le (toFixed4 (js_div (js_mul (Num 100) (js_int n))
                                                   (js_int (total - ignored))))
                                (tolerance opts)) && diffEnabled
                 then diffFileName i else ""%string |}) as Hfrom.
  { split; [done|]. exists (data (imgDiff st)). cbn [diffPixels fst snd].
    by rewrite Hpm. }
  destruct Hinv as [Hmin Hbest].
  destruct (Z.ltb_spec n (bestDifference st)) as [Hlt|Hge];
    eexists _, _; (split; [reflexivity|]); cbn [results];
    (split; [reflexivity|]); (split; [by repeat split|]); (split; [exact Hfrom|]).
  - (* a strictly better candidate *)
    split; cbn [results bestDifference bestIndex bestImgDiff].
    + intros j e [Hj|[Hj He]]%lookup_app_Some.
      * specialize (Hmin j e Hj). lia.
      * apply list_lookup_singleton_Some in He as [_ <-]. simpl. lia.
    + right. split; [lia|]. split; [by eexists|].
      eexists. split; [|split].
      * rewrite lookup_app_r by lia. rewrite Hi, Nat.sub_diag. reflexivity.
      * reflexivity.
      * intros j e' Hj He'. rewrite lookup_app_l in He' by lia.
        specialize (Hmin j e' He'). lia.
  - (* not better: the best so far is kept *)
    split; cbn [results bestDifference bestIndex bestImgDiff].
    + intros j e [Hj|[Hj He]]%lookup_app_Some.
      * by apply (Hmin j e).
      * apply list_lookup_singleton_Some in He as [_ <-]. simpl. lia.
    + destruct Hbest as [Hinit|(Hlt & Hsnap & e & He & Hd & Hfirst)]; [by left|].
      right. split; [done|]. split; [done|]. exists e. split; [|split; [done|]].
      * apply lookup_app_l_Some. done.
      * intros j e' Hj He'. apply (Hfirst j e' Hj).
        apply lookup_lt_Some in He. rewrite lookup_app_l in He' by lia. done.
Qed.

Lemma candidate_loop_ok (imgActual : PNG) (total ignored : Z)
    (cands : list (string * PNG)) :
  Forall (same_size imgActual) cands ->
  forall i st, i = length (results st) -> best_inv total st ->
  exists st' es,
    loop imgActual total ignored cands i st = Ok st' /\
    results st' = results st ++ es /\
    Forall (entry_ok (tolerance opts) total ignored) es /\
    Forall2 (from_differ pixelmatch opts imgActual) cands es /\
    best_inv total st'.
Proof.
  induction 1 as [|cand cands Hsize _ IH]; intros i st Hi Hinv.
  { exists st, []. rewrite app_nil_r. split_and!; [done|done|constructor|constructor|done]. }
  destruct (compare_candidate_ok imgActual total ignored st i cand Hsize Hi Hinv)
    as (st1 & e & Hstep & Hres & Hok & Hfrom & Hinv1).
  destruct (IH (S i) st1) as (st' & es & Hloop & Hres' & Hoks & Hfroms & Hinv');
    [rewrite Hres, length_app; simpl; lia|done|].
  exists st', (e :: es). simpl. rewrite Hstep. split; [exact Hloop|].
  split; [by rewrite Hres', Hres, <- app_assoc|].
  split; [by constructor|]. split; [by constructor|done].
Qed.

Lemma getVisualDifferences_ok (cands : list (string * PNG)) (imgActual : PNG) :
  cands <> [] -> height imgActual <> 0 -> Forall (same_size imgActual) cands ->
  let total := width imgActual * height imgActual in
  let masked := _applyBounds (bounds opts) (ignore opts) imgActual in
  exists st best,
    gvd cands imgActual
    = Ok {| scalars := best;
            variations := results st;
            savedDiff :=
              if negb (match_ best) && diffEnabled then
                match bestImgDiff st with
                | Some snapshot => Some (variation best, snapshot)
                | None => None
                end
              else None |} /\
    results st !! bestIndex st = Some best /\
    best_inv total st /\
    Forall (entry_ok (tolerance opts) total (snd masked)) (results st) /\
    Forall2 (from_differ pixelmatch opts (fst masked)) cands (results st).
Proof.
  intros Hne Hh Hsize total masked. unfold getVisualDifferences.
  destruct cands as [|c0 cands0] eqn:Hcands; [done|]. rewrite <- Hcands in *.
  assert ((length cands =? 0)%nat = false) as -> by (rewrite Hcands; done).
  destruct (Z.eqb_spec (height imgActual) 0) as [|_]; [done|].
  fold total. fold masked.
  destruct (applyBounds_dims (bounds opts) (ignore opts) imgActual) as [Hw' Hh'].
  fold masked in Hw', Hh'.
  destruct masked as [imgActual' ignored] eqn:Hmasked. cbn [fst snd] in *.
  assert (Forall (same_size imgActual') cands) as Hsize'.
  { eapply Forall_impl; [exact Hsize|]. intros c [? ?]. split; congruence. }
  set (st0 := {| results := []; bestIndex := 0; bestDifference := total;
                 bestImgDiff := None;
                 imgDiff := new_PNG (width imgActual) (height imgActual) |}).
  assert (best_inv total st0) as Hinv0.
  { split; [intros j e Hj; unfold st0 in Hj; cbn in Hj; done|by left]. }
  destruct (candidate_loop_ok imgActual' total ignored cands Hsize' 0%nat st0 eq_refl Hinv0)
    as (st & es & Hloop & Hres & Hoks & Hfroms & Hinv).
  rewrite Hloop. simpl in Hres. subst es.
  assert (exists best, results st !! bestIndex st = Some best) as [best Hbest].
  { destruct Hinv as [_ [(_ & -> & _)|(_ & _ & e & He & _)]]; [|by exists e].
    apply Forall2_length in Hfroms. rewrite Hcands in Hfroms.
    destruct (results st) as [|e0 ?]; [done|]. by exists e0. }
  exists st, best. rewrite Hbest. split_and!; done.
Qed.

Lemma same_size_dec (imgActual : PNG) (cand : string * PNG) :
  {same_size imgActual cand} + {~ same_size imgActual cand}.
Proof.
  unfold same_size.
  destruct (Z.eq_dec (width (snd cand)) (width imgActual)),
           (Z.eq_dec (height (snd cand)) (height imgActual)); intuition.
Qed.

Lemma compare_candidate_mismatch (imgActual : PNG) (total ignored : Z)
    (st : loop_state) (i : nat) (cand : string * PNG) :
  ~ same_size imgActual cand ->
  compare imgActual total ignored st i cand = Err "Image sizes do not match".
Proof.
  destruct cand as [path img]. unfold same_size, compare_candidate. cbn [snd].
  intros Hne.
  destruct (Z.eqb_spec (width img) (width imgActual)),
           (Z.eqb_spec (height img) (height imgActual)); try done.
  exfalso. by apply Hne.
Qed.

Lemma compare_candidate_same_size (imgActual : PNG) (total ignored : Z)
    (st : loop_state) (i : nat) (cand : string * PNG) :
  same_size imgActual cand ->
  exists st', compare imgActual total ignored st i cand = Ok st'.
Proof.
  destruct cand as [path img]. intros [Hw Hh]. cbn [snd] in Hw, Hh.
  unfold compare_candidate. rewrite Hw, Hh, !Z.eqb_refl. cbn [negb orb].
  destruct (pixelmatch _ _ _ _ _ _) as [n out].
  destruct (n <? bestDifference st); eauto.
Qed.

Lemma candidate_loop_mismatch (imgActual : PNG) (total ignored : Z)
    (cands : list (string * PNG)) :
  Exists (fun c => ~ same_size imgActual c) cands ->
  forall i st,
    loop imgActual total ignored cands i st = Err "Image sizes do not match".
Proof.
  induction cands as [|cand cands IH]; intros Hex i st; [by apply Exists_nil in Hex|].
  simpl. destruct (same_size_dec imgActual cand) as [Hs|Hs].
  - destruct (compare_candidate_same_size imgActual total ignored st i cand Hs)
      as [st' ->].
    apply IH. apply Exists_cons in Hex as [Hbad|Hex]; [by destruct Hbad|done].
  - by rewrite compare_candidate_mismatch.
Qed.

(** ** The comparator: claims *)

(** C1. Over a non-empty candidate list the comparison returns, and the
    scalar fields of its result are the record of the candidate with the
    lowest mismatch count, the earliest one among those that share the
    minimum: no record has fewer mismatches and every earlier record has
    strictly more.  With mismatch counts [5,5,3,3] this is index 2.  The
    differ reports at most as many mismatches as the image has pixels. *)
Theorem best_is_first_lowest_mismatch
    (cands : list (string * PNG)) (imgActual : PNG) :
  cands <> [] -> height imgActual <> 0 -> Forall (same_size imgActual) cands ->
  (forall img out,
     fst (pixelmatch img
            (data (fst (_applyBounds (bounds opts) (ignore opts) imgActual))) out
            (width imgActual) (height imgActual) (args opts))
     <= width imgActual * height imgActual) ->
  exists res i,
    gvd cands imgActual = Ok res /\
    length (variations res) = length cands /\
    variations res !! i = Some (scalars res) /\
    (forall j e, variations res !! j = Some e ->
                 diffPixels (scalars res) <= diffPixels e) /\
    (forall j e, (j < i)%nat -> variations res !! j = Some e ->
                 diffPixels (scalars res) < diffPixels e) /\
    (diffPixels <$> variations res = [5; 5; 3; 3] -> i = 2%nat).
Proof.
  intros Hne Hh Hsize Hbound.
  destruct (getVisualDifferences_ok cands imgActual Hne Hh Hsize)
    as (st & best & Hrun & Hbest & [Hmin Hcase] & _ & Hfrom).
  destruct (applyBounds_dims (bounds opts) (ignore opts) imgActual) as [Hw' Hh'].
  assert (forall j e, results st !! j = Some e ->
            diffPixels e <= width imgActual * height imgActual) as Hle.
  { intros j e Hj.
    destruct (Forall2_lookup_r _ _ _ _ _ Hfrom Hj) as (c & _ & _ & out & ->).
    rewrite Hw', Hh'. apply Hbound. }
  assert (forall j e, results st !! j = Some e -> diffPixels best <= diffPixels e)
    as Hlow.
  { intros j e Hj.
    destruct Hcase as [(Heq & _ & _)|(_ & _ & e' & He' & Hd & _)].
    - pose proof (Hle _ _ Hbest). pose proof (Hmin _ _ Hj). lia.
    - assert (e' = best) as -> by congruence. rewrite Hd. by apply (Hmin j). }
  assert (forall j e, (j < bestIndex st)%nat -> results st !! j = Some e ->
            diffPixels best < diffPixels e) as Hfirst.
  { intros j e Hlt Hj.
    destruct Hcase as [(_ & H0 & _)|(_ & _ & e' & He' & Hd & Hf)]; [lia|].
    assert (e' = best) as -> by congruence. rewrite Hd. by apply (Hf j). }
  exists {| scalars := best; variations := results st;
            savedDiff :=
              if negb (match_ best) && diffEnabled then
                match bestImgDiff st with
                | Some snapshot => Some (variation best, snapshot)
                | None => None
                end
              else None |}, (bestIndex st).
  cbn [scalars variations]. split_and!; try done.
  - symmetry. by apply Forall2_length in Hfrom.
  - intros Hdiffs.
    destruct (results st) as [|e0 [|e1 [|e2 [|e3 [|? ?]]]]]; try done.
    injection Hdiffs as H0 H1 H2 H3.
    pose proof (Hlow 2%nat e2 eq_refl) as Hl2.
    destruct (bestIndex st) as [|[|[|[|k]]]]; simpl in Hbest; [| |done| |done].
    + injection Hbest as <-. lia.
    + injection Hbest as <-. lia.
    + injection Hbest as <-. pose proof (Hfirst 2%nat e2 ltac:(lia) eq_refl). lia.
Qed.

(** C7. If a candidate's width or height differs from the actual
    image's, the comparison returns no result at all, only an error; when
    the actual image has rows, so that the candidates are looked at, the
    error is 'Image sizes do not match', whatever the other candidates
    are and however they would have compared. *)
Theorem size_mismatch_is_fatal (cands : list (string * PNG)) (imgActual : PNG) :
  Exists (fun c => ~ same_size imgActual c) cands ->
  (exists msg, gvd cands imgActual = Err msg) /\
  (height imgActual <> 0 ->
   gvd cands imgActual = Err "Image sizes do not match").
Proof.
  intros Hex.
  assert (height imgActual <> 0 ->
          gvd cands imgActual = Err "Image sizes do not match") as Hfatal.
  { intros Hh. unfold getVisualDifferences.
    destruct cands as [|c0 cands0] eqn:Hc; [by apply Exists_nil in Hex|].
    rewrite <- Hc in *.
    assert ((length cands =? 0)%nat = false) as -> by (rewrite Hc; done).
    destruct (Z.eqb_spec (height imgActual) 0) as [|_]; [done|].
    destruct (applyBounds_dims (bounds opts) (ignore opts) imgActual) as [Hw' Hh'].
    destruct (_applyBounds (bounds opts) (ignore opts) imgActual)
      as [imgActual' ignored]. cbn [fst] in Hw', Hh'.
    rewrite candidate_loop_mismatch; [done|].
    eapply Exists_impl; [exact Hex|]. intros c Hc' [? ?]. apply Hc'.
    split; congruence. }
  split; [|exact Hfatal].
  destruct (Z.eq_dec (height imgActual) 0) as [H0|Hn0]; [|eauto].
  unfold getVisualDifferences. destruct (length cands =? 0)%nat; [eauto|].
  rewrite H0. simpl. eauto.
Qed.

(** C3, at the input where the code departs from it.  When the differ
    reports every pixel of the first and only candidate as mismatched,
    the mismatch count is not below the initial best value (the number of
    pixels), so no snapshot of the diff raster is taken: the comparison
    returns that candidate's record, which does not match and names a diff
    image, and nothing is saved. *)
Theorem first_candidate_may_leave_no_snapshot
    (path : string) (img imgActual : PNG) :
  height imgActual <> 0 -> same_size imgActual (path, img) ->
  fst (pixelmatch
         (data (fst (_applyBounds (bounds opts) (ignore opts) img)))
         (data (fst (_applyBounds (bounds opts) (ignore opts) imgActual)))
         (data (new_PNG (width imgActual) (height imgActual)))
         (width imgActual) (height imgActual) (args opts))
  = width imgActual * height imgActual ->
  exists res,
    gvd [(path, img)] imgActual = Ok res /\
    variations res = [scalars res] /\
    diffPixels (scalars res) = width imgActual * height imgActual /\
    savedDiff res = None /\
    (match_ (scalars res) = false -> diffEnabled = true ->
     diffImage (scalars res) = diffFileName 0).
Proof.
  intros Hh [Hw Hh']. cbn [snd] in Hw, Hh'. intros Hall.
  unfold getVisualDifferences. cbn [length Nat.eqb].
  destruct (Z.eqb_spec (height imgActual) 0) as [|_]; [done|].
  destruct (applyBounds_dims (bounds opts) (ignore opts) imgActual) as [Hwa Hha].
  destruct (_applyBounds (bounds opts) (ignore opts) imgActual)
    as [imgActual' ignored]. cbn [fst] in *.
  cbn [candidate_loop]. unfold compare_candidate.
  rewrite Hwa, Hha, Hw, Hh', !Z.eqb_refl. cbn [negb orb imgDiff bestDifference].
  destruct (pixelmatch _ _ _ _ _ _) as [n out]. cbn [fst] in Hall. subst n.
  rewrite Z.ltb_irrefl. cbn [results bestIndex app lookup list_lookup].
  eexists. split; [reflexivity|]. cbn [scalars variations savedDiff diffPixels
    match_ bestImgDiff diffImage variation].
  split_and!; try done.
  - by destruct (negb _ && diffEnabled).
  - by intros -> ->.
Qed.

(** C2. On a decoded actual image of fewer than [2^32] pixels the
    comparison returns, and the record of every candidate holds the
    mismatch count the differ returned for the masked candidate against
    the masked actual image, and as relevant pixels the pixels of the
    image minus the count of the mask.  Where the relevant pixel count is
    positive, the recorded difference is the quotient
    [100 * diffPixels / relevantPixels] rounded to four decimal places:
    it is the number [n / 10^4], as a double holds it, where [n / 10^4]
    is a multiple of 0.0001 nearest to the quotient, at most half a
    ten-thousandth away from it; [toFixed] picks [n] by rounding the
    double quotient [x].  The candidate matches exactly when the recorded
    difference is [<=] the tolerance of the options; so a difference
    equal to the tolerance matches, and a difference equal to the
    tolerance plus 0.0001 does not.  The differ returns a pixel count:
    between 0 and the number of pixels. *)
Theorem difference_rounded_and_compared
    (cands : list (string * PNG)) (imgActual : PNG) :
  wf_png imgActual ->
  cands <> [] -> height imgActual <> 0 -> Forall (same_size imgActual) cands ->
  width imgActual * height imgActual < 2 ^ 32 ->
  (forall img1 img2 out a,
     0 <= fst (pixelmatch img1 img2 out (width imgActual) (height imgActual) a)
       <= width imgActual * height imgActual) ->
  exists res,
    gvd cands imgActual = Ok res /\
    scalars res ∈ variations res /\
    Forall2 (fun cand e =>
      (exists out,
         diffPixels e
         = fst (pixelmatch
                  (data (fst (_applyBounds (bounds opts) (ignore opts) (snd cand))))
                  (data (fst (_applyBounds (bounds opts) (ignore opts) imgActual)))
                  out (width imgActual) (height imgActual) (args opts))) /\
      relevantPixels e
      = width imgActual * height imgActual
        - snd (_applyBounds (bounds opts) (ignore opts) imgActual) /\
      match_ e = js_le (difference e) (tolerance opts) /\
      (0 < relevantPixels e ->
       (exists (x : Q) (n : Z),
          js_div (js_mul (Num 100) (js_int (diffPixels e)))
                 (js_int (relevantPixels e)) = Num x /\
          n = fixed4 x /\
          difference e = fl (inject_Z n / 10000) /\
          (Qabs (inject_Z n / 10000
                 - inject_Z (100 * diffPixels e) / inject_Z (relevantPixels e))
           <= 1 # 20000)%Q) /\
       (js_eq (difference e) (tolerance opts) = true -> match_ e = true) /\
       (js_eq (difference e) (js_add (tolerance opts) (fl (1 # 10000))) = true ->
        match_ e = false)))
      cands (variations res).
Proof.
  intros Hwf Hne Hh Hsize Hsmall Hcount.
  destruct (getVisualDifferences_ok cands imgActual Hne Hh Hsize)
    as (st & best & Hrun & Hbest & _ & Hoks & Hfrom).
  destruct (mask_count_range (bounds opts) (ignore opts) imgActual Hwf)
    as [Hmask _].
  eexists. split; [exact Hrun|]. cbn [scalars variations].
  split; [by eapply list_elem_of_lookup_2|].
  apply Forall2_same_length_lookup. split; [by apply Forall2_length in Hfrom|].
  intros j cand e Hc He.
  rewrite Forall_lookup in Hoks.
  destruct (Hoks _ _ He) as (_ & Hrel & Hdiff & Hmatch).
  destruct (Forall2_lookup_lr _ _ _ _ _ _ Hfrom Hc He) as (_ & out & Hd).
  destruct (applyBounds_dims (bounds opts) (ignore opts) imgActual) as [Hw' Hh'].
  rewrite Hw', Hh' in Hd.
  split; [by exists out|]. split; [done|]. split; [done|].
  intros Hpos.
  assert (0 <= diffPixels e < 2 ^ 32) as Hd32.
  { rewrite Hd. specialize (Hcount
      (data (fst (_applyBounds (bounds opts) (ignore opts) (snd cand))))
      (data (fst (_applyBounds (bounds opts) (ignore opts) imgActual)))
      out (args opts)). lia. }
  destruct (percent_spec (diffPixels e) (relevantPixels e) Hd32 ltac:(lia))
    as (x & Hx & Hx0 & Hfix & Hn0 & Hnear).
  rewrite Hx, Hfix in Hdiff.
  destruct (difference_range (fixed4 x)) as (y & Hy & Hy0 & Hy1).
  { change (2 ^ 32) with 4294967296 in *. nia. }
  split_and!.
  - exists x, (fixed4 x). split_and!; try done.
    by apply nearest_ten_thousandth.
  - rewrite Hmatch, Hdiff, Hy. apply js_le_refl_eq.
  - rewrite Hmatch, Hdiff, Hy. by apply js_le_above.
Qed.

(** C4. With an active bounding box that lies inside the raster, the
    four strips [_applyBounds] clears are the rectangles (0,0)-(left,H),
    (left,0)-(W,top), (left,top+height)-(W,H) and
    (left+width,top)-(W,top+height); every pixel outside the box lies in
    exactly one of them and every pixel of the box in none, so the mask
    zeroes the complement of the box and keeps the box.  On a fully
    opaque raster the cleared count plus the box area is [W * H], and
    without ignore regions the comparison records the box area as its
    relevant pixel count. *)
Theorem bounds_strips_tile_complement
    (cands : list (string * PNG)) (png : PNG) :
  wf_png png -> useBounds (bounds opts) = true ->
  0 <= r_left (bounds opts) -> 0 <= r_top (bounds opts) ->
  0 <= r_width (bounds opts) -> 0 <= r_height (bounds opts) ->
  r_left (bounds opts) + r_width (bounds opts) <= width png ->
  r_top (bounds opts) + r_height (bounds opts) <= height png ->
  let b := bounds opts in
  let box := inside (r_left b) (r_top b) (r_left b + r_width b) (r_top b + r_height b) in
  let masked := _applyBounds b [] png in
  border_rects b png
  = [ (0, 0, r_left b, height png);
      (r_left b, 0, width png, r_top b);
      (r_left b, r_top b + r_height b, width png, height png);
      (r_left b + r_width b, r_top b, width png, r_top b + r_height b) ] /\
  (forall x y, 0 <= x < width png -> 0 <= y < height png ->
     countb (fun rc => inside_rect rc x y) (border_rects b png)
     = if box x y then 0 else 1) /\
  (forall x y c, 0 <= x < width png -> 0 <= y < height png -> 0 <= c < 4 ->
     channel (fst masked) x y c = if box x y then channel png x y c else Some 0) /\
  ((forall x y, 0 <= x < width png -> 0 <= y < height png -> opaque png x y = true) ->
   snd masked + r_width b * r_height b = width png * height png /\
   (ignore opts = [] -> cands <> [] -> height png <> 0 ->
    Forall (same_size png) cands ->
    exists res,
      gvd cands png = Ok res /\
      relevantPixels (scalars res) = r_width b * r_height b /\
      Forall (fun e => relevantPixels e = r_width b * r_height b) (variations res))).
Proof.
  intros Hwf Huse Hl Ht Hbw Hbh Hr Hb b box masked. subst b.
  set (b := bounds opts) in *.
  assert (mask_rects b [] png = border_rects b png) as Hrects
    by (unfold mask_rects; rewrite Huse; apply app_nil_r).
  destruct (applyBounds_spec b [] png Hwf) as (_ & _ & _ & Hch & _).
  fold masked in Hch. rewrite Hrects in Hch.
  split; [reflexivity|].
  split; [intros x y Hx Hy; by apply border_rects_tile|].
  split.
  { intros x y c Hx Hy Hc. rewrite Hch by done.
    rewrite covered_border_rects by done. fold box. by destruct (box x y). }
  intros Hopaque.
  assert (snd masked + r_width b * r_height b = width png * height png) as Harea.
  { unfold masked. rewrite applyBounds_count, Hrects by done.
    pose proof (countb_split (fun c => opaque png (fst c) (snd c))
                  (fun c => covered png (border_rects b png) (fst c) (snd c))
                  (cells 0 0 (width png) (height png))) as Hsplit.
    destruct Hwf as (Hw & Hh & _).
    rewrite countb_all, length_cells in Hsplit by
      (lia || (intros [x y] Hc%elem_of_cells; apply Hopaque; cbn; lia)).
    rewrite (countb_ext_in
               (fun c => opaque png (fst c) (snd c)
                         && negb (covered png (border_rects b png) (fst c) (snd c)))
               (fun c => box (fst c) (snd c))) in Hsplit.
    - unfold box in Hsplit. rewrite countb_inside in Hsplit by lia.
      replace (r_left b + r_width b - r_left b) with (r_width b) in Hsplit by lia.
      replace (r_top b + r_height b - r_top b) with (r_height b) in Hsplit by lia.
      rewrite !Z.sub_0_r in Hsplit. lia.
    - intros [x y] Hc%elem_of_cells. cbn [fst snd].
      rewrite Hopaque, covered_border_rects, negb_involutive by lia. done. }
  split; [exact Harea|].
  intros Hign Hne Hh Hsize.
  destruct (getVisualDifferences_ok cands png Hne Hh Hsize)
    as (st & best & Hrun & Hbest & _ & Hoks & _).
  rewrite Hign in Hoks. fold b masked in Hoks.
  assert (Forall (fun e => relevantPixels e = r_width b * r_height b) (results st))
    as Hrel.
  { eapply Forall_impl; [exact Hoks|]. intros e (_ & -> & _). lia. }
  eexists. split; [exact Hrun|]. cbn [scalars variations]. split; [|exact Hrel].
  rewrite Forall_lookup in Hrel. by apply (Hrel _ _ Hbest).
Qed.

(** C10. When the mask leaves no relevant pixel (the cleared count of the
    actual image is its number of pixels), the comparison of decoded
    rasters returns, and every candidate's difference is [0 / 0 = NaN]
    and its record does not match; so the result does not match, whatever
    the tolerance is.  The differ reports no mismatch between two equal
    buffers. *)
Theorem fully_masked_never_matches
    (cands : list (string * PNG)) (imgActual : PNG) :
  wf_png imgActual -> Forall (fun c => wf_png (snd c)) cands ->
  cands <> [] -> height imgActual <> 0 -> Forall (same_size imgActual) cands ->
  (forall img out w h a, fst (pixelmatch img img out w h a) = 0) ->
  snd (_applyBounds (bounds opts) (ignore opts) imgActual)
  = width imgActual * height imgActual ->
  exists res,
    gvd cands imgActual = Ok res /\
    length (variations res) = length cands /\
    Forall (fun e => relevantPixels e = 0 /\ diffPixels e = 0 /\
                     difference e = NaN /\ match_ e = false) (variations res) /\
    relevantPixels (scalars res) = 0 /\
    difference (scalars res) = NaN /\
    match_ (scalars res) = false.
Proof.
  intros Hwf Hwfs Hne Hh Hsize Hsame Hall.
  destruct (getVisualDifferences_ok cands imgActual Hne Hh Hsize)
    as (st & best & Hrun & Hbest & _ & Hoks & Hfrom).
  pose proof (all_cleared_all_covered _ _ _ Hwf Hall) as Hcov.
  assert (Forall (fun e => relevantPixels e = 0 /\ diffPixels e = 0 /\
                           difference e = NaN /\ match_ e = false) (results st))
    as Hnan.
  { apply Forall_lookup. intros j e Hj.
    destruct (Forall2_lookup_r _ _ _ _ _ Hfrom Hj) as (c & Hc & _ & out & Hd).
    rewrite Forall_lookup in Hoks. rewrite Forall_lookup in Hwfs.
    rewrite Forall_lookup in Hsize.
    destruct (Hoks _ _ Hj) as (_ & Hrel & Hdiff & Hmatch).
    destruct (Hsize _ _ Hc) as [Hcw Hch].
    rewrite (fully_covered_same_data _ _ (snd c) imgActual) in Hd
      by (try done; by apply (Hwfs _ _ Hc)).
    rewrite Hsame in Hd. rewrite Hall in Hrel.
    assert (relevantPixels e = 0) as Hrel0 by lia.
    rewrite Hd, Hrel0 in Hdiff. cbn in Hdiff.
    rewrite Hdiff in Hmatch. by split_and!. }
  eexists. split; [exact Hrun|]. cbn [scalars variations].
  split; [symmetry; by apply Forall2_length in Hfrom|].
  split; [exact Hnan|].
  rewrite Forall_lookup in Hnan. destruct (Hnan _ _ Hbest) as (? & _ & ? & ?).
  by split_and!.
Qed.

End ComparatorFacts.

(** ** The reference differ *)

Lemma byte_differ_le {args_t : Type} (img1 img2 out : list Z) (w h : Z) (a : args_t) :
  0 <= w * h -> fst (byte_differ img1 img2 out w h a) <= w * h.
Proof.
  intros Hwh. unfold byte_differ. cbn [fst].
  pose proof (countb_le_length (pixel_differs img1 img2) (seqZ 0 (w * h))) as Hle.
  rewrite length_seqZ in Hle. lia.
Qed.

Lemma byte_differ_same {args_t : Type} (img out : list Z) (w h : Z) (a : args_t) :
  fst (byte_differ img img out w h a) = 0.
Proof.
  unfold byte_differ. cbn [fst]. apply countb_none. intros p _.
  unfold pixel_differs. cbn [forallb]. by rewrite !bool_decide_eq_true_2.
Qed.

Lemma scan_pixels_range (n : nat) (img1 img2 : list Z) :
  0 <= scan_pixels n img1 img2 <= Z.of_nat n.
Proof.
  revert img1 img2. induction n as [|n IH]; intros img1 img2; [done|].
  cbn [scan_pixels].
  destruct img1 as [|r1 [|g1 [|b1 [|a1 rest1]]]]; try lia.
  destruct img2 as [|r2 [|g2 [|b2 [|a2 rest2]]]]; try lia.
  specialize (IH rest1 rest2).
  destruct ((r1 =? r2) && (g1 =? g2) && (b1 =? b2) && (a1 =? a2)); lia.
Qed.

Lemma scan_differ_range {args_t : Type} (img1 img2 out : list Z) (w h : Z)
    (a : args_t) :
  0 <= w * h -> 0 <= fst (scan_differ img1 img2 out w h a) <= w * h.
Proof.
  intros Hwh. unfold scan_differ. cbn [fst].
  pose proof (scan_pixels_range (Z.to_nat (w * h)) img1 img2). lia.
Qed.

(** ** Options and labels: claims *)

Lemma js_max_zero_lower (t : jsnum) :
  t <> NaN -> js_le (Num 0) (js_max (Num 0) t) = true.
Proof.
  destruct t as [| | |q]; try done. simpl.
  destruct (Qle_bool 0 q) eqn:Hq; simpl; [done|reflexivity].
Qed.

(** The lower bound does hold: a tolerance given with the options and
    parsed to a number is at least 0 after [_setupTest]. *)
Lemma setupTest_tolerance_lower {args_t : Type} (g : jsnum) (d : args_t)
    (o : raw_options args_t) (t : jsnum) :
  o_tolerance o = Some t -> t <> NaN ->
  js_le (Num 0) (tolerance (_setupTest g d (Some o))) = true.
Proof.
  intros Ht Hnan. unfold _setupTest. cbn [tolerance]. rewrite Ht.
  by apply js_max_zero_lower.
Qed.

(** C9, at the input where the code departs from it.  The constructor
    clamps the engine-wide tolerance into [[0, 100]], but [_setupTest]
    only applies [Math.max(0, ...)] to a tolerance passed with the
    options: 150 is stored as 150, which is not [<= 100]. *)
Theorem setupTest_tolerance_exceeds_100 :
  tolerance (_setupTest (constructor_globalTolerance None) tt
               (Some (mkRaw (Some (Num 150)) None None [] None)))
  = Num 150 /\
  js_le (Num 150) (Num 100) = false /\
  constructor_globalTolerance (Some (Num 150)) = Num 100.
Proof. split_and!; reflexivity. Qed.

Local Open Scope string_scope.

Lemma contains_append (c : ascii) (s t : string) :
  contains c (String.append s t) = contains c s || contains c t.
Proof.
  induction s as [|a s IH]; [done|]. simpl. by rewrite IH, orb_assoc.
Qed.

(** A byte that does not continue a line terminator of three bytes. *)
Definition no_continuation (h : ascii) : bool :=
  negb (Ascii.eqb h "128"%char) && negb (Ascii.eqb h "168"%char)
  && negb (Ascii.eqb h "169"%char).

Lemma line_terminator_at_append (a h : ascii) (pre t : string) :
  no_continuation h = true ->
  line_terminator_at (String a (String.append pre (String h t)))
  = line_terminator_at (String a pre).
Proof.
  unfold no_continuation.
  intros [[H1 H2]%andb_true_iff H3]%andb_true_iff.
  apply negb_true_iff in H1, H2, H3.
  unfold line_terminator_at. f_equal. f_equal.
  destruct pre as [|b [|c pre]]; cbn [String.append].
  - destruct t; [done|]. by rewrite H1.
  - by rewrite H2, H3, andb_false_r.
  - done.
Qed.

Lemma drop_through_tilde_none (s : string) :
  contains "~"%char s = false -> drop_through_tilde s = None.
Proof.
  induction s as [|a s IH]; [done|]. cbn [contains drop_through_tilde].
  intros [Ha Hs]%orb_false_iff. rewrite IH, Ha by done.
  by destruct (line_terminator_at (String a s)).
Qed.

Lemma drop_through_tilde_last (pre suf : string) :
  one_line pre = true -> contains "~"%char suf = false ->
  drop_through_tilde (String.append pre (String "~"%char suf)) = Some suf.
Proof.
  intros Hpre Hsuf. induction pre as [|a pre IH].
  - cbn [String.append drop_through_tilde].
    rewrite drop_through_tilde_none by done. reflexivity.
  - cbn [one_line] in Hpre. apply andb_true_iff in Hpre as [Ha Hpre].
    apply negb_true_iff in Ha.
    change (String.append (String a pre) (String "~" suf))
      with (String a (String.append pre (String "~" suf))).
    cbn [drop_through_tilde].
    rewrite line_terminator_at_append by reflexivity. by rewrite Ha, IH.
Qed.

Lemma string_length_append (s t : string) :
  String.length (String.append s t) = (String.length s + String.length t)%nat.
Proof. induction s as [|a s IH]; simpl; [done|by rewrite IH]. Qed.

Lemma drop_png_append (s : string) : drop_png (String.append s ".png") = s.
Proof.
  induction s as [|a s IH]; [done|].
  change (String.append (String a s) ".png") with (String a (String.append s ".png")).
  cbn [drop_png]. rewrite IH.
  destruct (String.eqb_spec (String a (String.append s ".png")) ".png") as [Heq|]; [|done].
  apply (f_equal String.length) in Heq. simpl in Heq.
  rewrite string_length_append in Heq. simpl in Heq. lia.
Qed.

(** Where the label is as the naming convention has it: a path without
    ['~'] has the empty label, and a path that ends in [~<suffix>.png],
    with no ['~'] in the suffix and no line break before it, has the
    suffix as its label. *)
Lemma variation_of_plain (path : string) :
  contains "~"%char path = false -> variation_of path = "".
Proof. unfold variation_of. by intros ->. Qed.

Lemma variation_of_variant (pre suf : string) :
  one_line pre = true -> contains "~"%char suf = false ->
  variation_of (String.append pre (String "~"%char (String.append suf ".png"))) = suf.
Proof.
  intros Hpre Hsuf. unfold variation_of.
  rewrite contains_append. simpl. rewrite orb_true_r.
  unfold replace_png_or_prefix. rewrite drop_through_tilde_last.
  - apply drop_png_append.
  - done.
  - rewrite contains_append, Hsuf. reflexivity.
Qed.

(** C8, at the input where the code departs from it.  The label is cut
    out of the whole path, not out of the file name: for the canonical
    file [shot.png] in a directory whose name contains ['~'] the label is
    not empty.  In a directory without ['~'] the labels are as claimed. *)
Theorem variation_of_tilde_in_directory :
  variation_of "/shots/~base/shot.png" = "base/shot" /\
  variation_of "/shots/base/shot.png" = "" /\
  variation_of "/shots/base/shot~alt.png" = "alt".
Proof. split_and!; reflexivity. Qed.

(** ** The claims at concrete inputs *)

Lemma strip_wf (k : nat) : (k <= 6)%nat -> wf_png (strip k).
Proof.
  intros Hk. unfold wf_png, strip, pixels. cbn [width height data].
  split; [lia|]. split; [lia|].
  do 7 (destruct k as [|k]; [reflexivity|]). lia.
Qed.

Lemma strip_opaque (x y : Z) : 0 <= x < 3 -> 0 <= y < 2 -> opaque (strip 0) x y = true.
Proof.
  intros Hx Hy.
  assert (x = 0 \/ x = 1 \/ x = 2) as [->|[->| ->]] by lia;
    assert (y = 0 \/ y = 1) as [->| ->] by lia; reflexivity.
Qed.

Lemma clearRect_clamps_clears_counts_witness :
  wf_png (strip 0) /\ snd (_clearRect (strip 0) 5 (-1) 1 1) = 2.
Proof.
  assert (wf_png (strip 0)) as Hwf by (apply strip_wf; lia).
  split; [exact Hwf|].
  destruct (clearRect_clamps_clears_counts (strip 0) 5 (-1) 1 1 Hwf)
    as (_ & _ & _ & _ & _ & _ & Hcount).
  rewrite Hcount. reflexivity.
Defined.

Lemma clear_counts_each_pixel_once_witness :
  wf_png (strip 0) /\
  snd (_clearRect (fst (_clearRect (strip 0) 0 0 2 1)) 0 0 2 1) = 0.
Proof.
  assert (wf_png (strip 0)) as Hwf by (apply strip_wf; lia).
  split; [exact Hwf|].
  exact (proj1 (clear_counts_each_pixel_once (strip 0) 0 0 2 1 0 0 3 2
                  (mkRect 0 0 0 0) [] Hwf)).
Defined.

Lemma best_is_first_lowest_mismatch_witness :
  exists res,
    getVisualDifferences unit byte_differ shot_diff_name plain_options true
      [("/base/shot.png", strip 5); ("/base/shot~a.png", strip 5);
       ("/base/shot~b.png", strip 3); ("/base/shot~c.png", strip 3)]
      (strip 0) = Ok res /\
    diffPixels <$> variations res = [5; 5; 3; 3] /\
    variations res !! 2%nat = Some (scalars res).
Proof.
  destruct (best_is_first_lowest_mismatch unit byte_differ shot_diff_name
              plain_options true
              [("/base/shot.png", strip 5); ("/base/shot~a.png", strip 5);
               ("/base/shot~b.png", strip 3); ("/base/shot~c.png", strip 3)]
              (strip 0))
    as (res & i & Hrun & _ & Hi & _ & _ & Hfive).
  - done.
  - done.
  - repeat constructor.
  - intros img out. apply byte_differ_le. done.
  - exists res. split; [exact Hrun|].
    assert (diffPixels <$> variations res = [5; 5; 3; 3]) as Hd.
    { vm_compute in Hrun. injection Hrun as <-. reflexivity. }
    split; [exact Hd|]. rewrite <- (Hfive Hd). exact Hi.
Defined.

Lemma row_wf : wf_png (row 0).
Proof. split; [done|]. split; [done|]. vm_compute. reflexivity. Qed.

Lemma difference_rounded_and_compared_witness :
  wf_png (row 0) /\
  (inject_Z (100 * 3) / inject_Z 16000 == 375 # 20000)%Q /\
  exists res e,
    getVisualDifferences unit scan_differ shot_diff_name row_options true
      [("/base/shot.png", row 5)] (row 0) = Ok res /\
    variations res = [e] /\
    diffPixels e = 3 /\
    relevantPixels e = 16000 /\
    difference e = fl (187 # 10000) /\
    match_ e = true.
Proof.
  split; [exact row_wf|]. split; [reflexivity|].
  destruct (difference_rounded_and_compared unit scan_differ shot_diff_name
              row_options true [("/base/shot.png", row 5)] (row 0))
    as (res & Hrun & _ & Hall).
  - exact row_wf.
  - done.
  - done.
  - constructor; [|constructor]. unfold same_size. cbn [snd row width height]. done.
  - reflexivity.
  - intros img1 img2 out a. apply scan_differ_range. done.
  - apply Forall2_cons_inv_l in Hall as (e & es & He & Hes & Hvar).
    apply Forall2_nil_inv_l in Hes as ->.
    destruct He as ([out Hd] & Hrel & Hmatch & Hround).
    assert (diffPixels e = 3) as Hd'
      by (rewrite Hd; unfold scan_differ; cbn [fst]; vm_compute; reflexivity).
    assert (relevantPixels e = 16000) as Hrel'
      by (rewrite Hrel; vm_compute; reflexivity).
    destruct (Hround ltac:(lia)) as ((x & n & Hx & Hn & Hdiff & _) & _).
    rewrite Hd', Hrel' in Hx. vm_compute in Hx. injection Hx as <-.
    vm_compute in Hn. subst n.
    exists res, e.
    split; [exact Hrun|]. split; [exact Hvar|]. split; [exact Hd'|].
    split; [exact Hrel'|]. split; [exact Hdiff|].
    rewrite Hmatch, Hdiff. vm_compute. reflexivity.
Defined.

Lemma first_candidate_may_leave_no_snapshot_witness :
  exists res,
    getVisualDifferences unit byte_differ shot_diff_name plain_options true
      [("/base/shot.png", white)] black = Ok res /\
    match_ (scalars res) = false /\
    diffImage (scalars res) = "Diff_shot.png" /\
    savedDiff res = None.
Proof.
  destruct (first_candidate_may_leave_no_snapshot unit byte_differ shot_diff_name
              plain_options true "/base/shot.png" white black)
    as (res & Hrun & _ & _ & Hnone & Hname).
  - done.
  - done.
  - reflexivity.
  - exists res. split; [exact Hrun|].
    assert (match_ (scalars res) = false) as Hm.
    { vm_compute in Hrun. injection Hrun as <-. reflexivity. }
    split; [exact Hm|]. split; [exact (Hname Hm eq_refl)|exact Hnone].
Defined.

Lemma size_mismatch_is_fatal_witness :
  getVisualDifferences unit byte_differ shot_diff_name plain_options true
    [("/base/shot.png", black); ("/base/shot~wide.png", strip 0)] white
  = Err "Image sizes do not match".
Proof.
  apply (size_mismatch_is_fatal unit byte_differ shot_diff_name plain_options true).
  - apply Exists_cons_tl, Exists_cons_hd. intros [Hw _]. done.
  - done.
Defined.

Lemma bounds_strips_tile_complement_witness :
  snd (_applyBounds (mkRect 1 0 1 2) [] (strip 0)) + 1 * 2 = 3 * 2 /\
  exists res,
    getVisualDifferences unit byte_differ shot_diff_name column_options true
      [("/base/shot.png", strip 5)] (strip 0) = Ok res /\
    relevantPixels (scalars res) = 2.
Proof.
  assert (wf_png (strip 0)) as Hwf by (apply strip_wf; lia).
  destruct (bounds_strips_tile_complement unit byte_differ shot_diff_name
              column_options true [("/base/shot.png", strip 5)] (strip 0) Hwf
              eq_refl ltac:(cbn; lia) ltac:(cbn; lia) ltac:(cbn; lia)
              ltac:(cbn; lia) ltac:(cbn; lia) ltac:(cbn; lia))
    as (_ & _ & _ & Hopaque).
  destruct (Hopaque strip_opaque) as [Harea Hrun].
  split; [exact Harea|].
  destruct Hrun as (res & Hrun & Hrel & _);
    [reflexivity|done|done|repeat constructor|].
  exists res. split; [exact Hrun|exact Hrel].
Defined.

Lemma fully_masked_never_matches_witness :
  exists res,
    getVisualDifferences unit byte_differ shot_diff_name ignore_all_options true
      [("/base/shot.png", strip 5)] (strip 0) = Ok res /\
    difference (scalars res) = NaN /\
    match_ (scalars res) = false.
Proof.
  destruct (fully_masked_never_matches unit byte_differ shot_diff_name
              ignore_all_options true [("/base/shot.png", strip 5)] (strip 0))
    as (res & Hrun & _ & _ & _ & Hnan & Hm).
  - apply strip_wf. lia.
  - repeat constructor; apply strip_wf; lia.
  - done.
  - done.
  - repeat constructor.
  - intros img out w h a. apply byte_differ_same.
  - reflexivity.
  - exists res. split; [exact Hrun|]. split; [exact Hnan|exact Hm].
Defined.

(** * Further properties of the engine *)

Local Close Scope string_scope.

(** ** The mask *)

Lemma existsb_Permutation {A} (f : A -> bool) (l k : list A) :
  l ≡ₚ k -> existsb f l = existsb f k.
Proof.
  induction 1 as [|a l k _ IH|a b l|l k m _ IH1 _ IH2]; simpl.
  - done.
  - by rewrite IH.
  - by rewrite !orb_assoc, (orb_comm (f b)).
  - congruence.
Qed.

Lemma png_eq (png png' : PNG) :
  width png' = width png -> height png' = height png -> data png' = data png ->
  png' = png.
Proof. destruct png, png'. simpl. by intros -> -> ->. Qed.

(** X1. Masking is idempotent: a raster that has been masked is left as it
    is by the same mask, and nothing is counted the second time. *)
Theorem applyBounds_idempotent (b : rect) (ign : list rect) (png : PNG) :
  wf_png png ->
  _applyBounds b ign (fst (_applyBounds b ign png))
  = (fst (_applyBounds b ign png), 0).
Proof.
  intros Hwf.
  destruct (applyBounds_spec b ign png Hwf) as (Hwf1 & Hw1 & Hh1 & Hch1 & _).
  set (png1 := fst (_applyBounds b ign png)) in *.
  destruct (applyBounds_spec b ign png1 Hwf1) as (Hwf2 & Hw2 & Hh2 & Hch2 & _).
  pose proof (applyBounds_count b ign png1 Hwf1) as Hcount.
  rewrite (mask_rects_dims b ign png png1) in Hch2, Hcount by done.
  destruct (_applyBounds b ign png1) as [png2 n]. cbn [fst snd] in *.
  f_equal.
  - apply png_eq; [done|done|]. apply data_ext; try done.
    intros x y c Hx Hy Hc. rewrite Hch2 by done.
    rewrite (covered_dims png png1) by done.
    rewrite Hw1 in Hx. rewrite Hh1 in Hy. rewrite Hch1 by done.
    by destruct (covered png (mask_rects b ign png) x y).
  - rewrite Hcount. apply countb_none.
    intros [x y] Hin%elem_of_cells. cbn [fst snd].
    rewrite Hw1, Hh1 in Hin. rewrite (covered_dims png png1) by done.
    rewrite (opaque_after_mask png png1 (mask_rects b ign png)); try lia.
    + by destruct (opaque png x y), (covered png (mask_rects b ign png) x y).
    + intros c Hc. apply Hch1; lia.
Qed.

(** X2. The order of the ignore regions does not matter: any rearrangement
    of the list gives the same masked raster and the same count. *)
Theorem applyBounds_ignore_order (b : rect) (ign ign' : list rect) (png : PNG) :
  wf_png png -> ign ≡ₚ ign' ->
  _applyBounds b ign png = _applyBounds b ign' png.
Proof.
  intros Hwf Hperm.
  assert (forall x y, covered png (mask_rects b ign png) x y
                      = covered png (mask_rects b ign' png) x y) as Hcov.
  { intros x y. unfold covered, mask_rects. apply existsb_Permutation.
    apply Permutation_app_head, fmap_Permutation, Hperm. }
  destruct (applyBounds_spec b ign png Hwf) as (Hwf1 & Hw1 & Hh1 & Hch1 & _).
  destruct (applyBounds_spec b ign' png Hwf) as (Hwf2 & Hw2 & Hh2 & Hch2 & _).
  pose proof (applyBounds_count b ign png Hwf) as Hc1.
  pose proof (applyBounds_count b ign' png Hwf) as Hc2.
  destruct (_applyBounds b ign png) as [png1 n1].
  destruct (_applyBounds b ign' png) as [png2 n2]. cbn [fst snd] in *.
  f_equal.
  - apply png_eq; [congruence|congruence|].
    apply data_ext; [done|done|congruence|congruence|].
    intros x y c Hx Hy Hc. rewrite Hw2 in Hx. rewrite Hh2 in Hy.
    rewrite Hch1, Hch2, Hcov by done. done.
  - rewrite Hc1, Hc2. apply countb_ext_in. intros [x y] _. cbn [fst snd].
    by rewrite Hcov.
Qed.

Lemma masked_agree_outside (b : rect) (ign : list rect) (img img' : PNG) :
  wf_png img -> wf_png img' ->
  width img' = width img -> height img' = height img ->
  (forall x y c, 0 <= x < width img -> 0 <= y < height img -> 0 <= c < 4 ->
     covered img (mask_rects b ign img) x y = false ->
     channel img' x y c = channel img x y c) ->
  fst (_applyBounds b ign img') = fst (_applyBounds b ign img).
Proof.
  intros Hwf Hwf' Hw Hh Hagree.
  destruct (applyBounds_spec b ign img Hwf) as (Hwf1 & Hw1 & Hh1 & Hch1 & _).
  destruct (applyBounds_spec b ign img' Hwf') as (Hwf2 & Hw2 & Hh2 & Hch2 & _).
  apply png_eq; [congruence|congruence|].
  apply data_ext; [done|done|congruence|congruence|].
  intros x y c Hx Hy Hc. rewrite Hw1 in Hx. rewrite Hh1 in Hy.
  rewrite Hch1 by done. rewrite Hch2 by (rewrite ?Hw, ?Hh; done).
  rewrite (mask_rects_dims b ign img img'), (covered_dims img img') by done.
  destruct (covered img (mask_rects b ign img) x y) eqn:Hcov; [done|].
  by apply Hagree.
Qed.

(** X3. Two rasters of one size that agree on every pixel outside the mask
    are the same raster once masked: what lies under the mask cannot make
    a difference. *)
Theorem applyBounds_agree_outside (b : rect) (ign : list rect) (img img' : PNG) :
  wf_png img -> wf_png img' ->
  width img' = width img -> height img' = height img ->
  (forall x y c, 0 <= x < width img -> 0 <= y < height img -> 0 <= c < 4 ->
     covered img (mask_rects b ign img) x y = false ->
     channel img' x y c = channel img x y c) ->
  fst (_applyBounds b ign img') = fst (_applyBounds b ign img).
Proof. apply masked_agree_outside. Qed.

(** X4. The count of the mask is a count of pixels of the raster: it lies
    between 0 and [width * height]; and on a fully opaque raster what is
    left, [width * height] minus the count, is the number of pixels that
    lie in no cleared rectangle. *)
Theorem applyBounds_count_range (b : rect) (ign : list rect) (png : PNG) :
  wf_png png ->
  0 <= snd (_applyBounds b ign png) <= width png * height png /\
  ((forall x y, 0 <= x < width png -> 0 <= y < height png -> opaque png x y = true) ->
   width png * height png - snd (_applyBounds b ign png)
   = countb (fun c => negb (covered png (mask_rects b ign png) (fst c) (snd c)))
            (cells 0 0 (width png) (height png))).
Proof. apply mask_count_range. Qed.

Lemma applyBounds_idempotent_witness :
  wf_png (strip 2) /\
  _applyBounds (mkRect 1 0 1 2) [mkRect 0 0 2 1]
    (fst (_applyBounds (mkRect 1 0 1 2) [mkRect 0 0 2 1] (strip 2)))
  = (fst (_applyBounds (mkRect 1 0 1 2) [mkRect 0 0 2 1] (strip 2)), 0).
Proof.
  assert (wf_png (strip 2)) as Hwf by (apply strip_wf; lia).
  split; [exact Hwf|]. exact (applyBounds_idempotent _ _ _ Hwf).
Defined.

Lemma applyBounds_ignore_order_witness :
  _applyBounds (mkRect 0 0 0 0) [mkRect 0 0 2 1; mkRect 1 0 2 2] (strip 2)
  = _applyBounds (mkRect 0 0 0 0) [mkRect 1 0 2 2; mkRect 0 0 2 1] (strip 2).
Proof.
  apply applyBounds_ignore_order; [apply strip_wf; lia|]. apply Permutation_swap.
Defined.

Lemma applyBounds_agree_outside_witness :
  fst (_applyBounds (mkRect 0 0 0 0) [mkRect 0 0 3 1; mkRect 0 1 2 1] (strip 5))
  = fst (_applyBounds (mkRect 0 0 0 0) [mkRect 0 0 3 1; mkRect 0 1 2 1] (strip 0)).
Proof.
  apply applyBounds_agree_outside; try (apply strip_wf; lia); try reflexivity.
  intros x y c Hx Hy Hc.
  assert (x = 0 \/ x = 1 \/ x = 2) as [->|[->| ->]] by (cbn in Hx; lia);
    assert (y = 0 \/ y = 1) as [->| ->] by (cbn in Hy; lia);
    try discriminate.
  intros _.
  assert (c = 0 \/ c = 1 \/ c = 2 \/ c = 3) as [->|[->|[->| ->]]] by lia;
    reflexivity.
Defined.

Lemma applyBounds_count_range_witness :
  wf_png (strip 0) /\
  0 <= snd (_applyBounds (mkRect 1 0 1 2) [mkRect 0 0 2 1] (strip 0)) <= 3 * 2.
Proof.
  assert (wf_png (strip 0)) as Hwf by (apply strip_wf; lia).
  split; [exact Hwf|].
  exact (proj1 (applyBounds_count_range (mkRect 1 0 1 2) [mkRect 0 0 2 1] (strip 0) Hwf)).
Defined.

(** ** The comparator *)

Section ComparatorExtras.

Variable args_t : Type.
Variable pixelmatch : list Z -> list Z -> list Z -> Z -> Z -> args_t -> Z * list Z.
Variable diffFileName : nat -> string.
Variable opts : options args_t.
Variable diffEnabled : bool.

Local Abbreviation compare := (compare_candidate args_t pixelmatch diffFileName opts diffEnabled).
Local Abbreviation loop := (candidate_loop args_t pixelmatch diffFileName opts diffEnabled).
Local Abbreviation gvd := (getVisualDifferences args_t pixelmatch diffFileName opts diffEnabled).
Local Abbreviation inv := (loop_inv pixelmatch diffFileName opts diffEnabled).

Lemma compare_candidate_inv (imgActual : PNG) (total ignored : Z)
    (seen : list (string * PNG)) (st : loop_state) (cand : string * PNG) :
  same_size imgActual cand -> inv imgActual seen st ->
  exists st',
    compare imgActual total ignored st (length seen) cand = Ok st' /\
    inv imgActual (seen ++ [cand]) st'.
Proof.
  destruct cand as [path img]. intros [Hw Hh] (Hlen & Hdw & Hdh & Hpos & Hsnap).
  cbn [snd] in Hw, Hh.
  unfold compare_candidate. rewrite Hw, Hh, !Z.eqb_refl. cbn [negb orb].
  destruct (pixelmatch _ _ _ _ _ _) as [n out] eqn:Hpm.
  set (m := js_le (toFixed4 (js_div (js_mul (Num 100) (js_int n))
                                     (js_int (total - ignored)))) (tolerance opts)).
  set (e := {| diffPixels := n; totalPixels := total;
               relevantPixels := total - ignored;
               difference := toFixed4 (js_div (js_mul (Num 100) (js_int n))
                                               (js_int (total - ignored)));
               match_ := m; variation := variation_of path;
               diffImage := if negb m && diffEnabled
                            then diffFileName (length seen) else ""%string |}).
  assert (forall j e', (results st ++ [e]) !! j = Some e' ->
            diffImage e' = (if negb (match_ e') && diffEnabled
                            then diffFileName j else EmptyString) /\
            exists c, (seen ++ [(path, img)]) !! j = Some c /\
                      variation e' = variation_of (fst c)) as Hpos'.
  { intros j e' [Hj|[Hj He']]%lookup_app_Some.
    - destruct (Hpos j e' Hj) as (Hd & c & Hc & Hv). split; [done|].
      exists c. split; [by apply lookup_app_l_Some|done].
    - apply list_lookup_singleton_Some in He' as [Hj0 <-].
      assert (j = length seen) as -> by lia. split; [reflexivity|].
      exists (path, img). split; [|reflexivity].
      rewrite lookup_app_r by lia. by rewrite Nat.sub_diag. }
  destruct (n <? bestDifference st); eexists; (split; [reflexivity|]);
    unfold loop_inv; cbn [results imgDiff bestImgDiff bestIndex width height];
    (split; [rewrite !length_app; simpl; lia|]);
    (split; [done|]); (split; [done|]); (split; [exact Hpos'|]).
  - intros s [= <-]. exists (path, img), e.
    split; [rewrite lookup_app_r by lia; by rewrite Nat.sub_diag|].
    split; [rewrite lookup_app_r by lia; by rewrite Hlen, Nat.sub_diag|].
    exists (data (imgDiff st)). cbn [snd diffPixels e].
    rewrite Hpm. cbn [fst snd]. unfold PNG_sync_write. by rewrite Hdw, Hdh.
  - intros s Hs. destruct (Hsnap s Hs) as (c & e' & Hc & He' & Hof).
    exists c, e'. split; [by apply lookup_app_l_Some|].
    split; [by apply lookup_app_l_Some|done].
Qed.

Lemma candidate_loop_inv (imgActual : PNG) (total ignored : Z)
    (cands : list (string * PNG)) :
  Forall (same_size imgActual) cands ->
  forall seen st, inv imgActual seen st ->
  exists st',
    loop imgActual total ignored cands (length seen) st = Ok st' /\
    inv imgActual (seen ++ cands) st'.
Proof.
  induction 1 as [|cand cands Hsize _ IH]; intros seen st Hinv.
  { exists st. by rewrite app_nil_r. }
  destruct (compare_candidate_inv imgActual total ignored seen st cand Hsize Hinv)
    as (st1 & Hstep & Hinv1).
  destruct (IH (seen ++ [cand]) st1 Hinv1) as (st' & Hloop & Hinv').
  exists st'. simpl. rewrite Hstep.
  rewrite length_app in Hloop. simpl in Hloop.
  replace (S (length seen)) with (length seen + 1)%nat by lia.
  split; [exact Hloop|]. by rewrite <- app_assoc in Hinv'.
Qed.

(** The run of the comparison once more, with what the loop keeps about
    positions. *)
Lemma getVisualDifferences_inv (cands : list (string * PNG)) (imgActual : PNG) :
  cands <> [] -> height imgActual <> 0 -> Forall (same_size imgActual) cands ->
  exists st best,
    gvd cands imgActual
    = Ok {| scalars := best;
            variations := results st;
            savedDiff :=
              if negb (match_ best) && diffEnabled then
                match bestImgDiff st with
                | Some snapshot => Some (variation best, snapshot)
                | None => None
                end
              else None |} /\
    results st !! bestIndex st = Some best /\
    inv (fst (_applyBounds (bounds opts) (ignore opts) imgActual)) cands st.
Proof.
  intros Hne Hh Hsize.
  destruct (getVisualDifferences_ok args_t pixelmatch diffFileName opts diffEnabled
              cands imgActual Hne Hh Hsize) as (st0 & best0 & Hrun0 & _).
  unfold getVisualDifferences in *.
  destruct (length cands =? 0)%nat; [done|].
  destruct (height imgActual =? 0); [done|].
  destruct (applyBounds_dims (bounds opts) (ignore opts) imgActual) as [Hw' Hh'].
  destruct (_applyBounds (bounds opts) (ignore opts) imgActual)
    as [imgActual' ignored]. cbn [fst snd] in *.
  assert (Forall (same_size imgActual') cands) as Hsize'.
  { eapply Forall_impl; [exact Hsize|]. intros c [? ?]. split; congruence. }
  set (st0' := {| results := []; bestIndex := 0;
                  bestDifference := width imgActual * height imgActual;
                  bestImgDiff := None;
                  imgDiff := new_PNG (width imgActual) (height imgActual) |}) in *.
  assert (inv imgActual' [] st0') as Hinv0.
  { unfold loop_inv, st0'.
    cbn [results imgDiff bestImgDiff bestIndex new_PNG width height length].
    split_and!; done. }
  destruct (candidate_loop_inv imgActual' (width imgActual * height imgActual)
              ignored cands Hsize' [] st0' Hinv0) as (st & Hloop & Hinv).
  cbn [length app] in Hloop, Hinv. rewrite Hloop in *.
  destruct (results st !! bestIndex st) as [best|] eqn:Hbest; [|done].
  exists st, best. by split_and!.
Qed.

Lemma getVisualDifferences_mismatch (cands : list (string * PNG)) (imgActual : PNG) :
  cands <> [] -> height imgActual <> 0 ->
  Exists (fun c => ~ same_size imgActual c) cands ->
  gvd cands imgActual = Err "Image sizes do not match"%string.
Proof.
  intros Hne Hh Hex. unfold getVisualDifferences.
  destruct cands as [|c0 cands0] eqn:Hc; [done|]. rewrite <- Hc in *.
  assert ((length cands =? 0)%nat = false) as -> by (rewrite Hc; done).
  destruct (Z.eqb_spec (height imgActual) 0) as [|_]; [done|].
  destruct (applyBounds_dims (bounds opts) (ignore opts) imgActual) as [Hw' Hh'].
  destruct (_applyBounds (bounds opts) (ignore opts) imgActual)
    as [imgActual' ignored]. cbn [fst] in Hw', Hh'.
  rewrite candidate_loop_mismatch; [done|].
  eapply Exists_impl; [exact Hex|]. intros c Hc' [? ?]. apply Hc'.
  split; congruence.
Qed.

Lemma getVisualDifferences_Ok_inv (cands : list (string * PNG)) (imgActual : PNG)
    (res : comparison) :
  gvd cands imgActual = Ok res ->
  cands <> [] /\ height imgActual <> 0 /\ Forall (same_size imgActual) cands.
Proof.
  intros Hres.
  destruct cands as [|c0 cands0] eqn:Hc; [done|]. rewrite <- Hc in *.
  assert (cands <> []) as Hne by (rewrite Hc; done).
  destruct (Z.eq_dec (height imgActual) 0) as [H0|Hn0].
  { unfold getVisualDifferences in Hres. rewrite Hc in Hres. simpl in Hres.
    by rewrite H0 in Hres. }
  split_and!; try done.
  apply Forall_forall. intros c Hin.
  destruct (same_size_dec imgActual c) as [|Hbad]; [done|].
  rewrite getVisualDifferences_mismatch in Hres; [done..|].
  apply Exists_exists. eauto.
Qed.

(** X5. What a result presupposes.  Without a candidate the comparison
    fails with ["No expected base image found"], whatever the actual
    image is; and whenever it returns a result, there is a candidate, the
    height of the actual image is not 0 and every candidate has the size
    of the actual image. *)
Theorem getVisualDifferences_result_conditions
    (cands : list (string * PNG)) (imgActual : PNG) :
  (cands = [] -> gvd cands imgActual = Err "No expected base image found"%string) /\
  (forall res, gvd cands imgActual = Ok res ->
     cands <> [] /\ height imgActual <> 0 /\ Forall (same_size imgActual) cands).
Proof.
  split.
  - by intros ->.
  - apply getVisualDifferences_Ok_inv.
Qed.

(** X6. The result lists one record per candidate, in the order of the
    candidates and with their labels; a record names a diff image exactly
    when it does not match and diff images are enabled, and then it is the
    diff file name of its index; a diff image is saved at most for a best
    candidate that does not match, under the label of that candidate. *)
Theorem getVisualDifferences_records (cands : list (string * PNG)) (imgActual : PNG) :
  cands <> [] -> height imgActual <> 0 -> Forall (same_size imgActual) cands ->
  exists res,
    gvd cands imgActual = Ok res /\
    variation <$> variations res = (fun c => variation_of (fst c)) <$> cands /\
    (forall j e, variations res !! j = Some e ->
       diffImage e = (if negb (match_ e) && diffEnabled
                      then diffFileName j else EmptyString)) /\
    (match_ (scalars res) = true \/ diffEnabled = false -> savedDiff res = None) /\
    (forall label snapshot, savedDiff res = Some (label, snapshot) ->
       label = variation (scalars res)).
Proof.
  intros Hne Hh Hsize.
  destruct (getVisualDifferences_inv cands imgActual Hne Hh Hsize)
    as (st & best & Hrun & Hbest & Hlen & _ & _ & Hpos & _).
  eexists. split; [exact Hrun|]. cbn [scalars variations savedDiff].
  split_and!.
  - apply (list_eq_same_length _ _ (length cands)); [by rewrite length_fmap..|].
    intros j a b Hj Ha Hb. rewrite list_lookup_fmap in Ha.
    rewrite list_lookup_fmap in Hb.
    destruct (results st !! j) as [e|] eqn:He; [|done].
    destruct (Hpos j e He) as (_ & c & Hc & Hv).
    rewrite Hc in Hb. simpl in Ha, Hb. congruence.
  - intros j e He. by destruct (Hpos j e He).
  - intros [->| ->]; [done|]. by rewrite andb_false_r.
  - intros label snapshot Hs.
    destruct (negb (match_ best) && diffEnabled); [|done].
    destruct (bestImgDiff st); [|done]. by injection Hs as <- _.
Qed.

(** X7. The diff image that is saved is the raster the differ produced for
    the best candidate itself, in the call that counted its mismatches:
    later candidates, which write to the same diff raster, do not change
    it. *)
Theorem saved_diff_is_best_candidates
    (cands : list (string * PNG)) (imgActual : PNG) (res : comparison)
    (label : string) (snapshot : PNG) :
  gvd cands imgActual = Ok res ->
  savedDiff res = Some (label, snapshot) ->
  match_ (scalars res) = false /\
  exists i cand,
    cands !! i = Some cand /\
    variations res !! i = Some (scalars res) /\
    label = variation_of (fst cand) /\
    snapshot_of pixelmatch opts
      (fst (_applyBounds (bounds opts) (ignore opts) imgActual))
      cand (scalars res) snapshot.
Proof.
  intros Hres Hsaved.
  destruct (getVisualDifferences_Ok_inv cands imgActual res Hres)
    as (Hne & Hh & Hsize).
  destruct (getVisualDifferences_inv cands imgActual Hne Hh Hsize)
    as (st & best & Hrun & Hbest & _ & _ & _ & Hpos & Hsnap).
  rewrite Hrun in Hres. injection Hres as <-. cbn [scalars variations savedDiff] in *.
  destruct (match_ best) eqn:Hm; [done|]. split; [done|].
  destruct diffEnabled; [|done]. cbn [negb andb] in Hsaved.
  destruct (bestImgDiff st) as [s|] eqn:Hs; [|done]. injection Hsaved as <- <-.
  destruct (Hsnap s eq_refl) as (c & e & Hc & He & Hof).
  assert (e = best) as -> by congruence.
  destruct (Hpos _ _ Hbest) as (_ & c' & Hc' & Hv).
  assert (c' = c) as -> by congruence.
  exists (bestIndex st), c. by split_and!.
Qed.

Lemma percent_zero (r : Z) :
  0 < r -> toFixed4 (js_div (js_mul (Num 100) (js_int 0)) (js_int r)) = Num 0.
Proof.
  intros Hr. change (js_mul (Num 100) (js_int 0)) with (Num 0).
  unfold js_div, js_int.
  destruct (Qeq_bool (inject_Z r) 0) eqn:Hr0.
  { apply Qeq_bool_iff in Hr0.
    assert (0 < inject_Z r)%Q
      by (change 0%Q with (inject_Z 0); rewrite <- Zlt_Qlt; lia).
    lra. }
  rewrite fl_zero; [reflexivity|]. unfold Qdiv. apply Qmult_0_l.
Qed.

Lemma no_mismatch_matches (r : Z) (tol : jsnum) :
  0 < r -> js_le (Num 0) tol = true ->
  js_eq (toFixed4 (js_div (js_mul (Num 100) (js_int 0)) (js_int r))) (Num 0) = true /\
  js_le (toFixed4 (js_div (js_mul (Num 100) (js_int 0)) (js_int r))) tol = true.
Proof.
  intros Hr Htol. rewrite percent_zero by done. by split.
Qed.

(** X8. Differences that lie under the mask do not count.  If one candidate
    agrees with the actual image on every pixel outside the mask (an
    identical candidate does), some pixel is relevant and the tolerance
    is a number [>= 0], the comparison matches with no mismatched pixel
    and difference 0, whatever the other candidates are, and saves no
    diff image.  The differ reports no mismatch between equal buffers and
    never a negative count. *)
Theorem differences_under_mask_pass
    (cands : list (string * PNG)) (imgActual : PNG) (cand : string * PNG) :
  wf_png imgActual -> wf_png (snd cand) -> cand ∈ cands ->
  height imgActual <> 0 -> Forall (same_size imgActual) cands ->
  (forall x y c, 0 <= x < width imgActual -> 0 <= y < height imgActual ->
     0 <= c < 4 ->
     covered imgActual (mask_rects (bounds opts) (ignore opts) imgActual) x y = false ->
     channel (snd cand) x y c = channel imgActual x y c) ->
  (forall img1 img2 out w h a, 0 <= fst (pixelmatch img1 img2 out w h a)) ->
  (forall img out w h a, fst (pixelmatch img img out w h a) = 0) ->
  snd (_applyBounds (bounds opts) (ignore opts) imgActual)
  < width imgActual * height imgActual ->
  js_le (Num 0) (tolerance opts) = true ->
  exists res,
    gvd cands imgActual = Ok res /\
    diffPixels (scalars res) = 0 /\
    js_eq (difference (scalars res)) (Num 0) = true /\
    match_ (scalars res) = true /\
    savedDiff res = None.
Proof.
  intros Hwf Hwfc Hin Hh Hsize Hagree Hnonneg Hsame Hrel Htol.
  assert (cands <> []) as Hne by (intros ->; by apply elem_of_nil in Hin).
  destruct (getVisualDifferences_ok args_t pixelmatch diffFileName opts diffEnabled
              cands imgActual Hne Hh Hsize)
    as (st & best & Hrun & Hbest & [Hmin Hcase] & Hoks & Hfrom).
  pose proof (mask_count_range (bounds opts) (ignore opts) imgActual Hwf)
    as [[Hc0 _] _].
  (* the record of the agreeing candidate has no mismatch *)
  apply list_elem_of_lookup in Hin as [k Hk].
  destruct (Forall2_lookup_l _ _ _ _ _ Hfrom Hk) as (ek & Hek & _ & out & Hdk).
  rewrite Forall_lookup in Hsize. destruct (Hsize _ _ Hk) as [Hcw Hch].
  rewrite (masked_agree_outside _ _ imgActual (snd cand)) in Hdk by done.
  rewrite Hsame in Hdk.
  (* neither has the best one *)
  assert (diffPixels best = 0) as Hd0.
  { destruct (Forall2_lookup_r _ _ _ _ _ Hfrom Hbest) as (cb & _ & _ & outb & Hdb).
    assert (0 <= diffPixels best) as Hge by (rewrite Hdb; apply Hnonneg).
    pose proof (Hmin _ _ Hek) as Hlow.
    destruct Hcase as [(Heq & _ & _)|(_ & _ & e' & He' & Hd & _)]; [lia|].
    assert (e' = best) as -> by congruence. lia. }
  rewrite Forall_lookup in Hoks.
  destruct (Hoks _ _ Hbest) as (_ & Hrelp & Hdiff & Hmatch).
  rewrite Hd0 in Hdiff.
  destruct (no_mismatch_matches (relevantPixels best) (tolerance opts)) as [Hz Hm];
    [lia|done|].
  rewrite <- Hdiff in Hz, Hm. rewrite <- Hmatch in Hm.
  eexists. split; [exact Hrun|]. cbn [scalars savedDiff].
  split_and!; try done. by rewrite Hm.
Qed.

(** X9. The pixel counts of the records: every record carries the number of
    pixels of the actual image as its total, and its relevant pixel count
    is that total minus the count of the mask on the actual image, between
    0 and the total. *)
Theorem records_pixel_counts (cands : list (string * PNG)) (imgActual : PNG) :
  wf_png imgActual ->
  cands <> [] -> height imgActual <> 0 -> Forall (same_size imgActual) cands ->
  exists res,
    gvd cands imgActual = Ok res /\
    scalars res ∈ variations res /\
    Forall (fun e =>
      totalPixels e = width imgActual * height imgActual /\
      relevantPixels e
      = width imgActual * height imgActual
        - snd (_applyBounds (bounds opts) (ignore opts) imgActual) /\
      0 <= relevantPixels e <= totalPixels e) (variations res).
Proof.
  intros Hwf Hne Hh Hsize.
  destruct (getVisualDifferences_ok args_t pixelmatch diffFileName opts diffEnabled
              cands imgActual Hne Hh Hsize)
    as (st & best & Hrun & Hbest & _ & Hoks & _).
  pose proof (mask_count_range (bounds opts) (ignore opts) imgActual Hwf)
    as [Hrange _].
  eexists. split; [exact Hrun|]. cbn [scalars variations].
  split; [by eapply list_elem_of_lookup_2|].
  eapply Forall_impl; [exact Hoks|]. intros e (Ht & Hr & _). lia.
Qed.

End ComparatorExtras.

Lemma byte_differ_nonneg {args_t : Type} (img1 img2 out : list Z) (w h : Z) (a : args_t) :
  0 <= fst (byte_differ img1 img2 out w h a).
Proof. unfold byte_differ. cbn [fst]. apply countb_nonneg. Qed.

Local Open Scope string_scope.

Lemma getVisualDifferences_records_witness :
  exists res,
    getVisualDifferences unit byte_differ shot_diff_name plain_options true
      [("/base/shot.png", strip 5); ("/base/shot~b.png", strip 0)] (strip 0)
    = Ok res /\
    variation <$> variations res = [""; "b"] /\
    diffImage <$> variations res = ["Diff_shot.png"; ""].
Proof.
  destruct (getVisualDifferences_records unit byte_differ shot_diff_name
              plain_options true
              [("/base/shot.png", strip 5); ("/base/shot~b.png", strip 0)] (strip 0))
    as (res & Hrun & Hlabels & _); [done|done|repeat constructor|].
  exists res. split; [exact Hrun|]. split; [exact Hlabels|].
  vm_compute in Hrun. injection Hrun as <-. reflexivity.
Defined.

Lemma saved_diff_is_best_candidates_witness :
  exists res label snapshot,
    getVisualDifferences unit byte_differ shot_diff_name plain_options true
      [("/base/shot.png", strip 5); ("/base/shot~b.png", strip 3)] (strip 0)
    = Ok res /\
    savedDiff res = Some (label, snapshot) /\
    match_ (scalars res) = false.
Proof.
  destruct (getVisualDifferences unit byte_differ shot_diff_name plain_options true
              [("/base/shot.png", strip 5); ("/base/shot~b.png", strip 3)] (strip 0))
    as [res|msg] eqn:Hrun; [|vm_compute in Hrun; discriminate].
  destruct (savedDiff res) as [[label snapshot]|] eqn:Hsaved;
    [|vm_compute in Hrun; injection Hrun as <-; discriminate].
  exists res, label, snapshot. split; [reflexivity|]. split; [exact Hsaved|].
  exact (proj1 (saved_diff_is_best_candidates unit byte_differ shot_diff_name
                  plain_options true _ _ res label snapshot Hrun Hsaved)).
Defined.

Lemma differences_under_mask_pass_witness :
  exists res,
    getVisualDifferences unit byte_differ shot_diff_name corner_options true
      [("/base/shot.png", strip 5)] (strip 0) = Ok res /\
    diffPixels (scalars res) = 0 /\ match_ (scalars res) = true.
Proof.
  destruct (differences_under_mask_pass unit byte_differ shot_diff_name
              corner_options true [("/base/shot.png", strip 5)] (strip 0)
              ("/base/shot.png", strip 5))
    as (res & Hrun & Hd & _ & Hm & _).
  - apply strip_wf. lia.
  - apply strip_wf. lia.
  - by left.
  - done.
  - repeat constructor.
  - intros x y c Hx Hy Hc.
    assert (x = 0 \/ x = 1 \/ x = 2) as [->|[->| ->]] by (cbn in Hx; lia);
      assert (y = 0 \/ y = 1) as [->| ->] by (cbn in Hy; lia);
      try discriminate.
    intros _.
    assert (c = 0 \/ c = 1 \/ c = 2 \/ c = 3) as [->|[->|[->| ->]]] by lia;
      reflexivity.
  - intros. apply byte_differ_nonneg.
  - intros. apply byte_differ_same.
  - vm_compute. reflexivity.
  - reflexivity.
  - exists res. by split_and!.
Defined.

Lemma records_pixel_counts_witness :
  exists res,
    getVisualDifferences unit byte_differ shot_diff_name corner_options true
      [("/base/shot.png", strip 5)] (strip 0) = Ok res /\
    0 <= relevantPixels (scalars res) <= totalPixels (scalars res).
Proof.
  destruct (records_pixel_counts unit byte_differ shot_diff_name corner_options true
              [("/base/shot.png", strip 5)] (strip 0))
    as (res & Hrun & Hin & Hall);
    [apply strip_wf; lia|done|done|repeat constructor|].
  exists res. split; [exact Hrun|].
  rewrite Forall_forall in Hall. by destruct (Hall _ Hin) as (_ & _ & ?).
Defined.

Local Close Scope string_scope.

(** ** The constructor's clamps *)

Ltac qle_bool_facts :=
  repeat match goal with
  | H : Qle_bool _ _ = true |- _ => apply Qle_bool_iff in H
  | H : Qle_bool ?a ?b = false |- _ =>
      assert (~ (a <= b)%Q) by (rewrite <- Qle_bool_iff; congruence); clear H
  end.

Lemma js_clamp_range (hi : Q) (t : jsnum) :
  (0 <= hi)%Q -> t <> NaN ->
  js_le (Num 0) (js_min (Num hi) (js_max (Num 0) t)) = true /\
  js_le (js_min (Num hi) (js_max (Num 0) t)) (Num hi) = true.
Proof.
  intros Hhi Hnan. destruct t as [| | |q]; [done|cbn [js_max js_le]..].
  - cbn [js_min js_le]. split; apply Qle_bool_iff; lra.
  - cbn [js_min js_le]. destruct (Qle_bool hi 0) eqn:H1; cbn [js_le];
      qle_bool_facts; split; apply Qle_bool_iff; lra.
  - destruct (Qle_bool 0 q) eqn:H1; cbn [js_min js_le];
      match goal with |- context [Qle_bool hi ?x] =>
        destruct (Qle_bool hi x) eqn:H2 end;
      cbn [js_le]; qle_bool_facts; split; apply Qle_bool_iff; lra.
Qed.

Lemma js_clamp_inside (hi : Q) (q : Q) :
  (0 <= q <= hi)%Q -> js_eq (js_min (Num hi) (js_max (Num 0) (Num q))) (Num q) = true.
Proof.
  intros [H0 Hq]. cbn [js_max js_le]. apply Qle_bool_iff in H0. rewrite H0.
  cbn [js_min js_le].
  destruct (Qle_bool hi q) eqn:Hle; cbn [js_eq]; apply Qeq_bool_iff.
  - apply Qle_bool_iff in Hle. lra.
  - reflexivity.
Qed.

(** X10. The constructor keeps the engine-wide tolerance within [[0, 100]] and
    the engine-wide threshold within [[0, 1]], whatever number is
    configured (also an infinite one), and does not change a configured
    value that lies in the interval; a comparison without a tolerance of
    its own runs with the engine-wide one. *)
Theorem constructor_clamps {args_t : Type} (t : jsnum) (d : args_t)
    (o : raw_options args_t) :
  t <> NaN ->
  (js_le (Num 0) (constructor_globalTolerance (Some t)) = true /\
   js_le (constructor_globalTolerance (Some t)) (Num 100) = true) /\
  (js_le (Num 0) (constructor_globalThreshold (Some t)) = true /\
   js_le (constructor_globalThreshold (Some t)) (Num 1) = true) /\
  (forall q, t = Num q -> (0 <= q <= 100)%Q ->
     js_eq (constructor_globalTolerance (Some t)) t = true) /\
  (forall q, t = Num q -> (0 <= q <= 1)%Q ->
     js_eq (constructor_globalThreshold (Some t)) t = true) /\
  tolerance (_setupTest (constructor_globalTolerance (Some t)) d None)
  = constructor_globalTolerance (Some t) /\
  (o_tolerance o = None ->
   tolerance (_setupTest (constructor_globalTolerance (Some t)) d (Some o))
   = constructor_globalTolerance (Some t)).
Proof.
  intros Hnan. unfold constructor_globalTolerance, constructor_globalThreshold.
  split; [apply js_clamp_range; [lra|done]|].
  split; [apply js_clamp_range; [lra|done]|].
  split; [intros q -> Hq; by apply js_clamp_inside|].
  split; [intros q -> Hq; by apply js_clamp_inside|].
  split; [reflexivity|]. intros Ho. unfold _setupTest. cbn [tolerance]. by rewrite Ho.
Qed.

Lemma constructor_clamps_witness :
  constructor_globalTolerance (Some PosInf) = Num 100 /\
  js_le (constructor_globalTolerance (Some PosInf)) (Num 100) = true.
Proof.
  split; [reflexivity|].
  exact (proj2 (proj1 (constructor_clamps PosInf tt
                         (mkRaw None None None [] None) ltac:(discriminate)))).
Defined.

(** ** Image and file names *)

Local Open Scope string_scope.

Lemma string_append_assoc (a b c : string) :
  String.append (String.append a b) c = String.append a (String.append b c).
Proof. induction a as [|x a IH]; simpl; [done|by rewrite IH]. Qed.

Lemma string_append_nil_r (a : string) : String.append a "" = a.
Proof. induction a as [|x a IH]; simpl; [done|by rewrite IH]. Qed.

Lemma substring_short (s : string) :
  (String.length s <= 4)%nat -> substring 0 4 s = s.
Proof.
  destruct s as [|c1 [|c2 [|c3 [|c4 [|c5 s]]]]]; simpl; try done. lia.
Qed.

Lemma last4_cons (c : ascii) (s : string) :
  (4 <= String.length s)%nat -> last4 (String c s) = last4 s.
Proof.
  intros Hlen. unfold last4. simpl String.length.
  replace (S (String.length s) - 4)%nat with (S (String.length s - 4)) by lia.
  reflexivity.
Qed.

Lemma last4_append_png (a : string) : last4 (String.append a ".png") = ".png".
Proof.
  induction a as [|c a IH]; [reflexivity|].
  change (String.append (String c a) ".png") with (String c (String.append a ".png")).
  rewrite last4_cons; [done|]. rewrite string_length_append. simpl. lia.
Qed.

Lemma last4_png_inv (s : string) :
  last4 s = ".png" -> exists a, s = String.append a ".png".
Proof.
  induction s as [|c s IH]; [done|].
  destruct (le_lt_dec 4 (String.length s)) as [Hlong|Hshort].
  - rewrite last4_cons by done. intros [a ->]%IH. by exists (String c a).
  - unfold last4. simpl String.length.
    replace (S (String.length s) - 4)%nat with 0%nat by lia.
    rewrite substring_short by (simpl; lia). intros ->. by exists "".
Qed.

Lemma split_seps_png (a : string) :
  exists init l,
    split_seps (String.append a ".png") = (init ++ [String.append l ".png"])%list.
Proof.
  induction a as [|c a (init & l & IH)].
  - by exists [], "".
  - simpl. rewrite IH. destruct (is_path_sep c).
    + by exists ("" :: init), l.
    + destruct init as [|h init]; simpl.
      * by exists [], (String c l).
      * by exists (String c h :: init), l.
Qed.

Lemma prefix_last_snoc (p x : string) (init : list string) :
  prefix_last p (init ++ [x])%list = (init ++ [String.append p x])%list.
Proof.
  induction init as [|h init IH]; [done|]. simpl. rewrite IH.
  by destruct (init ++ [x])%list eqn:E; [destruct init|].
Qed.

Lemma join_snoc (sep x : string) (init : list string) :
  exists pre, join sep (init ++ [x])%list = String.append pre x.
Proof.
  induction init as [|h init (pre & IH)]; [by exists ""|].
  simpl. rewrite IH. destruct (init ++ [x])%list eqn:E; [by destruct init|].
  exists (String.append h (String.append sep pre)).
  by rewrite !string_append_assoc.
Qed.

(** X11. Every file name [_getFileName] builds ends in [".png"], for every
    image name, role and suffix. *)
Theorem getFileName_ends_png (env : naming) (which suffix : string) :
  exists stem, _getFileName env which suffix = String.append stem ".png".
Proof.
  unfold _getFileName.
  set (f0 := if String.eqb "expected" which && negb (String.eqb (compareWith env) "")
             then compareWith env else imageName env).
  set (f1 := if negb (String.eqb ".png" (last4 f0)) then String.append f0 ".png" else f0).
  assert (exists a, f1 = String.append a ".png") as [a1 Hf1].
  { unfold f1. destruct (String.eqb_spec ".png" (last4 f0)) as [Heq|_]; simpl.
    - by apply last4_png_inv.
    - by exists f0. }
  set (f2 := if String.eqb "diff" which
             then join (path_sep env)
                       (prefix_last (globalDiffPrefix env) (split_seps f1))
             else f1).
  assert (exists a, f2 = String.append a ".png") as [a2 Hf2].
  { unfold f2. destruct (String.eqb "diff" which); [|by exists a1].
    rewrite Hf1. destruct (split_seps_png a1) as (init & l & ->).
    rewrite prefix_last_snoc.
    destruct (join_snoc (path_sep env)
                (String.append (globalDiffPrefix env) (String.append l ".png")) init)
      as [pre ->].
    exists (String.append pre (String.append (globalDiffPrefix env) l)).
    by rewrite !string_append_assoc. }
  destruct (negb (String.eqb suffix "")); [|by exists a2].
  eexists. rewrite <- !string_append_assoc. reflexivity.
Qed.

Lemma split_seps_no_sep (b : string) : no_sep b = true -> split_seps b = [b].
Proof.
  induction b as [|c b IH]; [done|]. simpl.
  intros [Hc Hb]%andb_true_iff. apply negb_true_iff in Hc. by rewrite Hc, IH.
Qed.

Lemma split_seps_dir (d b : string) :
  no_sep b = true ->
  split_seps (String.append d (String "/" b)) = (split_seps d ++ [b])%list.
Proof.
  intros Hb. induction d as [|c d IH]; simpl.
  - by rewrite split_seps_no_sep.
  - rewrite IH. destruct (is_path_sep c); [done|].
    destruct (split_seps d) eqn:E; [|done].
    by destruct d; [|simpl in E; destruct (is_path_sep _), (split_seps d)].
Qed.

Lemma split_seps_not_nil (s : string) : split_seps s <> [].
Proof.
  destruct s as [|c s]; simpl; [done|].
  destruct (is_path_sep c); [done|]. by destruct (split_seps s).
Qed.

Lemma join_split_slash (d : string) :
  contains "\"%char d = false -> join "/" (split_seps d) = d.
Proof.
  induction d as [|c d IH]; [done|]. simpl.
  intros [Hc Hd]%orb_false_iff. specialize (IH Hd).
  unfold is_path_sep. rewrite Hc, orb_false_r.
  pose proof (split_seps_not_nil d) as Hne.
  destruct (Ascii.eqb_spec c "/"%char) as [->|_].
  - simpl. destruct (split_seps d) eqn:E; [done|]. by rewrite IH.
  - destruct (split_seps d) as [|h t] eqn:E; [done|].
    simpl in *. destruct t; [by rewrite IH|]. by rewrite <- IH.
Qed.

Lemma join_slash_snoc (l : list string) (x : string) :
  l <> [] ->
  join "/" (l ++ [x])%list = String.append (join "/" l) (String "/" x).
Proof.
  induction l as [|h l IH]; [done|]. intros _. destruct l as [|h' l].
  - reflexivity.
  - change (join "/" ((h :: h' :: l) ++ [x])%list)
      with (String.append h (String.append "/" (join "/" ((h' :: l) ++ [x])%list))).
    rewrite IH by done.
    change (join "/" (h :: h' :: l))
      with (String.append h (String.append "/" (join "/" (h' :: l)))).
    by rewrite !string_append_assoc.
Qed.

(** X12. The diff file of an image in a sub-directory: with ['/'] as the path
    separator, the directory part is kept and the prefix goes in front of
    the last segment, which gets the extension. *)
Theorem getFileName_diff_in_directory (env : naming) (d b : string) :
  imageName env = String.append d (String "/" b) ->
  last4 (imageName env) <> ".png" ->
  no_sep b = true -> contains "\"%char d = false -> path_sep env = "/" ->
  _getFileName env "diff" ""
  = String.append d (String "/" (String.append (globalDiffPrefix env)
                                   (String.append b ".png"))).
Proof.
  intros Hname Hext Hb Hd Hsep. unfold _getFileName.
  change (String.eqb "expected" "diff") with false.
  change (String.eqb "diff" "diff") with true.
  change (String.eqb "" "") with true. cbn [andb negb].
  destruct (String.eqb_spec ".png" (last4 (imageName env))) as [Heq|_];
    [by symmetry in Heq|]. cbn [negb].
  rewrite Hname, Hsep, string_append_assoc.
  change (String.append (String "/" b) ".png") with (String "/" (String.append b ".png")).
  assert (no_sep (String.append b ".png") = true) as Hb'.
  { clear -Hb. induction b as [|c b IH]; [done|]. simpl in *.
    apply andb_true_iff in Hb as [-> Hb]. by rewrite IH. }
  rewrite split_seps_dir, prefix_last_snoc by done.
  rewrite join_slash_snoc by apply split_seps_not_nil.
  by rewrite join_split_slash.
Qed.

Lemma getFileName_diff_in_directory_witness :
  _getFileName (mkNaming "" "pages/home" "Diff_" "/") "diff" ""
  = "pages/Diff_home.png".
Proof.
  apply (getFileName_diff_in_directory (mkNaming "" "pages/home" "Diff_" "/")
           "pages" "home"); try reflexivity. discriminate.
Defined.

Lemma variant_tail_length (r : string) :
  variant_tail r = true -> (5 <= String.length r)%nat.
Proof.
  induction r as [|b r IH]; [done|]. simpl.
  intros [_ [Heq|Hr]%orb_true_iff]%andb_true_iff.
  - apply String.eqb_eq in Heq. subst. simpl. lia.
  - specialize (IH Hr). lia.
Qed.

Lemma name_match_here_length (s : string) :
  name_match_here s = true -> (4 <= String.length s)%nat.
Proof.
  destruct s as [|a r]; [done|]. unfold name_match_here.
  intros [[_ Hr]%andb_true_iff|Heq]%orb_true_iff.
  - apply variant_tail_length in Hr. simpl. lia.
  - apply String.eqb_eq in Heq. rewrite Heq. simpl. lia.
Qed.

Lemma variant_tail_append (v : string) :
  v <> "" -> one_line v = true -> variant_tail (String.append v ".png") = true.
Proof.
  induction v as [|b v IH]; [done|]. intros _. cbn [one_line].
  intros [Hb Hv]%andb_true_iff.
  change (String.append (String b v) ".png") with (String b (String.append v ".png")).
  cbn [variant_tail].
  change ".png" with (String "." "png") at 1.
  rewrite line_terminator_at_append, Hb by reflexivity. cbn [andb].
  destruct v as [|b' v]; [reflexivity|].
  rewrite IH by done. apply orb_true_r.
Qed.

Lemma imageName_of_cut (n t : string) :
  contains "~"%char n = false -> name_match_here t = true ->
  imageName_of (String.append n t) = n.
Proof.
  intros Hn Ht. pose proof (name_match_here_length t Ht) as Hlen.
  induction n as [|c n IH].
  - destruct t as [|a r]; [done|]. simpl String.append. cbn [imageName_of].
    by rewrite Ht.
  - simpl in Hn. apply orb_false_iff in Hn as [Hc Hn].
    change (String.append (String c n) t) with (String c (String.append n t)).
    cbn [imageName_of]. unfold name_match_here at 1. rewrite Hc. cbn [andb orb].
    destruct (String.eqb_spec (String c (String.append n t)) ".png") as [Heq|_].
    + apply (f_equal String.length) in Heq. simpl in Heq.
      rewrite string_length_append in Heq. lia.
    + by rewrite IH.
Qed.

Lemma imageName_of_plain (n : string) :
  contains "~"%char n = false -> (forall a, n <> String.append a ".png") ->
  imageName_of n = n.
Proof.
  induction n as [|c n IH]; [done|]. simpl contains.
  intros [Hc Hn]%orb_false_iff Hext. cbn [imageName_of].
  unfold name_match_here. rewrite Hc. cbn [andb orb].
  destruct (String.eqb_spec (String c n) ".png") as [Heq|_].
  - by destruct (Hext "").
  - rewrite IH; [done|done|]. intros a ->. by apply (Hext (String c a)).
Qed.

(** X13. The image may be named with or without its extension, or by one of
    its variant files: for a name [n] without ['~'] that does not itself
    end in [".png"], and a variant that is not empty and holds no line
    terminator (LF, CR, U+2028, U+2029), the images [n], [n.png] and
    [n~<variant>.png] all give the image name [n], and the expected file
    is [n.png]. *)
Theorem image_name_spellings (n v prefix sep : string) :
  contains "~"%char n = false -> last4 n <> ".png" ->
  v <> "" -> one_line v = true ->
  imageName_of n = n /\
  imageName_of (String.append n ".png") = n /\
  imageName_of (String.append n (String "~" (String.append v ".png"))) = n /\
  _getFileName (mkNaming "" (imageName_of (String.append n (String "~" (String.append v ".png"))))
                  prefix sep) "expected" ""
  = String.append n ".png".
Proof.
  intros Hn Hext Hv Hline.
  assert (imageName_of (String.append n (String "~" (String.append v ".png"))) = n)
    as Hvariant.
  { apply imageName_of_cut; [done|]. unfold name_match_here.
    rewrite variant_tail_append by done. reflexivity. }
  split_and!.
  - apply imageName_of_plain; [done|]. intros a ->. by rewrite last4_append_png in Hext.
  - by apply imageName_of_cut.
  - exact Hvariant.
  - rewrite Hvariant. unfold _getFileName. cbn [compareWith imageName].
    rewrite andb_false_r.
    destruct (String.eqb_spec ".png" (last4 n)) as [Heq|_]; [by symmetry in Heq|].
    reflexivity.
Qed.

Lemma image_name_spellings_witness :
  imageName_of "shot" = "shot" /\
  imageName_of "shot.png" = "shot" /\
  imageName_of "shot~alt.png" = "shot".
Proof.
  destruct (image_name_spellings "shot" "alt" "Diff_" "/") as (H1 & H2 & H3 & _);
    try reflexivity; try discriminate.
  by split_and!.
Defined.

(** X14. The label of a candidate is what stands between the last ['~']
    of its path and the extension: for a path [<pre>~<suf>.png] with no
    ['~'] in [<suf>] and no line terminator (LF, CR, U+2028, U+2029) in
    [<pre>] the label is [<suf>],
    also when [<pre>] has a ['~'] of its own; and the expected file that
    [_getFileName] builds for an image name without ['~'] has the empty
    label. *)
Theorem variation_after_last_tilde (pre suf : string) :
  one_line pre = true -> contains "~"%char suf = false ->
  variation_of (String.append pre (String "~"%char (String.append suf ".png"))) = suf /\
  (forall env, compareWith env = "" -> contains "~"%char (imageName env) = false ->
     variation_of (_getFileName env "expected" "") = "").
Proof.
  intros Hpre Hsuf. split; [by apply variation_of_variant|].
  intros env Hcmp Hname. apply variation_of_plain. unfold _getFileName.
  rewrite Hcmp.
  change (String.eqb "expected" "expected") with true.
  change (String.eqb "diff" "expected") with false.
  change (String.eqb "" "") with true. cbn [andb negb].
  destruct (String.eqb_spec ".png" (last4 (imageName env))) as [_|_]; cbn [negb].
  - done.
  - rewrite contains_append, Hname. reflexivity.
Qed.

(** The line separator U+2028 (bytes [E2 80 A8]) stops [.] as a line
    feed does: a variant suffix that holds one is not cut off the image
    name, and a path with one before its last ['~'] keeps its prefix. *)
Example line_separator_in_names :
  let ls := String "226" (String "128" (String "168" "")) in
  imageName_of (String.append "a~b" (String.append ls "c.png"))
  = String.append "a~b" (String.append ls "c") /\
  variation_of (String.append "/x" (String.append ls "y/shot~z.png"))
  = String.append "/x" (String.append ls "y/shot~z").
Proof. split; reflexivity. Qed.

Lemma variation_after_last_tilde_witness :
  variation_of "/shots/~base/shot~alt.png" = "alt".
Proof.
  apply (variation_after_last_tilde "/shots/~base/shot" "alt"); reflexivity.
Defined.

(** ** [_toBool] *)

Lemma lower_ascii_idem (a : ascii) : lower_ascii (lower_ascii a) = lower_ascii a.
Proof. destruct a as [[] [] [] [] [] [] [] []]; vm_compute; reflexivity. Qed.

Lemma toLowerCase_idem (s : string) : toLowerCase (toLowerCase s) = toLowerCase s.
Proof. induction s as [|a s IH]; simpl; [done|]. by rewrite lower_ascii_idem, IH. Qed.

Lemma truthy_toLowerCase (s : string) :
  truthy (VStr (toLowerCase s)) = truthy (VStr s).
Proof. by destruct s. Qed.

(** X15. [_toBool] of [index.js] returns a boolean, with two exceptions that
    [validTerms] can list: the empty string and a value that is neither a
    string nor a boolean.  It never returns a string that is not empty:
    such a string is cast without a look at [validTerms] and without
    regard to case. *)
Theorem toBool_never_a_term_string (value : jsval) (validTerms : option (list jsval)) :
  ((exists b, _toBool value validTerms = VBool b) \/
   (_toBool value validTerms = value /\ in_valid_terms validTerms value = true)) /\
  (forall s, _toBool value validTerms = VStr s -> s = ""%string) /\
  (forall s, value = VStr s -> s <> ""%string ->
     _toBool value validTerms = VBool (affirmative (toLowerCase s)) /\
     _toBool (VStr (toLowerCase s)) validTerms = _toBool value validTerms).
Proof.
  split_and!.
  - destruct value as [| |b|x|s|id]; cbn [_toBool truthy];
      try destruct (negb (String.eqb s "")); eauto;
      destruct (in_valid_terms validTerms _) eqn:Hin; eauto.
  - intros s. destruct value as [| |b|x|s'|id]; cbn [_toBool truthy];
      try done; try (destruct (in_valid_terms validTerms _); done).
    destruct (String.eqb_spec s' ""); cbn [negb]; [|done].
    destruct (in_valid_terms validTerms _); [|done]. congruence.
  - intros s -> Hs. unfold _toBool. rewrite truthy_toLowerCase, toLowerCase_idem.
    cbn [truthy]. by destruct (String.eqb_spec s "").
Qed.

(** X16. [_toBool] of [utils/common.ts] returns the value itself exactly when
    [validTerms] lists it, and a boolean otherwise.  It differs from the
    one of [index.js] only on a listed string that is not empty, which
    [index.js] casts to a boolean. *)
Theorem toBool_common_returns_listed_terms (value : jsval)
    (validTerms : option (list jsval)) :
  (in_valid_terms validTerms value = true ->
   _toBool_common value validTerms = value) /\
  (in_valid_terms validTerms value = false ->
   exists b, _toBool_common value validTerms = VBool b) /\
  (_toBool_common value validTerms = _toBool value validTerms \/
   (in_valid_terms validTerms value = true /\
    exists s, value = VStr s /\ s <> ""%string /\
              _toBool_common value validTerms = VStr s /\
              _toBool value validTerms = VBool (affirmative (toLowerCase s)))).
Proof.
  unfold _toBool_common. split_and!.
  - by intros ->.
  - intros ->. destruct value as [| |b|x|s|id]; cbn [truthy]; eauto.
    destruct (negb (String.eqb s "")); eauto.
  - destruct (in_valid_terms validTerms value) eqn:Hin.
    + destruct value as [| |b|x|s|id]; cbn [_toBool truthy]; rewrite ?Hin; eauto.
      destruct (String.eqb_spec s ""); cbn [negb]; [by left|].
      right. split; [done|]. exists s. by split_and!.
    + left. destruct value as [| |b|x|s|id]; cbn [_toBool truthy]; rewrite ?Hin;
        try done.
Qed.

(** ** [checkVisualDifferences] *)

(** X17. The promise of [checkVisualDifferences] is always settled: it
    resolves, with the result, exactly when the comparison returns a
    result that matches; an error of the comparison rejects it with the
    error's message (the reset result, which says [match: true], does not
    resolve it afterwards); a result that does not match rejects it. *)
Theorem checkVisualDifferences_settles {args_t : Type}
    (pixelmatch : list Z -> list Z -> list Z -> Z -> Z -> args_t -> Z * list Z)
    (diffFileName : nat -> string) (opts : options args_t) (diffEnabled : bool)
    (show : jsnum -> string) (cands : list (string * PNG)) (imgActual : PNG) :
  let run := getVisualDifferences args_t pixelmatch diffFileName opts diffEnabled
               cands imgActual in
  let check := checkVisualDifferences args_t pixelmatch diffFileName opts diffEnabled
                 show cands imgActual in
  (forall res, check = Some (Resolved res) <->
               run = Ok res /\ match_ (scalars res) = true) /\
  (forall msg, run = Err msg -> check = Some (Rejected msg)) /\
  (forall res, run = Ok res -> match_ (scalars res) = false ->
     exists reason, check = Some (Rejected reason)) /\
  check <> None.
Proof.
  intros run check. unfold check, checkVisualDifferences. fold run.
  destruct run as [res0|msg0]; simpl.
  - destruct (match_ (scalars res0)) eqn:Hm; simpl; split_and!; try done.
    + intros res. split; [intros [= <-]; done|intros [[= <-] _]; done].
    + intros res [= <-]. congruence.
    + intros res. split; [done|intros [[= <-] ?]; congruence].
    + intros res [= <-] _. eauto.
  - split_and!; try done.
    + intros res. split; [done|intros [? _]; done].
    + by intros msg [= <-].
Qed.
